(** * better-icons: the icon artifact synchronization subsystem

    A shallow embedding of
      - src/icon-utils.ts          (module [IconUtils]),
      - the preference store       (module [Memory]),
      - the managed icons file     (module [IconsFile]),
    together with the parts of the JavaScript runtime they rely on
    (strings, regular expressions, exceptions, the file system).

    Scope of the model.  A JavaScript string is a [string] of 8-bit
    characters; the model is exact on ASCII text.  [\s], [trim] and
    [trimEnd] use the ASCII white space characters, [\w] is
    [A-Za-z0-9_], and the case mappings act on [A-Z] / [a-z] only.
    Numbers are mathematical integers. *)

From Stdlib Require Import Ascii ZArith Lia Permutation.
From Stdlib Require String.
From stdpp Require Import base option list gmap strings.

Local Open Scope Z_scope.
Local Open Scope nat_scope.

(* ================================================================== *)
(** * Part I: definitions *)
(* ================================================================== *)

(** ** JavaScript strings *)

Module JsString.

Definition LF : ascii := "010"%char.

Definition ascii_in (lo hi : ascii) (c : ascii) : bool :=
  (nat_of_ascii lo <=? nat_of_ascii c) && (nat_of_ascii c <=? nat_of_ascii hi).

Definition is_upper (c : ascii) : bool := ascii_in "A" "Z" c.
Definition is_lower (c : ascii) : bool := ascii_in "a" "z" c.
Definition is_digit (c : ascii) : bool := ascii_in "0" "9" c.

(** [\w] *)
Definition is_word (c : ascii) : bool :=
  is_upper c || is_lower c || is_digit c || Ascii.eqb c "_".

(** [\s], and the characters removed by [trim] / [trimEnd] *)
Definition is_space (c : ascii) : bool :=
  match c with
  | "009" | "010" | "011" | "012" | "013" | " " => true
  | _ => false
  end%char.

Definition toUpperCase_char (c : ascii) : ascii :=
  if is_lower c then ascii_of_nat (nat_of_ascii c - 32) else c.
Definition toLowerCase_char (c : ascii) : ascii :=
  if is_upper c then ascii_of_nat (nat_of_ascii c + 32) else c.

Fixpoint map_chars (f : ascii -> ascii) (s : string) : string :=
  match s with
  | EmptyString => EmptyString
  | String c s' => String (f c) (map_chars f s')
  end.

Definition toUpperCase : string -> string := map_chars toUpperCase_char.
Definition toLowerCase : string -> string := map_chars toLowerCase_char.

Fixpoint forall_chars (p : ascii -> bool) (s : string) : bool :=
  match s with
  | EmptyString => true
  | String c s' => p c && forall_chars p s'
  end.

(** [s.slice(n)] for [0 <= n] *)
Fixpoint slice_from (n : nat) (s : string) : string :=
  match n, s with
  | 0, _ => s
  | S n', String _ s' => slice_from n' s'
  | S _, EmptyString => EmptyString
  end.

(** [s.slice(0, n)] *)
Fixpoint slice_to (n : nat) (s : string) : string :=
  match n, s with
  | S n', String c s' => String c (slice_to n' s')
  | _, _ => EmptyString
  end.

(** [s.charAt(0)]: the first character as a string, or the empty string *)
Definition charAt0 (s : string) : string := slice_to 1 s.

(** [s.startsWith(p)], returning the remainder after [p] *)
Fixpoint strip_prefix (p s : string) : option string :=
  match p, s with
  | EmptyString, _ => Some s
  | String a p', String b s' => if Ascii.eqb a b then strip_prefix p' s' else None
  | String _ _, EmptyString => None
  end.

(** [s.trimStart()] *)
Fixpoint trimStart (s : string) : string :=
  match s with
  | String c s' => if is_space c then trimStart s' else s
  | EmptyString => EmptyString
  end.

(** [s.trimEnd()] *)
Fixpoint trimEnd (s : string) : string :=
  match s with
  | EmptyString => EmptyString
  | String c s' =>
      match trimEnd s' with
      | EmptyString => if is_space c then EmptyString else String c EmptyString
      | t => String c t
      end
  end.

(** [s.trim()] *)
Definition trim (s : string) : string := trimEnd (trimStart s).

(** [s.split(sep)] for a separator that matches exactly one character
    ([":"], or the class [/[-_]/]): never returns the empty list. *)
Fixpoint split_on (sep : ascii -> bool) (s : string) : list string :=
  match s with
  | EmptyString => [EmptyString]
  | String c s' =>
      if sep c then EmptyString :: split_on sep s'
      else match split_on sep s' with
           | p :: ps => String c p :: ps
           | [] => [String c EmptyString]
           end
  end.

(** [parts.join("")] *)
Definition join (parts : list string) : string :=
  foldr String.append EmptyString parts.

(** [s.includes(p)] *)
Fixpoint includes (p s : string) : bool :=
  match strip_prefix p s with
  | Some _ => true
  | None => match s with
            | String _ s' => includes p s'
            | EmptyString => false
            end
  end.

(** A JavaScript value used as a condition: the empty string and
    [undefined] are falsy. *)
Definition truthy (o : option string) : bool :=
  match o with
  | Some (String _ _) => true
  | _ => false
  end.

(** Decimal rendering of an integer, as [`${n}`] prints it. *)
Definition digit_char (n : nat) : ascii := ascii_of_nat (48 + n).

Fixpoint show_pos_fuel (fuel : nat) (n : N) (acc : string) : string :=
  match fuel with
  | 0 => acc
  | S f =>
      let acc' := String (digit_char (N.to_nat (n mod 10)%N)) acc in
      if (n <? 10)%N then acc' else show_pos_fuel f (n / 10)%N acc'
  end.

Definition show_N (n : N) : string :=
  show_pos_fuel (S (N.to_nat (N.log2 n))) n EmptyString.

Definition show_Z (z : Z) : string :=
  match z with
  | Z0 => "0"
  | Zpos p => show_N (Npos p)
  | Zneg p => "-" +:+ show_N (Npos p)
  end.

End JsString.

(** ** JavaScript regular expressions

    A backtracking matcher in continuation-passing style, following the
    order in which the ECMAScript matcher explores alternatives: a greedy
    quantifier tries one more iteration before it tries to stop, a lazy
    one the other way round, an iteration that consumes nothing is
    rejected, and an alternation tries its left branch first. *)

Module Regex.
Import JsString.

Inductive regex : Type :=
| Eps                                   (* the empty pattern *)
| Chr (c : ascii)                       (* a literal character *)
| Cls (p : ascii -> bool)               (* a character class *)
| Seq (r1 r2 : regex)                   (* r1 r2 *)
| Alt (r1 r2 : regex)                   (* r1|r2 *)
| Star (greedy : bool) (r : regex)      (* r* and r*? *)
| Group (i : nat) (r : regex)           (* the i-th capturing group *)
| NotAhead (r : regex).                 (* (?!r) *)

(** Derived forms. *)
Definition Plus (r : regex) : regex := Seq r (Star true r).      (* r+ *)
Definition Opt (r : regex) : regex := Alt r Eps.                 (* r? *)
Definition NotCls (p : ascii -> bool) : regex := Cls (fun c => negb (p c)).

(** A literal string. *)
Fixpoint Lit (s : string) : regex :=
  match s with
  | EmptyString => Eps
  | String c EmptyString => Chr c
  | String c s' => Seq (Chr c) (Lit s')
  end.

(** Captures: the text of each group that took part in the match. *)
Definition captures := list (nat * string).

Fixpoint capture (i : nat) (c : captures) : option string :=
  match c with
  | [] => None
  | (j, t) :: c' => if Nat.eqb i j then Some t else capture i c'
  end.

(** The part of [s] in front of its suffix [rest]. *)
Definition consumed (s rest : string) : string :=
  slice_to (String.length s - String.length rest) s.

Definition cont := string -> captures -> option (captures * string).

Fixpoint rmatch (r : regex) (s : string) (c : captures) (k : cont)
  {struct r} : option (captures * string) :=
  match r with
  | Eps => k s c
  | Chr a =>
      match s with
      | String b s' => if Ascii.eqb a b then k s' c else None
      | EmptyString => None
      end
  | Cls p =>
      match s with
      | String b s' => if p b then k s' c else None
      | EmptyString => None
      end
  | Seq r1 r2 => rmatch r1 s c (fun s' c' => rmatch r2 s' c' k)
  | Alt r1 r2 =>
      match rmatch r1 s c k with
      | Some x => Some x
      | None => rmatch r2 s c k
      end
  | Star greedy r1 =>
      (fix iterate (fuel : nat) (s : string) (c : captures) {struct fuel} :=
         match fuel with
         | 0 => k s c
         | S fuel' =>
             let again s' c' :=
               if String.length s' <? String.length s
               then iterate fuel' s' c' else None in
             if greedy then
               match rmatch r1 s c again with
               | Some x => Some x
               | None => k s c
               end
             else
               match k s c with
               | Some x => Some x
               | None => rmatch r1 s c again
               end
         end) (String.length s) s c
  | Group i r1 =>
      rmatch r1 s c (fun s' c' => k s' ((i, consumed s s') :: c'))
  | NotAhead r1 =>
      match rmatch r1 s c (fun s' c' => Some (c', s')) with
      | Some _ => None
      | None => k s c
      end
  end.

(** A match anchored at the start of [s]: the captures and the text
    that follows the match. *)
Definition match_here (r : regex) (s : string) : option (captures * string) :=
  rmatch r s [] (fun s' c' => Some (c', s')).

(** The number of capturing groups of a pattern. *)
Fixpoint group_count (r : regex) : nat :=
  match r with
  | Eps | Chr _ | Cls _ => 0
  | Seq r1 r2 | Alt r1 r2 => group_count r1 + group_count r2
  | Star _ r1 | NotAhead r1 => group_count r1
  | Group _ r1 => S (group_count r1)
  end.

(** One match inside a subject string. *)
Record found : Type := Found {
  f_before : string;       (* the text in front of the match *)
  f_text : string;         (* the matched text, [match[0]] *)
  f_groups : captures;     (* [match[1]], [match[2]], ... *)
  f_after : string         (* the text behind the match *)
}.

(** [GetSubstitution]: expansion of a replacement string. [m] is the
    number of capturing groups of the pattern. *)
Definition digit_value (c : ascii) : option nat :=
  if is_digit c then Some (nat_of_ascii c - 48) else None.

Fixpoint substitution (m : nat) (f : found) (tpl : string) : string :=
  match tpl with
  | EmptyString => EmptyString
  | String "$" tpl1 =>
      match tpl1 with
      | String "$" tpl2 => String "$" (substitution m f tpl2)
      | String "&" tpl2 => f_text f +:+ substitution m f tpl2
      | String "`" tpl2 => f_before f +:+ substitution m f tpl2
      | String "'" tpl2 => f_after f +:+ substitution m f tpl2
      | String d1 tpl2 =>
          match digit_value d1 with
          | None => String "$" (substitution m f tpl1)
          | Some n1 =>
              let one_digit :=
                if (1 <=? n1) && (n1 <=? m)
                then default EmptyString (capture n1 (f_groups f))
                       +:+ substitution m f tpl2
                else String "$" (String d1 (substitution m f tpl2)) in
              match tpl2 with
              | String d2 tpl3 =>
                  match digit_value d2 with
                  | Some n2 =>
                      let n := 10 * n1 + n2 in
                      if n <=? m then
                        if 1 <=? n
                        then default EmptyString (capture n (f_groups f))
                               +:+ substitution m f tpl3
                        else String "$" (String d1 (String d2 (substitution m f tpl3)))
                      else one_digit
                  | None => one_digit
                  end
              | EmptyString => one_digit
              end
          end
      | EmptyString => String "$" EmptyString
      end
  | String c tpl1 => String c (substitution m f tpl1)
  end.

(** Append one character at the end. *)
Definition snoc (s : string) (c : ascii) : string := s +:+ String c EmptyString.

(** The leftmost match at or behind the current position; [before] is
    the text in front of that position. *)
Fixpoint search_from (r : regex) (before s : string) : option found :=
  match match_here r s with
  | Some (c, rest) => Some (Found before (consumed s rest) c rest)
  | None =>
      match s with
      | String a s' => search_from r (snoc before a) s'
      | EmptyString => None
      end
  end.

(** [re.exec(s)] / [s.match(re)] for a pattern without the [g] flag. *)
Definition search (r : regex) (s : string) : option found :=
  search_from r EmptyString s.

(** All matches of a global pattern, left to right, each search starting
    where the previous match ended ([lastIndex]).  [skip] counts the
    characters of the current match that are still to be passed.  After
    an empty match the search moves on by one character. *)
Fixpoint matches_from (r : regex) (skip : nat) (before s : string) : list found :=
  match skip with
  | S skip' =>
      match s with
      | String a s' => matches_from r skip' (snoc before a) s'
      | EmptyString => []
      end
  | 0 =>
      match match_here r s with
      | Some (c, rest) =>
          Found before (consumed s rest) c rest ::
            match s with
            | String a s' =>
                matches_from r (String.length s - String.length rest - 1)
                  (snoc before a) s'
            | EmptyString => []
            end
      | None =>
          match s with
          | String a s' => matches_from r 0 (snoc before a) s'
          | EmptyString => []
          end
      end
  end.

(** The successive results of [re.exec(s)] for a pattern with the [g]
    flag, until it returns [null]. *)
Definition exec_all (r : regex) (s : string) : list found :=
  matches_from r 0 EmptyString s.

(** [s.replace(re, replacement)] for a pattern with the [g] flag. *)
Fixpoint replace_from (r : regex) (tpl : string) (skip : nat)
  (before s : string) : string :=
  match skip with
  | S skip' =>
      match s with
      | String a s' => replace_from r tpl skip' (snoc before a) s'
      | EmptyString => EmptyString
      end
  | 0 =>
      match match_here r s with
      | Some (c, rest) =>
          let f := Found before (consumed s rest) c rest in
          let n := String.length s - String.length rest in
          substitution (group_count r) f tpl +:+
            match s with
            | String a s' =>
                match n with
                | 0 => String a (replace_from r tpl 0 (snoc before a) s')
                | S n' => replace_from r tpl n' (snoc before a) s'
                end
            | EmptyString => EmptyString
            end
      | None =>
          match s with
          | String a s' => String a (replace_from r tpl 0 (snoc before a) s')
          | EmptyString => EmptyString
          end
      end
  end.

Definition replace_all (r : regex) (tpl : string) (s : string) : string :=
  replace_from r tpl 0 EmptyString s.

(** [s.replace(pattern, replacement)] for a string pattern: the first
    occurrence only. *)
Definition replace_first (pat tpl : string) (s : string) : string :=
  match search (Lit pat) s with
  | Some f => f_before f +:+ substitution 0 f tpl +:+ f_after f
  | None => s
  end.

End Regex.

(** ** Exceptions and state

    Code that reads or writes the outside world is a function from the
    world to a result and a new world.  A result is a returned value or a
    thrown exception. *)

Module Js.

Inductive result (E A : Type) : Type :=
| Ok (a : A)
| Thrown (e : E).
Arguments Ok {E A} a.
Arguments Thrown {E A} e.

Definition io (W E A : Type) : Type := W -> result E A * W.

Definition ret {W E A} (a : A) : io W E A := fun w => (Ok a, w).

Definition throw {W E A} (e : E) : io W E A := fun w => (Thrown e, w).

Definition bind {W E A B} (m : io W E A) (k : A -> io W E B) : io W E B :=
  fun w =>
    match m w with
    | (Ok a, w') => k a w'
    | (Thrown e, w') => (Thrown e, w')
    end.

(** [try { m } catch (e) { handler e }] *)
Definition try_catch {W E A} (m : io W E A) (handler : E -> io W E A) : io W E A :=
  fun w =>
    match m w with
    | (Ok a, w') => (Ok a, w')
    | (Thrown e, w') => handler e w'
    end.

(** The way a loop body ends: it falls through to the next iteration,
    or it executes [return]. *)
Inductive flow : Type := Continue | Return.

(** [for (let i = start; i < start + n; i++) { body i }] *)
Fixpoint for_range {W E} (start n : nat) (body : nat -> io W E flow) : io W E unit :=
  match n with
  | 0 => ret tt
  | S n' =>
      bind (body start) (fun f =>
        match f with
        | Return => ret tt
        | Continue => for_range (S start) n' body
        end)
  end.

(** A [while] loop over a state: [step] returns the next state while
    the loop condition holds and [None] once it fails.  The loop
    itself is unbounded, so running it takes fuel: [None] means that
    the fuel ran out before the condition failed. *)
Fixpoint while_loop {S : Type} (step : S -> option S) (fuel : nat) (st : S) : option S :=
  match step st with
  | None => Some st
  | Some st' =>
      match fuel with
      | 0 => None
      | Datatypes.S fuel' => while_loop step fuel' st'
      end
  end.

(** ["a" || "b"] on strings, [a || b] on numbers *)
Definition or_string (a : option string) (b : string) : string :=
  match a with
  | Some (String c s) => String c s
  | _ => b
  end.

Definition or_Z (a : option Z) (b : Z) : Z :=
  match a with
  | Some z => if (z =? 0)%Z then b else z
  | None => b
  end.

(** [Array.prototype.sort(compare)]: the sort is stable, and for a
    consistent comparator the result is the stable sort of the array,
    whichever algorithm computes it. *)
Fixpoint insert_sorted {A} (compare : A -> A -> Z) (x : A) (l : list A) : list A :=
  match l with
  | [] => [x]
  | y :: l' =>
      if (compare x y <=? 0)%Z then x :: y :: l'
      else y :: insert_sorted compare x l'
  end.

Definition sort {A} (compare : A -> A -> Z) (l : list A) : list A :=
  foldr (insert_sorted compare) [] l.

(** [l.indexOf(x)], [-1] when absent *)
Fixpoint indexOf (x : string) (l : list string) : Z :=
  match l with
  | [] => (-1)%Z
  | y :: l' =>
      if String.eqb x y then 0%Z
      else let i := indexOf x l' in
           if (i <? 0)%Z then (-1)%Z else (i + 1)%Z
  end.

(** [[...new Set(l)]]: duplicates removed, first occurrences kept in order *)
Fixpoint dedupe_seen (seen : list string) (l : list string) : list string :=
  match l with
  | [] => []
  | x :: l' =>
      if bool_decide (x ∈ seen) then dedupe_seen seen l'
      else x :: dedupe_seen (x :: seen) l'
  end.

Definition dedupe (l : list string) : list string := dedupe_seen [] l.

End Js.

Declare Scope io_scope.
Delimit Scope io_scope with io.
Notation "'let*' x ':=' m 'in' k" := (Js.bind m (fun x => k))
  (at level 10, x name, m at level 100, k at level 200) : io_scope.
Notation "m ';;' k" := (Js.bind m (fun _ => k))
  (at level 100, k at level 200, right associativity) : io_scope.

(** Two characters that a string literal cannot hold conveniently. *)
Definition DQ : string := String "034" EmptyString.          (* the double quote *)
Definition NL : string := String JsString.LF EmptyString.    (* the line feed *)

(** ** src/icon-utils.ts *)

Module IconUtils.
Import JsString Regex Js.

Record IconData : Type := {
  body : string;
  width : option Z;
  height : option Z;
  left : option Z;
  top : option Z
}.

(** An entry of [aliases]. The declared type has a [parent]; a document
    received from the network may lack it. *)
Record Alias : Type := { parent : option string }.

Record IconSet : Type := {
  icons : option (gmap string IconData);
  aliases : option (gmap string Alias);
  set_width : option Z;
  set_height : option Z
}.

(** [iconSet.aliases?.[current]] *)
Definition alias_of (iconSet : IconSet) (current : string) : option Alias :=
  aliases iconSet ≫= (fun a => a !! current).

(** The state of the loop of [resolveIconAlias]: [current] and [depth]. *)
Definition alias_state : Type := string * nat.

(** One turn of
    [while (iconSet.aliases?.[current] && depth < maxDepth)
       { current = iconSet.aliases[current]?.parent ?? current; depth++; }] *)
Definition alias_step (iconSet : IconSet) (maxDepth : nat) (st : alias_state)
  : option alias_state :=
  let '(current, depth) := st in
  match alias_of iconSet current with
  | Some a =>
      if depth <? maxDepth
      then Some (default current (parent a), S depth)
      else None
  | None => None
  end.

(** The loop of [resolveIconAlias] run with the given fuel: the final
    [current] and [depth]. *)
Definition resolveIconAlias_run (fuel : nat) (iconSet : IconSet) (name : string)
  (maxDepth : nat) : option alias_state :=
  while_loop (alias_step iconSet maxDepth) fuel (name, 0).

(** [resolveIconAlias(iconSet, name, maxDepth = 10)] *)
Definition resolveIconAlias_fuel (fuel : nat) (iconSet : IconSet) (name : string)
  (maxDepth : option nat) : option string :=
  fst <$> resolveIconAlias_run fuel iconSet name (default 10 maxDepth).

Definition SVG_SHAPE_ELEMENTS : list string :=
  ["path"; "circle"; "rect"; "polygon"; "polyline"; "line"; "ellipse"].

Definition not_gt : regex := NotCls (Ascii.eqb ">").        (* [^>] *)

(** [new RegExp(`<${element}(?![^>]*(?:fill=|stroke=))([^>]*?)(/?)>`, "g")].
    The element names hold letters only, so each stands for itself in
    the pattern. *)
Definition tagRegex (element : string) : regex :=
  Seq (Lit ("<" +:+ element))
 (Seq (NotAhead (Seq (Star true not_gt) (Alt (Lit "fill=") (Lit "stroke="))))
 (Seq (Group 1 (Star false not_gt))
 (Seq (Group 2 (Opt (Chr "/")))
      (Chr ">")))).

(** [`<${element} fill="${color}"$1$2>`] *)
Definition fillReplacement (element color : string) : string :=
  "<" +:+ element +:+ " fill=" +:+ DQ +:+ color +:+ DQ +:+ "$1$2>".

Definition applyFillToBody (body : string) (color : string) : string :=
  foldl (fun result element =>
           replace_all (tagRegex element) (fillReplacement element color) result)
        body SVG_SHAPE_ELEMENTS.

Record Defaults : Type := { d_width : option Z; d_height : option Z }.
Record Options : Type := { size : option Z; color : option string }.

Definition buildSvg (iconData : IconData) (defaults : Defaults)
  (options : option Options) : string :=
  let width := or_Z (width iconData) (or_Z (d_width defaults) 24) in
  let height := or_Z (height iconData) (or_Z (d_height defaults) 24) in
  let viewBox :=
    show_Z (or_Z (left iconData) 0) +:+ " " +:+ show_Z (or_Z (top iconData) 0)
      +:+ " " +:+ show_Z width +:+ " " +:+ show_Z height in
  let svgSize :=
    match or_Z (options ≫= size) 0 with
    | Z0 => "width=" +:+ DQ +:+ "1em" +:+ DQ +:+ " height=" +:+ DQ +:+ "1em" +:+ DQ
    | sz => "width=" +:+ DQ +:+ show_Z sz +:+ DQ
              +:+ " height=" +:+ DQ +:+ show_Z sz +:+ DQ
    end in
  let color := or_string (options ≫= color) "currentColor" in
  let body := applyFillToBody (body iconData) color in
  "<svg xmlns=" +:+ DQ +:+ "http://www.w3.org/2000/svg" +:+ DQ +:+ " " +:+ svgSize
    +:+ " viewBox=" +:+ DQ +:+ viewBox +:+ DQ +:+ ">" +:+ body +:+ "</svg>".

(** [iconId.split(":")[0] ?? ""] *)
Definition getIconPrefix (iconId : string) : string :=
  default EmptyString (head (split_on (Ascii.eqb ":") iconId)).

Inductive Style : Type := Solid | Outline | Any.

(** The comparator shared by the two sort functions. *)
Definition byPreference (preferred : list string) (a b : string) : Z :=
  let prefixA := getIconPrefix a in
  let prefixB := getIconPrefix b in
  let pA := indexOf prefixA preferred in
  let pB := indexOf prefixB preferred in
  if (0 <=? pA)%Z && (0 <=? pB)%Z then (pA - pB)%Z
  else if (0 <=? pA)%Z && (pB <? 0)%Z then (-1)%Z
  else if (0 <=? pB)%Z && (pA <? 0)%Z then 1%Z
  else 0%Z.

(** Arrays live on a heap and are passed by reference. *)
Definition ref : Type := nat.
Definition heap : Type := gmap nat (list string).

(** [[...a]]: a new array with the elements of [a] *)
Definition spread (a : ref) (h : heap) : option (ref * heap) :=
  l ← h !! a;
  let r := fresh (dom h) in
  Some (r, <[r := l]> h).

(** [a.sort(compare)]: sorts [a] in place and returns [a] *)
Definition sort_in_place (compare : string -> string -> Z) (a : ref) (h : heap)
  : option (ref * heap) :=
  l ← h !! a;
  Some (a, <[a := sort compare l]> h).

Definition sortByPreferredCollections (icons : ref) (style : Style)
  (learnedPreferences : option ref) (h : heap) : option (ref * heap) :=
  learned ← match learnedPreferences with
            | Some p => h !! p
            | None => Some []
            end;
  let stylePreferred :=
    match style with
    | Solid => ["mdi"; "fa-solid"]
    | Outline => ["lucide"; "tabler"; "ph"]
    | Any => ["lucide"; "mdi"; "heroicons"]
    end in
  let preferred := dedupe (learned ++ stylePreferred) in
  '(copy, h1) ← spread icons h;
  sort_in_place (byPreference preferred) copy h1.

Definition sortByLearnedPreferences (icons : ref) (learnedPreferences : ref)
  (h : heap) : option (ref * heap) :=
  learned ← h !! learnedPreferences;
  if Nat.eqb (length learned) 0 then Some (icons, h)
  else
    '(copy, h1) ← spread icons h;
    sort_in_place (byPreference learned) copy h1.

End IconUtils.

(** ** The preference store (memory.ts) *)

Module Memory.
Import JsString Js.

Record CollectionUsage : Type := {
  count : Z;
  lastUsed : string
}.

Record IconHistoryEntry : Type := {
  iconId : string;
  timestamp : string
}.

Inductive IconFramework : Type := react | vue | svelte | solid | svg.

(** The data of a [Preferences] object. *)
Record Preferences : Type := {
  collections : gmap string CollectionUsage;
  history : list IconHistoryEntry
}.

Definition MAX_HISTORY_SIZE : nat := 50.

(** *** The world of the preference store

    Three paths matter: the directory [~/.better-icons], the
    preferences file in it, and the temporary file of this process
    next to it.  The content of a file is a JSON document with the two
    fields of [Preferences], each of which may be missing, or text
    that [JSON.parse] rejects.

    [DEFAULT_PREFERENCES] is one object of the module.  The copies
    [{ ...DEFAULT_PREFERENCES }] made by [loadPreferences] share its
    [collections] object, and [trackUsage] assigns into the
    [collections] object of what it has loaded: the world therefore
    holds the current state of that shared object.  The [history]
    array of [DEFAULT_PREFERENCES] is never written to: [trackUsage]
    replaces [prefs.history] by the new array that [filter] returns
    before it changes it. *)

Inductive path : Type := PrefsDir | PrefsFile | TempFile.

Inductive content : Type :=
| Unparsable
| Document (collections_field : option (gmap string CollectionUsage))
           (history_field : option (list IconHistoryEntry)).

(** [JSON.stringify(prefs, null, 2)] *)
Definition stringify (prefs : Preferences) : content :=
  Document (Some (collections prefs)) (Some (history prefs)).

(** What a file system call does: it succeeds, it throws and changes
    nothing, or (for a write) it throws and leaves a partial file. *)
Inductive fault : Type := NoFault | FailClean | FailTorn.

Inductive event : Type :=
| EExists (p : path)
| ERead (p : path)
| EWrite (p : path)
| ERename
| EMkdir
| ENow
| EConsoleError (message : string).

Inductive error : Type :=
| IOError (e : event)
| SyntaxError.

Record world : Type := World {
  dir_present : bool;
  prefs_file : option content;
  temp_file : option content;
  default_collections : gmap string CollectionUsage;
                               (* DEFAULT_PREFERENCES.collections *)
  faults : nat -> fault;       (* the fate of the n-th fallible system call *)
  calls : nat;                 (* fallible system calls made so far *)
  clock : nat -> string;       (* the n-th reading of the clock *)
  ticks : nat;                 (* clock readings so far *)
  trace : list event           (* everything done so far, latest first *)
}.

Definition M (A : Type) : Type := io world error A.

Definition set_dir_present (b : bool) (w : world) : world :=
  World b (prefs_file w) (temp_file w) (default_collections w) (faults w)
        (calls w) (clock w) (ticks w) (trace w).
Definition set_prefs_file (c : option content) (w : world) : world :=
  World (dir_present w) c (temp_file w) (default_collections w) (faults w)
        (calls w) (clock w) (ticks w) (trace w).
Definition set_temp_file (c : option content) (w : world) : world :=
  World (dir_present w) (prefs_file w) c (default_collections w) (faults w)
        (calls w) (clock w) (ticks w) (trace w).
Definition set_default_collections (m : gmap string CollectionUsage) (w : world)
  : world :=
  World (dir_present w) (prefs_file w) (temp_file w) m (faults w)
        (calls w) (clock w) (ticks w) (trace w).
Definition set_calls (n : nat) (w : world) : world :=
  World (dir_present w) (prefs_file w) (temp_file w) (default_collections w)
        (faults w) n (clock w) (ticks w) (trace w).
Definition set_ticks (n : nat) (w : world) : world :=
  World (dir_present w) (prefs_file w) (temp_file w) (default_collections w)
        (faults w) (calls w) (clock w) n (trace w).
Definition log (e : event) (w : world) : world :=
  World (dir_present w) (prefs_file w) (temp_file w) (default_collections w)
        (faults w) (calls w) (clock w) (ticks w) (e :: trace w).

(** Consult the oracle for the next fallible system call. *)
Definition next_fault (w : world) : fault * world :=
  (faults w (calls w), set_calls (S (calls w)) w).

Definition file_at (p : path) (w : world) : option content :=
  match p with
  | PrefsDir => None
  | PrefsFile => prefs_file w
  | TempFile => temp_file w
  end.

Definition set_file (p : path) (c : option content) (w : world) : world :=
  match p with
  | PrefsDir => w
  | PrefsFile => set_prefs_file c w
  | TempFile => set_temp_file c w
  end.

Definition existsSync (p : path) : M bool := fun w =>
  let w := log (EExists p) w in
  (Ok match p with
      | PrefsDir => dir_present w
      | _ => bool_decide (is_Some (file_at p w))
      end, w).

Definition mkdirSync : M unit := fun w =>
  let '(f, w) := next_fault (log EMkdir w) in
  match f with
  | NoFault => (Ok tt, set_dir_present true w)
  | _ => (Thrown (IOError EMkdir), w)
  end.

Definition readFileSync (p : path) : M content := fun w =>
  let '(f, w) := next_fault (log (ERead p) w) in
  match f, file_at p w with
  | NoFault, Some c => (Ok c, w)
  | _, _ => (Thrown (IOError (ERead p)), w)
  end.

Definition writeFileSync (p : path) (c : content) : M unit := fun w =>
  let '(f, w) := next_fault (log (EWrite p) w) in
  match f with
  | NoFault => (Ok tt, set_file p (Some c) w)
  | FailClean => (Thrown (IOError (EWrite p)), w)
  | FailTorn => (Thrown (IOError (EWrite p)), set_file p (Some Unparsable) w)
  end.

(** [renameSync(tempPath, path)] *)
Definition renameSync : M unit := fun w =>
  let '(f, w) := next_fault (log ERename w) in
  match f, temp_file w with
  | NoFault, Some c => (Ok tt, set_file TempFile None (set_file PrefsFile (Some c) w))
  | _, _ => (Thrown (IOError ERename), w)
  end.

(** [new Date().toISOString()] *)
Definition now : M string := fun w =>
  (Ok (clock w (ticks w)), set_ticks (S (ticks w)) (log ENow w)).

Definition console_error (message : string) : M unit := fun w =>
  (Ok tt, log (EConsoleError message) w).

(** [JSON.parse(content) as Preferences], followed by the reads of its
    two fields *)
Definition parse (c : content)
  : M (option (gmap string CollectionUsage) * option (list IconHistoryEntry)) :=
  match c with
  | Unparsable => throw SyntaxError
  | Document cs h => ret (cs, h)
  end.

(** *** Preferences objects at run time

    The [collections] field of a [Preferences] object refers either to
    the shared object [DEFAULT_PREFERENCES.collections] or to an
    object of its own. *)
Inductive collections_ref : Type :=
| DefaultCollections
| Own (m : gmap string CollectionUsage).

Record PreferencesObject : Type := {
  o_collections : collections_ref;
  o_history : list IconHistoryEntry
}.

(** The current properties of the object behind a reference. *)
Definition deref (r : collections_ref) (w : world) : gmap string CollectionUsage :=
  match r with
  | DefaultCollections => default_collections w
  | Own m => m
  end.

Definition data_of (o : PreferencesObject) (w : world) : Preferences :=
  {| collections := deref (o_collections o) w; history := o_history o |}.

(** [r[key]] *)
Definition get_property (r : collections_ref) (key : string)
  : M (option CollectionUsage) :=
  fun w => (Ok (deref r w !! key), w).

(** [r[key] = value]: assigns into the object that [r] refers to *)
Definition set_property (r : collections_ref) (key : string) (value : CollectionUsage)
  : M collections_ref :=
  fun w =>
    match r with
    | DefaultCollections =>
        (Ok DefaultCollections,
         set_default_collections (<[key := value]> (default_collections w)) w)
    | Own m => (Ok (Own (<[key := value]> m)), w)
    end.

(** [{ ...DEFAULT_PREFERENCES }] *)
Definition DEFAULT_PREFERENCES : PreferencesObject :=
  {| o_collections := DefaultCollections; o_history := [] |}.

Local Open Scope io_scope.

Definition loadPreferences : M PreferencesObject :=
  let* present := existsSync PrefsFile in
  if negb present then ret DEFAULT_PREFERENCES
  else
    try_catch
      (let* content := readFileSync PrefsFile in
       let* parsed := parse content in
       ret {| o_collections := Own (default ∅ (fst parsed));
              o_history := default [] (snd parsed) |})
      (fun _ => ret {| o_collections := o_collections DEFAULT_PREFERENCES;
                       o_history := [] |}).

Definition savePreferences (prefs : PreferencesObject) : M unit :=
  let* present := existsSync PrefsDir in
  (if negb present then mkdirSync else ret tt) ;;
  try_catch
    ((fun w => writeFileSync TempFile (stringify (data_of prefs w)) w) ;;
     renameSync)
    (fun error =>
       try_catch
         (let* left_behind := existsSync TempFile in
          if left_behind
          then (fun w => writeFileSync PrefsFile (stringify (data_of prefs w)) w)
          else ret tt)
         (fun _ => ret tt) ;;
       throw error).

(** [prefs.history.filter(h => h.iconId !== iconId)], [unshift], and
    [slice(0, MAX_HISTORY_SIZE)] *)
Definition recordHistory (iconId : string) (now : string)
  (history : list IconHistoryEntry) : list IconHistoryEntry :=
  let filtered := filter (fun h => Memory.iconId h ≠ iconId) history in
  let unshifted := {| iconId := iconId; timestamp := now |} :: filtered in
  take MAX_HISTORY_SIZE unshifted.

Definition maxRetries : nat := 3.

(** The body of the [try] block of [trackUsage]. *)
Definition trackUsage_attempt (collectionPrefix : string) (iconId : option string)
  : M flow :=
  let* prefs := loadPreferences in
  let* existing := get_property (o_collections prefs) collectionPrefix in
  let* now := now in
  let* collections :=
    set_property (o_collections prefs) collectionPrefix
      {| count := (or_Z (count <$> existing) 0 + 1)%Z; lastUsed := now |} in
  let history :=
    match iconId with
    | Some (String c s) => recordHistory (String c s) now (o_history prefs)
    | _ => o_history prefs
    end in
  savePreferences {| o_collections := collections; o_history := history |} ;;
  ret Return.

Definition failure_message : string := "Failed to track icon usage after retries".

Definition trackUsage (collectionPrefix : string) (iconId : option string) : M unit :=
  for_range 0 maxRetries (fun attempt =>
    try_catch
      (trackUsage_attempt collectionPrefix iconId)
      (fun _ =>
         (if Nat.eqb attempt (maxRetries - 1)
          then console_error failure_message
          else ret tt) ;;
         ret Continue)).

(** The preferences document that the file holds: what a reader finds
    there.  A missing or unparsable file reads as no history. *)
Definition persisted_history (w : world) : list IconHistoryEntry :=
  match prefs_file w with
  | Some (Document _ (Some h)) => h
  | _ => []
  end.


(** *** Reading the store *)

(** [l.slice(0, limit)]: a negative [limit] counts from the end of [l]. *)
Definition slice_upto {A} (limit : Z) (l : list A) : list A :=
  if (limit <? 0)%Z then take (length l - Z.to_nat (- limit)) l
  else take (Z.to_nat limit) l.

(** [getRecentIcons(limit = 20)] *)
Definition getRecentIcons (limit : option Z) : M (list IconHistoryEntry) :=
  let limit := default 20%Z limit in
  let* prefs := loadPreferences in
  ret (slice_upto limit (o_history prefs)).

(** [clearPreferences()]: saves [{ ...DEFAULT_PREFERENCES, history: [] }],
    whose [collections] is the shared object. *)
Definition clearPreferences : M unit :=
  savePreferences {| o_collections := o_collections DEFAULT_PREFERENCES;
                     o_history := [] |}.

(** [(a, b) => b[1].count - a[1].count] *)
Definition byCount (a b : string * CollectionUsage) : Z :=
  (count (snd b) - count (snd a))%Z.

(** [getPreferredCollections()].  [Object.entries] lists the properties
    of [prefs.collections] in property order, which a finite map does
    not record: the enumeration [entries] is left open here. *)
Section ObjectEntries.
Variable entries : gmap string CollectionUsage -> list (string * CollectionUsage).

Definition getPreferredCollections : M (list string) :=
  let* prefs := loadPreferences in
  fun w =>
    (Ok (fst <$> sort byCount (entries (deref (o_collections prefs) w))), w).

End ObjectEntries.

End Memory.

(** ** The managed icons file (icons-file.ts) *)

Module IconsFile.
Import JsString Regex Js.
Export Memory (IconFramework, react, vue, svelte, solid, svg).

(** *** The file system *)

(** [dirname] of [node:path]. *)
Class NodePath : Type := { dirname : string -> string }.

Inductive node : Type :=
| File (content : string)
| Directory.

Definition fs : Type := gmap string node.

Inductive error : Type :=
| ENOENT (p : string)
| EISDIR (p : string)
| ENOTDIR (p : string)
| EEXIST (p : string).

Definition M (A : Type) : Type := io fs error A.

Definition existsSync (p : string) : M bool := fun w =>
  (Ok (bool_decide (is_Some (w !! p))), w).

(** [readFileSync(p, "utf-8")] *)
Definition readFileSync (p : string) : M string := fun w =>
  match w !! p with
  | Some (File c) => (Ok c, w)
  | Some Directory => (Thrown (EISDIR p), w)
  | None => (Thrown (ENOENT p), w)
  end.

(** [mkdirSync(p, { recursive: true })] *)
Definition mkdirSync (p : string) : M unit := fun w =>
  match w !! p with
  | Some (File _) => (Thrown (EEXIST p), w)
  | Some Directory => (Ok tt, w)
  | None => (Ok tt, <[p := Directory]> w)
  end.

(** [writeFileSync(p, content, "utf-8")] *)
Definition writeFileSync `{NodePath} (p : string) (content : string) : M unit :=
  fun w =>
    match w !! p, w !! dirname p with
    | Some Directory, _ => (Thrown (EISDIR p), w)
    | _, Some Directory => (Ok tt, <[p := File content]> w)
    | _, Some (File _) => (Thrown (ENOTDIR p), w)
    | _, None => (Thrown (ENOENT p), w)
    end.

(** *** Names and generated code *)

Definition capitalize (part : string) : string :=
  toUpperCase (charAt0 part) +:+ toLowerCase (slice_from 1 part).

Definition is_dash_or_underscore (c : ascii) : bool :=
  Ascii.eqb c "-" || Ascii.eqb c "_".

Definition iconIdToComponentName (iconId : string) : string :=
  match split_on (Ascii.eqb ":") iconId !! 1 with
  | Some (String c s) =>
      let name := String c s in
      let pascalCase := join (capitalize <$> split_on is_dash_or_underscore name) in
      pascalCase +:+ "Icon"
  | _ => "Icon"
  end.

(** [/<\?xml[^>]*\?>/g] *)
Definition xmlDeclaration : regex :=
  Seq (Lit "<?xml") (Seq (Star true IconUtils.not_gt) (Lit "?>")).

Definition generateReactComponent (name svg iconId : string) : string :=
  let reactSvg :=
    replace_all (Lit "stroke-linejoin=") "strokeLinejoin="
   (replace_all (Lit "stroke-linecap=") "strokeLinecap="
   (replace_all (Lit "stroke-width=") "strokeWidth="
   (replace_all (Lit "fill-rule=") "fillRule="
   (replace_all (Lit "clip-path=") "clipPath="
   (replace_all (Lit "class=") "className=" svg))))) in
  "// " +:+ iconId +:+ NL +:+
  "export const " +:+ name +:+ " = (props: React.SVGProps<SVGSVGElement>) => (" +:+ NL +:+
  "  " +:+ replace_first "<svg" "<svg {...props}" reactSvg +:+ NL +:+
  ");".

Definition escapeBackticks (svg : string) : string :=
  replace_all (Chr "`") "\`" svg.

Definition generateVueComponent (name svg iconId : string) : string :=
  let escapedSvg :=
    replace_first "<svg" ("<svg v-bind=" +:+ DQ +:+ "$attrs" +:+ DQ)
      (escapeBackticks svg) in
  "// " +:+ iconId +:+ NL +:+
  "export const " +:+ name +:+ " = {" +:+ NL +:+
  "  name: " +:+ DQ +:+ name +:+ DQ +:+ "," +:+ NL +:+
  "  inheritAttrs: false," +:+ NL +:+
  "  template: `" +:+ escapedSvg +:+ "`," +:+ NL +:+
  "};".

Definition generateSvelteComponent (name svg iconId : string) : string :=
  let escapedSvg := escapeBackticks svg in
  "// " +:+ iconId +:+ NL +:+
  "// Use with: {@html " +:+ name +:+ "} or {@html " +:+ name
    +:+ "WithClass(" +:+ DQ +:+ "my-class" +:+ DQ +:+ ")}" +:+ NL +:+
  "export const " +:+ name +:+ " = `" +:+ escapedSvg +:+ "`;" +:+ NL +:+
  "export const " +:+ name +:+ "WithClass = (className: string) => `"
    +:+ replace_first "<svg" ("<svg class=" +:+ DQ +:+ "${className}" +:+ DQ) escapedSvg
    +:+ "`;".

Definition generateSolidComponent (name svg iconId : string) : string :=
  "// " +:+ iconId +:+ NL +:+
  "export const " +:+ name +:+ " = (props: JSX.IntrinsicElements["
    +:+ DQ +:+ "svg" +:+ DQ +:+ "]) => (" +:+ NL +:+
  "  " +:+ replace_first "<svg" "<svg {...props}" svg +:+ NL +:+
  ");".

Definition generateSvgExport (name svg iconId : string) : string :=
  "// " +:+ iconId +:+ NL +:+
  "export const " +:+ name +:+ " = `" +:+ svg +:+ "`;".

(** [svg.replace(/<\?xml[^>]*\?>/g, "").trim()] *)
Definition cleanSvg (svg : string) : string :=
  trim (replace_all xmlDeclaration "" svg).

Definition generateIconComponent (componentName svg iconId : string)
  (framework : IconFramework) : string :=
  let cleanSvg := cleanSvg svg in
  match framework with
  | react => generateReactComponent componentName cleanSvg iconId
  | vue => generateVueComponent componentName cleanSvg iconId
  | svelte => generateSvelteComponent componentName cleanSvg iconId
  | solid => generateSolidComponent componentName cleanSvg iconId
  | svg => generateSvgExport componentName cleanSvg iconId
  end.

(** *** Parsing an existing icons file *)

Definition ws : regex := Cls is_space.                                (* \s *)
Definition not_lf : regex := NotCls (Ascii.eqb LF).                   (* [^\n] *)
Definition prefix_char (c : ascii) : bool :=                          (* [\w-] *)
  is_word c || Ascii.eqb c "-".
Definition name_char (c : ascii) : bool :=                            (* [\w\d.-] *)
  is_word c || is_digit c || Ascii.eqb c "." || Ascii.eqb c "-".

(** [([\w-]+:[\w\d.-]+)] *)
Definition iconIdGroup : regex :=
  Group 1 (Seq (Plus (Cls prefix_char)) (Seq (Chr ":") (Plus (Cls name_char)))).

(** [export\s+(?:const|function)\s+(\w+)], with the number of its group *)
Definition exportDeclaration (i : nat) : regex :=
  Seq (Lit "export")
 (Seq (Plus ws)
 (Seq (Alt (Lit "const") (Lit "function"))
 (Seq (Plus ws)
      (Group i (Plus (Cls is_word)))))).

(** [/\/\/\s*([\w-]+:[\w\d.-]+)\s*\n\s*(?:\/\/[^\n]*\n\s* )*export\s+(?:const|function)\s+(\w+)/g]
    (the blank in front of the second closing parenthesis is not part
    of the pattern) *)
Definition iconPattern : regex :=
  Seq (Lit "//")
 (Seq (Star true ws)
 (Seq iconIdGroup
 (Seq (Star true ws)
 (Seq (Chr LF)
 (Seq (Star true ws)
 (Seq (Star true (Seq (Lit "//") (Seq (Star true not_lf) (Seq (Chr LF) (Star true ws)))))
      (exportDeclaration 2))))))).

(** [/<!--\s*([\w-]+:[\w\d.-]+)\s*-->/g] *)
Definition vuePattern : regex :=
  Seq (Lit "<!--")
 (Seq (Star true ws)
 (Seq iconIdGroup
 (Seq (Star true ws)
      (Lit "-->")))).

(** [/export\s+(?:const|function)\s+(\w+)/] *)
Definition exportPattern : regex := exportDeclaration 1.

(** The first [while] loop of [parseExistingIcons]. *)
Definition scanIconComments (content : string) (icons : gmap string string)
  : gmap string string :=
  foldl (fun icons m =>
           let iconId := capture 1 (f_groups m) in
           let componentName := capture 2 (f_groups m) in
           match iconId, componentName with
           | Some id, Some name =>
               if truthy iconId && truthy componentName
               then <[id := name]> icons else icons
           | _, _ => icons
           end)
        icons (exec_all iconPattern content).

(** The second [while] loop: [afterComment] is [content.slice(match.index)]. *)
Definition scanVueComments (content : string) (icons : gmap string string)
  : gmap string string :=
  foldl (fun icons m =>
           match capture 1 (f_groups m) with
           | Some (String c s) =>
               let afterComment := f_text m +:+ f_after m in
               match search exportPattern afterComment with
               | Some exportMatch =>
                   match capture 1 (f_groups exportMatch) with
                   | Some (String c' s') => <[String c s := String c' s']> icons
                   | _ => icons
                   end
               | None => icons
               end
           | _ => icons
           end)
        icons (exec_all vuePattern content).

Definition parseContent (content : string) : gmap string string :=
  scanVueComments content (scanIconComments content ∅).

Local Open Scope io_scope.

Definition parseExistingIcons (filePath : string) : M (gmap string string) :=
  let* present := existsSync filePath in
  if negb present then ret ∅
  else
    try_catch
      (let* content := readFileSync filePath in
       ret (parseContent content))
      (fun _ => ret ∅).

Definition banner : string :=
  "// Auto-generated icons file - managed by better-icons" +:+ NL +:+
  "// Do not edit manually - use sync_icon to add new icons" +:+ NL.

Definition getFileHeader (framework : IconFramework) : string :=
  match framework with
  | react =>
      banner +:+ NL +:+
      "import type React from " +:+ DQ +:+ "react" +:+ DQ +:+ ";" +:+ NL +:+ NL
  | solid =>
      banner +:+ NL +:+
      "import type { JSX } from " +:+ DQ +:+ "solid-js" +:+ DQ +:+ ";" +:+ NL +:+ NL
  | vue =>
      banner +:+ NL
  | svelte =>
      banner +:+
      "// Usage: {@html IconName} or {@html IconNameWithClass("
        +:+ DQ +:+ "my-class" +:+ DQ +:+ ")}" +:+ NL +:+ NL
  | svg =>
      banner +:+ NL
  end.

Record AddResult : Type := {
  componentName : string;
  alreadyExists : bool;
  existingName : option string
}.

Definition addIconToFile `{NodePath} (filePath iconId svg : string)
  (framework : IconFramework) (customName : option string) : M AddResult :=
  let* existingIcons := parseExistingIcons filePath in
  match existingIcons !! iconId with
  | Some existing =>
      ret {| componentName := existing;
             alreadyExists := true;
             existingName := Some existing |}
  | None =>
      let componentName := or_string customName (iconIdToComponentName iconId) in
      let componentCode := generateIconComponent componentName svg iconId framework in
      let dir := dirname filePath in
      let* dir_present := existsSync dir in
      (if negb dir_present then mkdirSync dir else ret tt) ;;
      let* file_present := existsSync filePath in
      let* content :=
        (if file_present then readFileSync filePath
         else ret (getFileHeader framework)) in
      let content := trimEnd content +:+ NL +:+ NL +:+ componentCode +:+ NL in
      writeFileSync filePath content ;;
      ret {| componentName := componentName;
             alreadyExists := false;
             existingName := None |}
  end.

(** One request to [addIconToFile] for a fixed path. *)
Record Request : Type := {
  r_iconId : string;
  r_svg : string;
  r_framework : IconFramework;
  r_customName : option string
}.

(** A sequence of calls of [addIconToFile] for one path, all of which
    return: the results in order and the final file system.  [None]
    when a call throws. *)
Fixpoint addAll `{NodePath} (filePath : string) (requests : list Request) (w : fs)
  : option (list AddResult * fs) :=
  match requests with
  | [] => Some ([], w)
  | r :: rest =>
      match addIconToFile filePath (r_iconId r) (r_svg r) (r_framework r)
              (r_customName r) w with
      | (Ok res, w') =>
          match addAll filePath rest w' with
          | Some (results, w'') => Some (res :: results, w'')
          | None => None
          end
      | (Thrown _, _) => None
      end
  end.

(** The identifier comments of a managed file with the declarations
    they stand in front of: the pairs of icon identifier and component
    name of its blocks, in file order. *)
Definition blocks (content : string) : list (string * string) :=
  omap (fun m =>
          match capture 1 (f_groups m), capture 2 (f_groups m) with
          | Some id, Some name => Some (id, name)
          | _, _ => None
          end)
       (exec_all iconPattern content).

End IconsFile.

(** ** The patterns of the icons file, read deterministically

    The three patterns of [parseExistingIcons] never need to backtrack
    over a choice that matters: each quantified class is followed by a
    character outside the class.  The functions below read a string from
    left to right in the way the patterns do; Part II proves that the
    backtracking matcher computes them. *)

Module Scanner.
Import JsString Regex.

(** The string behind the longest run of characters of a class. *)
Fixpoint skip (p : ascii -> bool) (s : string) : string :=
  match s with
  | String a s' => if p a then skip p s' else s
  | EmptyString => EmptyString
  end.

(** The same for a run of at least one character. *)
Definition skip1 (p : ascii -> bool) (s : string) : option string :=
  match s with
  | String a s' => if p a then Some (skip p s') else None
  | EmptyString => None
  end.

(** A greedy run of a class followed by a continuation [k]: the longest
    run first, then shorter ones. *)
Fixpoint try_greedy (p : ascii -> bool) (k : cont) (c : captures) (s : string)
  : option (captures * string) :=
  match s with
  | String a s' =>
      if p a then
        match try_greedy p k c s' with
        | Some x => Some x
        | None => k s c
        end
      else k s c
  | EmptyString => k s c
  end.

(** The loop of a quantifier [r*] / [r*?], as [rmatch] runs it. *)
Section StarIter.
Variable body : string -> captures -> cont -> option (captures * string).
Variable greedy : bool.
Variable k : cont.

Fixpoint star_iter (fuel : nat) (s : string) (c : captures) {struct fuel}
  : option (captures * string) :=
  match fuel with
  | 0 => k s c
  | S fuel' =>
      let again s' c' :=
        if String.length s' <? String.length s
        then star_iter fuel' s' c' else None in
      if greedy then
        match body s c again with
        | Some x => Some x
        | None => k s c
        end
      else
        match k s c with
        | Some x => Some x
        | None => body s c again
        end
  end.
End StarIter.

(** A continuation that fails whenever the string starts with a
    character of the class [p]. *)
Definition fails_on (p : ascii -> bool) (k : cont) : Prop :=
  forall a s c, p a = true -> k (String a s) c = None.

(** Every match of [r] starts with a character outside [p]. *)
Fixpoint starts_outside (p : ascii -> bool) (r : regex) : Prop :=
  match r with
  | Chr a => p a = false
  | Cls q => forall a, q a = true -> p a = false
  | Seq r1 _ => starts_outside p r1
  | Alt r1 r2 => starts_outside p r1 /\ starts_outside p r2
  | Group _ r1 => starts_outside p r1
  | Eps | Star _ _ | NotAhead _ => False
  end.

(** The white space at the start of [s] holds a line feed. *)
Fixpoint has_lf (s : string) : bool :=
  match s with
  | String a s' => is_space a && (Ascii.eqb a LF || has_lf s')
  | EmptyString => false
  end.

(** [(?:\/\/[^\n]*\n\s* )*]: the string behind the comment lines at the
    start of [s]; [None] when a comment line is not ended by a line feed. *)
Inductive comment_state : Type := AtStart | InComment | AfterLF.

Fixpoint after_comments (st : comment_state) (s : string) : option string :=
  match st, s with
  | AtStart, String "/" (String "/" s') => after_comments InComment s'
  | AtStart, _ => Some s
  | InComment, String a s' =>
      if Ascii.eqb a LF then after_comments AfterLF s'
      else after_comments InComment s'
  | InComment, EmptyString => None
  | AfterLF, String a s' =>
      if is_space a then after_comments AfterLF s'
      else match s with
           | String "/" (String "/" s'') => after_comments InComment s''
           | _ => Some s
           end
  | AfterLF, EmptyString => Some EmptyString
  end.

(** [\/\/[^\n]*\n\s*] *)
Definition commentLine : regex :=
  Seq (Lit "//") (Seq (Star true IconsFile.not_lf) (Seq (Chr LF) (Star true IconsFile.ws))).

(** What follows the identifier in [iconPattern]. *)
Definition afterIconId : regex :=
  Seq (Star true IconsFile.ws)
 (Seq (Chr LF)
 (Seq (Star true IconsFile.ws)
 (Seq (Star true commentLine)
      (IconsFile.exportDeclaration 2)))).

(** [export\s+(?:const|function)\s+(\w+)] at the start of [s]: the name
    and the string behind it. *)
Definition export_at (s : string) : option (string * string) :=
  s1 ← strip_prefix "export" s;
  s2 ← skip1 is_space s1;
  s3 ← match strip_prefix "const" s2 with
       | Some t => Some t
       | None => strip_prefix "function" s2
       end;
  s4 ← skip1 is_space s3;
  s5 ← skip1 is_word s4;
  Some (consumed s4 s5, s5).

(** [iconPattern] at the start of [s]: the captures and the string
    behind the match. *)
Definition icon_at (s : string) : option (captures * string) :=
  s1 ← strip_prefix "//" s;
  let s2 := skip is_space s1 in
  s3 ← skip1 IconsFile.prefix_char s2;
  s4 ← strip_prefix ":" s3;
  s5 ← skip1 IconsFile.name_char s4;
  if has_lf s5 then
    s6 ← after_comments AtStart (skip is_space s5);
    '(name, rest) ← export_at s6;
    Some ([(2, name); (1, consumed s2 s5)], rest)
  else None.

(** The characters that [iconPattern] can read between the two slashes
    and the end of the white space behind the identifier. *)
Definition id_or_space (c : ascii) : bool :=
  is_space c || IconsFile.prefix_char c || IconsFile.name_char c || Ascii.eqb c ":".

(** A string [d] in front of which no match of [iconPattern] can end
    its identifier part: [d] starts with a character that the pattern
    cannot read there, or with a line feed followed by such a character. *)
Definition blocks_id (c : ascii) : bool :=
  negb (id_or_space c) && negb (Ascii.eqb c "/").

Definition guards (d : string) : bool :=
  match d with
  | EmptyString => true
  | String c d' =>
      if Ascii.eqb c LF then
        match d' with
        | EmptyString => true
        | String c' _ => blocks_id c'
        end
      else blocks_id c
  end.

(** No match of [r] starts inside [x] when [x] is followed by [d]. *)
Fixpoint quiet (r : regex) (x d : string) : Prop :=
  match x with
  | EmptyString => True
  | String _ x' => match_here r (x +:+ d) = None /\ quiet r x' d
  end.

(** The longest run of characters of a class at the start of [s]. *)
Fixpoint run (p : ascii -> bool) (s : string) : string :=
  match s with
  | String a s' => if p a then String a (run p s') else EmptyString
  | EmptyString => EmptyString
  end.

(** [b] does not start with a character of the class [p]. *)
Definition stops (p : ascii -> bool) (b : string) : Prop :=
  match b with
  | String c _ => p c = false
  | EmptyString => True
  end.

Definition not_slash (c : ascii) : bool := negb (Ascii.eqb c "/").

(** What a match of [iconPattern] reads behind its two slashes: white
    space, an identifier, white space with a line feed in it, and then
    a slash or the [e] of [export]. *)
Definition starts_declaration (s : string) : Prop :=
  match s with
  | String c _ => c = "/"%char \/ c = "e"%char
  | EmptyString => False
  end.

Definition not_lf_char (c : ascii) : bool := negb (Ascii.eqb c LF).

Definition not_dollar (c : ascii) : bool := negb (Ascii.eqb c "$").

Definition not_bang (c : ascii) : bool := negb (Ascii.eqb c "!").

(** A text that [trimEnd] leaves as it is, and that is not empty. *)
Definition kept (b : string) : Prop := trimEnd b = b /\ b <> EmptyString.

(** What follows the component name in a block. *)
Record tail_ok (tail : string) : Prop := {
  tail_space : exists t, tail = String " " t;
  tail_quiet : forall d, quiet IconsFile.iconPattern tail d;
  tail_no_bang : forall_chars not_bang tail = true;
  tail_kept : kept tail
}.

End Scanner.

(** ** Vocabulary of the statements *)

(** ** The tag pattern of the fill injection, read deterministically

    A match of [tagRegex] is found by three scans from left to right:
    the element name, the look-ahead for [fill=] or [stroke=] in front
    of the next [>], and the shortest run up to [>] or [/>]. *)

Module TagReader.
Import JsString Regex.

Definition starts_with (p s : string) : bool :=
  match strip_prefix p s with
  | Some _ => true
  | None => false
  end.

(** [fill=] or [stroke=] starts in front of the next [>]. *)
Fixpoint declares_paint (s : string) : bool :=
  starts_with "fill=" s || starts_with "stroke=" s
  || match s with
     | String a s' => negb (Ascii.eqb ">" a) && declares_paint s'
     | EmptyString => false
     end.

(** The shortest run in front of [/>] or [>]: the run, the slash if
    there is one, and the text behind the [>]. *)
Fixpoint close_at (s : string) : option (string * string * string) :=
  match strip_prefix "/>" s with
  | Some rest => Some (EmptyString, "/", rest)
  | None =>
      match strip_prefix ">" s with
      | Some rest => Some (EmptyString, EmptyString, rest)
      | None =>
          match s with
          | String a s' =>
              match close_at s' with
              | Some (run, slash, rest) => Some (String a run, slash, rest)
              | None => None
              end
          | EmptyString => None
          end
      end
  end.

(** A lazy run of a class followed by a continuation [k]: the shortest
    run first, then longer ones. *)
Fixpoint try_lazy (p : ascii -> bool) (k : cont) (c : captures) (s : string)
  : option (captures * string) :=
  match k s c with
  | Some x => Some x
  | None =>
      match s with
      | String a s' => if p a then try_lazy p k c s' else None
      | EmptyString => None
      end
  end.

(** The match of [tagRegex element] at the start of [s]. *)
Definition tag_at (element s : string) : option (captures * string) :=
  match strip_prefix ("<" +:+ element) s with
  | Some s1 =>
      if declares_paint s1 then None
      else match close_at s1 with
           | Some (run, slash, rest) => Some ([(2, slash); (1, run)], rest)
           | None => None
           end
  | None => None
  end.

End TagReader.

Module Spec.
Import JsString Regex Js.

(** One hop along the alias chain: the parent of [name], or [name]
    itself when the entry names no parent or there is no entry. *)
Definition follow (iconSet : IconUtils.IconSet) (name : string) : string :=
  match IconUtils.alias_of iconSet name with
  | Some a => default name (IconUtils.parent a)
  | None => name
  end.

(** An icon set whose only content is its aliases, each with a parent. *)
Definition aliasSet (pairs : list (string * string)) : IconUtils.IconSet :=
  {| IconUtils.icons := None;
     IconUtils.aliases :=
       Some (list_to_map (prod_map id (fun p => IconUtils.Build_Alias (Some p)) <$> pairs));
     IconUtils.set_width := None;
     IconUtils.set_height := None |}.

(** *** The preference store *)


#[global] Instance path_eq_dec : EqDecision Memory.path.
Proof. solve_decision. Defined.
#[global] Instance event_eq_dec : EqDecision Memory.event.
Proof. solve_decision. Defined.

(** The number of read-modify-write cycles begun in a stretch of the
    trace: each begins with the [existsSync] of [loadPreferences]. *)
Definition cycles (events : list Memory.event) : nat :=
  length (filter (fun e => e = Memory.EExists Memory.PrefsFile) events).

(** A failed attempt of [trackUsage], and the world it leaves. *)
Definition attempt_fails (prefix : string) (iconId : option string)
  (w : Memory.world) : option Memory.world :=
  match Memory.trackUsage_attempt prefix iconId w with
  | (Thrown _, w') => Some w'
  | (Ok _, _) => None
  end.

(** The data that [loadPreferences] returns in a world. *)
Definition loaded (w : Memory.world) : Memory.Preferences :=
  match Memory.loadPreferences w with
  | (Ok o, w') => Memory.data_of o w'
  | (Thrown _, _) => {| Memory.collections := ∅; Memory.history := [] |}
  end.

(** The data of the document in the preferences file. *)
Definition saved (w : Memory.world) : option Memory.Preferences :=
  match Memory.prefs_file w with
  | Some (Memory.Document (Some cs) (Some h)) =>
      Some {| Memory.collections := cs; Memory.history := h |}
  | _ => None
  end.

(** What one attempt writes: the loaded preferences with the usage of
    [prefix] (and of [id]) recorded at time [now]. *)
Definition recorded (prefix : string) (id : option string) (now : string)
  (p : Memory.Preferences) : Memory.Preferences :=
  {| Memory.collections :=
       <[prefix := {| Memory.count := (or_Z (Memory.count <$> Memory.collections p !! prefix) 0 + 1)%Z;
                      Memory.lastUsed := now |}]> (Memory.collections p);
     Memory.history :=
       match id with
       | Some (String c s) => Memory.recordHistory (String c s) now (Memory.history p)
       | _ => Memory.history p
       end |}.



(** A world without faults, started on an empty home directory. *)
Definition quiet_world : Memory.world :=
  Memory.World false None None ∅ (fun _ => Memory.NoFault) 0
               (fun n => "2024-01-01T00:00:0" +:+ show_Z (Z.of_nat n) +:+ "Z") 0 [].


(** *** Markup *)

(** Quote marks: [quoted] turns each apostrophe into a double quote, so
that markup with attributes can be written as one literal. *)
Definition quoted (s : string) : string :=
  map_chars (fun c => if Ascii.eqb c "'" then "034"%char else c) s.

(** A gradient icon: the [path] is filled already, and [linearGradient]
and [stop] are not among the shape elements. *)
Definition gradientBody : string :=
  quoted "<defs><linearGradient id='g'><stop offset='0'/></linearGradient></defs><path fill='url(#g)' d='M0 0h24v24H0z'/>".

(** The markup is an [svg] element: once the XML declaration and the
white space around it are removed, it starts with the [svg] tag. *)
Definition root_is_svg (markup : string) : Prop :=
  exists rest, IconsFile.cleanSvg markup = "<svg" +:+ rest.

(** A global replacement whose pattern cannot start inside ["<svg"]
leaves that prefix alone. *)
Definition keeps_root (f : string -> string) : Prop :=
  forall rest, exists rest', f ("<svg" +:+ rest) = "<svg" +:+ rest'.

(** The generated code holds a spread-props point in an [svg] tag. *)
Definition has_spread_point (code : string) : bool :=
  includes "<svg {...props}" code
  || includes ("<svg v-bind=" +:+ DQ +:+ "$attrs" +:+ DQ) code.

(** The generated code starts with the comment line of [iconId]. *)
Definition starts_with_id_comment (iconId code : string) : Prop :=
  exists declaration, code = "// " +:+ iconId +:+ NL +:+ declaration.


(** A plain icon as [buildSvg] returns it. *)
Definition homeSvg : string :=
  quoted "<svg xmlns='http://www.w3.org/2000/svg' width='1em' height='1em' viewBox='0 0 24 24'><path fill='currentColor' d='M10 20v-6h4v6h5v-8h3L12 3L2 12h3v8z'/></svg>".


(** *** The managed icons file *)

(** An icon identifier that the identifier comment pattern reads back
as a whole: [[\w-]+:[\w\d.-]+]. *)
Definition is_icon_id (id : string) : bool :=
  match Scanner.skip1 IconsFile.prefix_char id with
  | Some (String ":" name) =>
      match Scanner.skip1 IconsFile.name_char name with
      | Some EmptyString => true
      | _ => false
      end
  | _ => false
  end.

(** A component name that the pattern reads back as a whole: [\w+]. *)
Definition is_identifier (name : string) : bool :=
  match name with
  | EmptyString => false
  | String _ _ => forall_chars is_word name
  end.

(** Markup on one line and without an exclamation mark (so without
comments and document type declarations). *)
Definition plain_char (c : ascii) : bool :=
  negb (Ascii.eqb c LF) && negb (Ascii.eqb c "!").

Definition plain (markup : string) : bool := forall_chars plain_char markup.

(** The component name that [addIconToFile] uses for a request. *)
Definition nameOf (r : IconsFile.Request) : string :=
  or_string (IconsFile.r_customName r)
    (IconsFile.iconIdToComponentName (IconsFile.r_iconId r)).

Definition well_formed (r : IconsFile.Request) : bool :=
  is_icon_id (IconsFile.r_iconId r)
  && is_identifier (nameOf r)
  && plain (IconsFile.r_svg r).

(** The block that [addIconToFile] appends for a request. *)
Definition block (r : IconsFile.Request) : string :=
  IconsFile.generateIconComponent (nameOf r) (IconsFile.r_svg r)
    (IconsFile.r_iconId r) (IconsFile.r_framework r).

(** The start of the block of a request, up to the component name: the
identifier comment, for [svelte] the usage comment, and the start of
the declaration. *)
Definition usageComment (name : string) : string :=
  "// Use with: {@html " +:+ name +:+ "} or {@html " +:+ name
    +:+ "WithClass(" +:+ DQ +:+ "my-class" +:+ DQ +:+ ")}" +:+ NL.

Definition lead (r : IconsFile.Request) : string :=
  "// " +:+ IconsFile.r_iconId r +:+ NL +:+
  match IconsFile.r_framework r with
  | Memory.svelte => usageComment (nameOf r)
  | _ => EmptyString
  end +:+
  "export const " +:+ nameOf r.

(** The blocks of a managed file, each behind one blank line. *)
Fixpoint body (rs : list IconsFile.Request) : string :=
  match rs with
  | [] => EmptyString
  | r :: rs' => NL +:+ NL +:+ block r +:+ body rs'
  end.

(** A managed file: the header of the first flavor and the blocks. *)
Definition render (framework : Memory.IconFramework) (rs : list IconsFile.Request)
  : string :=
  trimEnd (IconsFile.getFileHeader framework) +:+ body rs +:+ NL.

(** The identifier and the name of a request, as a block carries them. *)
Definition entry (r : IconsFile.Request) : string * string :=
  (IconsFile.r_iconId r, nameOf r).

(** The captures of the match of [iconPattern] at the block of a request. *)
Definition groups_of (r : IconsFile.Request) : captures :=
  [(2, nameOf r); (1, IconsFile.r_iconId r)].

(** The mapping that the blocks of the requests [rs] add to [icons]. *)
Definition index (rs : list IconsFile.Request) (icons : gmap string string)
  : gmap string string :=
  foldl (fun icons r => <[IconsFile.r_iconId r := nameOf r]> icons) icons rs.

(** The file at [path] holds the blocks of the requests [rs], behind the
header of some flavor; no file for no requests.  The requests are
well-formed and their identifiers differ. *)
Definition stores (path : string) (w : IconsFile.fs) (rs : list IconsFile.Request)
  : Prop :=
  match rs with
  | [] => w !! path = None
  | _ => exists framework, w !! path = Some (IconsFile.File (render framework rs))
  end
  /\ Forall (fun r => well_formed r = true) rs
  /\ NoDup (IconsFile.r_iconId <$> rs).

(** The file at [path] is absent or a managed file. *)
Definition managed (path : string) (w : IconsFile.fs) : Prop :=
  exists rs, stores path w rs.

(** The icons that [parseExistingIcons] reads at a path. *)
Definition iconsAt (path : string) (w : IconsFile.fs) : gmap string string :=
  match w !! path with
  | Some (IconsFile.File content) => IconsFile.parseContent content
  | _ => ∅
  end.

(** The identifier and the returned name of every request of a run that
was answered with [alreadyExists = false], in the order of the calls. *)
Definition appended (requests : list IconsFile.Request)
  (results : list IconsFile.AddResult) : list (string * string) :=
  omap (fun '(r, res) =>
          if IconsFile.alreadyExists res then None
          else Some (IconsFile.r_iconId r, IconsFile.componentName res))
       (zip requests results).

(** [dirname] for the examples: everything in front of the last slash. *)
Fixpoint dirname_go (s : string) : option string :=
  match s with
  | EmptyString => None
  | String c s' =>
      match dirname_go s' with
      | Some d => Some (String c d)
      | None => if Ascii.eqb c "/" then Some EmptyString else None
      end
  end.

#[global] Instance posixPath : IconsFile.NodePath :=
  {| IconsFile.dirname := fun p => default "." (dirname_go p) |}.

(** A project with a source directory and no icons file yet. *)
Definition iconsPath : string := "src/icons.tsx".

Definition project : IconsFile.fs := {[ "src" := IconsFile.Directory ]}.

(** The request for the home icon under the identifier [iconId]. *)
Definition request (iconId : string) : IconsFile.Request :=
  {| IconsFile.r_iconId := iconId;
     IconsFile.r_svg := homeSvg;
     IconsFile.r_framework := Memory.react;
     IconsFile.r_customName := None |}.

(** The project once the icons file holds the blocks of [rs]. *)
Definition synced (rs : list IconsFile.Request) : IconsFile.fs :=
  <[iconsPath := IconsFile.File (render Memory.react rs)]> project.

(** The requests of a run that were answered with
[alreadyExists = false], in the order of the calls. *)
Definition fresh_requests (requests : list IconsFile.Request)
  (results : list IconsFile.AddResult) : list IconsFile.Request :=
  omap (fun '(r, res) => if IconsFile.alreadyExists res then None else Some r)
       (zip requests results).

(** A backslash in front of every backtick. *)
Fixpoint escape_each (s : string) : string :=
  match s with
  | EmptyString => EmptyString
  | String c s' =>
      if Ascii.eqb "`" c then String "\" (String "`" (escape_each s'))
      else String c (escape_each s')
  end.

(** *** Tokenised markup

Markup as a sequence of texts and tags; a tag is written without its
angle brackets, so [Tag "path d='X'/"] stands for the tag of a path and
[Tag "/g"] for the end of a group. *)
Inductive item : Type :=
| Text (t : string)
| Tag (inner : string).

Definition item_text (i : item) : string :=
  match i with
  | Text t => t
  | Tag inner => "<" +:+ inner +:+ ">"
  end.

Definition markup (items : list item) : string := join (item_text <$> items).

Definition no_lt (c : ascii) : bool := negb (Ascii.eqb "<" c).

Definition no_gt_char (c : ascii) : bool := negb (Ascii.eqb ">" c).

Definition no_angle (c : ascii) : bool :=
  negb (Ascii.eqb "<" c) && negb (Ascii.eqb ">" c).

(** A text holds no [<]; a tag holds neither [<] nor [>] between its
angle brackets. *)
Definition tokenised (i : item) : bool :=
  match i with
  | Text t => forall_chars no_lt t
  | Tag inner => forall_chars no_angle inner
  end.

(** A color that can stand in an attribute value and in a replacement
string as it is: no angle bracket and no dollar sign. *)
Definition plain_color (color : string) : bool :=
  forall_chars (fun c => no_angle c && Scanner.not_dollar c) color.

Definition contains_paint (attributes : string) : bool :=
  includes "fill=" attributes || includes "stroke=" attributes.

(** The first of the [names] that the text of a tag starts with, and
what follows it. *)
Fixpoint shape_among (names : list string) (inner : string)
  : option (string * string) :=
  match names with
  | [] => None
  | element :: names' =>
      match strip_prefix element inner with
      | Some rest => Some (element, rest)
      | None => shape_among names' inner
      end
  end.

(** The fill attribute right behind the name of a tag that starts with
the name of a shape element and holds neither [fill=] nor [stroke=]. *)
Definition fill_tag (color inner : string) : string :=
  match shape_among IconUtils.SVG_SHAPE_ELEMENTS inner with
  | Some (element, rest) =>
      if contains_paint rest then inner
      else element +:+ " fill=" +:+ DQ +:+ color +:+ DQ +:+ rest
  | None => inner
  end.

Definition fill_item (color : string) (i : item) : item :=
  match i with
  | Text t => Text t
  | Tag inner => Tag (fill_tag color inner)
  end.

(** The same for one element name: one pass of [applyFillToBody]. *)
Definition fill_tag_for (element color inner : string) : string :=
  match strip_prefix element inner with
  | Some rest =>
      if contains_paint rest then inner
      else element +:+ " fill=" +:+ DQ +:+ color +:+ DQ +:+ rest
  | None => inner
  end.

Definition fill_item_for (element color : string) (i : item) : item :=
  match i with
  | Text t => Text t
  | Tag inner => Tag (fill_tag_for element color inner)
  end.

(** *** Characters of identifiers *)

Definition not_colon (c : ascii) : bool := negb (Ascii.eqb ":" c).

Definition not_dot (c : ascii) : bool := negb (Ascii.eqb c ".").

(** *** Orders *)

(** Earlier elements of [l] are related to later ones. *)
Definition ordered {A} (R : A -> A -> Prop) (l : list A) : Prop :=
  forall i j a b, i < j -> l !! i = Some a -> l !! j = Some b -> R a b.

(** [l'] is [l] sorted by [key], elements of equal key in the order
they have in [l]. *)
Definition stably_sorted {A} (key : A -> Z) (l l' : list A) : Prop :=
  ordered (fun a b => (key a <= key b)%Z) l'
  /\ forall k, filter (fun a => key a = k) l' = filter (fun a => key a = k) l.

(** The place of an icon in a list of preferred prefixes: the index of
its prefix, or the length of the list when the prefix is not in it. *)
Definition rank (preferred : list string) (icon : string) : Z :=
  let i := indexOf (IconUtils.getIconPrefix icon) preferred in
  if (i <? 0)%Z then Z.of_nat (length preferred) else i.

(** The prefixes that [sortByPreferredCollections] prefers for a style. *)
Definition stylePreferred (style : IconUtils.Style) : list string :=
  match style with
  | IconUtils.Solid => ["mdi"; "fa-solid"]
  | IconUtils.Outline => ["lucide"; "tabler"; "ph"]
  | IconUtils.Any => ["lucide"; "mdi"; "heroicons"]
  end.

(** The recorded count of a prefix, 0 when there is none. *)
Definition count_of (m : gmap string Memory.CollectionUsage) (prefix : string) : Z :=
  default 0%Z (Memory.count <$> m !! prefix).

(** A world in which the preferences file holds the given counts. *)
Definition counted_world (counts : list (string * Z)) : Memory.world :=
  Memory.World true
    (Some (Memory.Document
             (Some (list_to_map
                      (prod_map id (fun c => Memory.Build_CollectionUsage c "2024-01-01T00:00:00Z")
                         <$> counts)))
             (Some [])))
    None ∅ (fun _ => Memory.NoFault) 0
    (fun n => "2024-01-01T00:00:0" +:+ show_Z (Z.of_nat n) +:+ "Z") 0 [].




End Spec.

(* ================================================================== *)
(** * Part II: properties *)
(* ================================================================== *)

(** ** Alias resolution *)

Section ResolveAlias.
Import Js IconUtils Spec.

Variable iconSet : IconSet.
Variable maxDepth : nat.

Lemma alias_step_halts_at_bound current depth :
  maxDepth <= depth -> alias_step iconSet maxDepth (current, depth) = None.
Proof.
  intros Hle. unfold alias_step.
  destruct (alias_of iconSet current); [|done].
  destruct (Nat.ltb_spec depth maxDepth); [lia|done].
Qed.

Lemma alias_step_follow current depth st :
  alias_step iconSet maxDepth (current, depth) = Some st ->
  st = (follow iconSet current, S depth) /\ depth < maxDepth.
Proof.
  unfold alias_step, follow.
  destruct (alias_of iconSet current); [|done].
  destruct (Nat.ltb_spec depth maxDepth); [|done].
  intros [= <-]. done.
Qed.

Lemma alias_step_none current depth :
  alias_step iconSet maxDepth (current, depth) = None ->
  depth < maxDepth -> alias_of iconSet current = None.
Proof.
  unfold alias_step.
  destruct (alias_of iconSet current); [|done].
  destruct (Nat.ltb_spec depth maxDepth); [done|lia].
Qed.

Lemma while_loop_halt {S} (step : S -> option S) fuel st :
  step st = None -> while_loop step fuel st = Some st.
Proof. intros H. destruct fuel; simpl; rewrite H; done. Qed.

Lemma while_loop_step {S} (step : S -> option S) fuel st st' :
  step st = Some st' -> while_loop step (Datatypes.S fuel) st = while_loop step fuel st'.
Proof. intros H. simpl. rewrite H. done. Qed.

(** The loop started at depth [depth] ends after at most
    [maxDepth - depth] further hops, whatever fuel at least that large
    it is given. *)
Lemma alias_loop_ends budget :
  forall current depth,
    maxDepth - depth <= budget ->
    exists hops,
      hops <= budget
      /\ (forall fuel, budget <= fuel ->
            while_loop (alias_step iconSet maxDepth) fuel (current, depth)
              = Some (Nat.iter hops (follow iconSet) current, depth + hops))
      /\ alias_step iconSet maxDepth
           (Nat.iter hops (follow iconSet) current, depth + hops) = None.
Proof.
  induction budget as [|budget IH]; intros current depth Hb.
  - exists 0. rewrite Nat.add_0_r.
    assert (Hstop := alias_step_halts_at_bound current depth ltac:(lia)).
    split; [done|]. split; [|done].
    intros fuel _. by apply while_loop_halt.
  - destruct (alias_step iconSet maxDepth (current, depth)) as [st|] eqn:Hstep.
    + destruct (alias_step_follow _ _ _ Hstep) as [-> Hlt].
      destruct (IH (follow iconSet current) (S depth)) as (hops & Hle & Hrun & Hend);
        [lia|].
      exists (S hops). rewrite Nat.iter_succ_r.
      replace (depth + S hops) with (S depth + hops) by lia.
      split; [lia|]. split; [|done].
      intros [|fuel] Hfuel; [lia|].
      rewrite (while_loop_step _ _ _ _ Hstep). apply Hrun. lia.
    + exists 0. rewrite Nat.add_0_r.
      split; [lia|]. split; [|done].
      intros fuel _. by apply while_loop_halt.
Qed.

End ResolveAlias.

(** C6.  For every icon set (whatever its alias mapping, cyclic or not),
    starting name and [maxDepth], the loop of [resolveIconAlias] ends
    once it is given [maxDepth] units of fuel or more, after [hops <=
    maxDepth] hops, and returns the name reached by following the chain
    [hops] times; it stops before [maxDepth] only where no alias entry is
    left; a name without an alias entry is returned unchanged.  With the
    default depth, [{a -> b, b -> c}] resolves ["a"] to ["c"]. *)
Theorem resolveIconAlias_bounded_total :
  forall (iconSet : IconUtils.IconSet) (name : string) (maxDepth : nat),
    (exists hops,
        hops <= maxDepth
        /\ (forall fuel, maxDepth <= fuel ->
              IconUtils.resolveIconAlias_run fuel iconSet name maxDepth
                = Some (Nat.iter hops (Spec.follow iconSet) name, hops))
        /\ (hops < maxDepth ->
              IconUtils.alias_of iconSet (Nat.iter hops (Spec.follow iconSet) name) = None))
    /\ (IconUtils.alias_of iconSet name = None ->
          forall fuel, IconUtils.resolveIconAlias_run fuel iconSet name maxDepth
                         = Some (name, 0))
    /\ IconUtils.resolveIconAlias_fuel 10 (Spec.aliasSet [("a", "b"); ("b", "c")]) "a" None
         = Some "c"
    /\ IconUtils.resolveIconAlias_fuel 10 (Spec.aliasSet [("a", "a")]) "a" None
         = Some "a".
Proof.
  intros iconSet name maxDepth. split; [|split; [|split]].
  - destruct (alias_loop_ends iconSet maxDepth maxDepth name 0) as (hops & Hle & Hrun & Hend);
      [lia|].
    exists hops. split; [done|]. split.
    + intros fuel Hfuel. by apply Hrun.
    + intros Hlt. simpl in Hend. eapply alias_step_none; [exact Hend|done].
  - intros Hno fuel. apply while_loop_halt.
    unfold IconUtils.alias_step. by rewrite Hno.
  - vm_compute. done.
  - vm_compute. done.
Qed.

(** ** Ranking *)

Section Ranking.
Import Js IconUtils.

Lemma insert_sorted_perm {A} (compare : A -> A -> Z) x l :
  insert_sorted compare x l ≡ₚ x :: l.
Proof.
  induction l as [|y l IH]; simpl; [done|].
  destruct (compare x y <=? 0)%Z; [done|].
  rewrite IH. apply Permutation_swap.
Qed.

Lemma sort_perm {A} (compare : A -> A -> Z) (l : list A) :
  sort compare l ≡ₚ l.
Proof.
  induction l as [|x l IH]; simpl; [done|].
  rewrite insert_sorted_perm. by rewrite IH.
Qed.

(** Copying an array leaves every allocated array as it was. *)
Lemma spread_spec (a : ref) (h : heap) l :
  h !! a = Some l ->
  exists r, spread a h = Some (r, <[r := l]> h) /\ h !! r = None.
Proof.
  intros Ha. unfold spread. rewrite Ha. simpl.
  exists (fresh (dom h)). split; [done|].
  apply not_elem_of_dom. apply is_fresh.
Qed.

(** The copy-then-sort tail shared by the two functions. *)
Lemma sorted_copy_spec compare (icons : ref) (h : heap) l :
  h !! icons = Some l ->
  exists r h',
    (spread icons h ≫= fun '(copy, h1) => sort_in_place compare copy h1) = Some (r, h')
    /\ r ≠ icons
    /\ (forall a, is_Some (h !! a) -> h' !! a = h !! a)
    /\ h' !! r = Some (sort compare l).
Proof.
  intros Hl. destruct (spread_spec icons h l Hl) as (r & -> & Hfresh).
  exists r, (<[r := sort compare l]> (<[r := l]> h)). simpl.
  unfold sort_in_place, heap, ref in *. rewrite lookup_insert_eq. simpl.
  split; [done|]. split; [congruence|]. split.
  - intros a [x Hx]. rewrite !lookup_insert_ne; congruence.
  - by rewrite lookup_insert_eq.
Qed.

End Ranking.

(** C9.  Both sort functions return an array that holds a permutation of
    the elements of [icons], and leave every array of the caller
    ([icons] among them) with the same elements in the same order. *)
Theorem sort_functions_permute_and_preserve_input :
  forall (h : IconUtils.heap) (icons : IconUtils.ref) (l : list string),
    h !! icons = Some l ->
    (forall style learnedPreferences,
        match learnedPreferences with
        | Some p => is_Some (h !! p)
        | None => True
        end ->
        exists r h' l',
          IconUtils.sortByPreferredCollections icons style learnedPreferences h = Some (r, h')
          /\ h' !! r = Some l' /\ l' ≡ₚ l
          /\ h' !! icons = Some l
          /\ forall a, is_Some (h !! a) -> h' !! a = h !! a)
    /\ (forall learnedPreferences,
          is_Some (h !! learnedPreferences) ->
          exists r h' l',
            IconUtils.sortByLearnedPreferences icons learnedPreferences h = Some (r, h')
            /\ h' !! r = Some l' /\ l' ≡ₚ l
            /\ h' !! icons = Some l
            /\ forall a, is_Some (h !! a) -> h' !! a = h !! a).
Proof.
  intros h icons l Hl. split.
  - intros style learned Hlearned.
    unfold IconUtils.sortByPreferredCollections.
    set (stylePreferred := match style with
                           | IconUtils.Solid => _ | IconUtils.Outline => _
                           | IconUtils.Any => _ end).
    assert (exists learned_list,
               match learned with Some p => h !! p | None => Some [] end
               = Some learned_list) as [ll ->].
    { destruct learned as [p|]; [destruct Hlearned as [x ->]|]; eauto. }
    simpl.
    destruct (sorted_copy_spec
                (IconUtils.byPreference (Js.dedupe (ll ++ stylePreferred))) icons h l Hl)
      as (r & h' & -> & Hne & Hframe & Hr).
    exists r, h', (Js.sort (IconUtils.byPreference (Js.dedupe (ll ++ stylePreferred))) l).
    split; [done|]. split; [done|]. split; [apply sort_perm|].
    split; [|done]. rewrite Hframe; [done|]. by exists l.
  - intros learned [ll Hll].
    unfold IconUtils.sortByLearnedPreferences. rewrite Hll. simpl.
    destruct (length ll =? 0).
    + exists icons, h, l. done.
    + destruct (sorted_copy_spec (IconUtils.byPreference ll) icons h l Hl)
        as (r & h' & -> & Hne & Hframe & Hr).
      exists r, h', (Js.sort (IconUtils.byPreference ll) l).
      split; [done|]. split; [done|]. split; [apply sort_perm|].
      split; [|done]. rewrite Hframe; [done|]. by exists l.
Qed.

Lemma sort_functions_permute_and_preserve_input_witness :
  let h : IconUtils.heap := <[1 := ["lucide"]]> {[ 0 := ["mdi:a"; "lucide:b"] ]} in
  h !! 0 = Some ["mdi:a"; "lucide:b"]
  /\ exists r h' l',
      IconUtils.sortByPreferredCollections 0 IconUtils.Solid (Some 1) h = Some (r, h')
      /\ h' !! r = Some l' /\ l' ≡ₚ ["mdi:a"; "lucide:b"]
      /\ h' !! 0 = Some ["mdi:a"; "lucide:b"]
      /\ forall a, is_Some (h !! a) -> h' !! a = h !! a.
Proof.
  intros h. split; [reflexivity|].
  apply (proj1 (sort_functions_permute_and_preserve_input h 0 _ eq_refl)
           IconUtils.Solid (Some 1)).
  by eexists.
Defined.

(** ** The preference store *)

Section History.
Import Memory Spec.


Lemma recordHistory_head id now h :
  recordHistory id now h
  = {| iconId := id; timestamp := now |}
      :: take 49 (filter (fun e => iconId e ≠ id) h).
Proof. reflexivity. Qed.



Lemma recordHistory_tail_fresh id h n :
  id ∉ iconId <$> take n (filter (fun e => iconId e ≠ id) h).
Proof.
  intros Hin. apply list_elem_of_fmap in Hin as (e & -> & He).
  apply elem_of_take in He as (i & He & _).
  apply list_elem_of_lookup_2 in He.
  apply list_elem_of_filter in He as [Hne _]. done.
Qed.


End History.

Section PreferenceIO.
Import Js Memory Spec.

Ltac run_io :=
  unfold loadPreferences, savePreferences, parse,
    get_property, set_property, existsSync, mkdirSync, readFileSync, writeFileSync,
    renameSync, now, console_error, next_fault, bind, try_catch, ret, throw,
    set_file, file_at, log, set_calls, set_ticks, set_prefs_file, set_temp_file,
    set_dir_present, set_default_collections, data_of, deref, stringify,
    DEFAULT_PREFERENCES, persisted_history in *;
  simpl in *.

(** Name the events that a concrete trace adds in front of [tr]. *)
Ltac new_events :=
  let close := (split; [reflexivity|]) in
  first [ exists []; close | eexists [_]; close | eexists [_; _]; close
        | eexists [_; _; _]; close | eexists [_; _; _; _]; close
        | eexists [_; _; _; _; _]; close | eexists [_; _; _; _; _; _]; close
        | eexists [_; _; _; _; _; _; _]; close ].

Lemma loadPreferences_spec w :
  exists o w' new,
    loadPreferences w = (Ok o, w')
    /\ prefs_file w' = prefs_file w
    /\ default_collections w' = default_collections w
    /\ ticks w' = ticks w /\ clock w' = clock w
    /\ trace w' = new ++ trace w /\ cycles new = 1
    /\ (o_history o = persisted_history w \/ o_history o = []).
Proof.
  destruct w as [d pf tf dc f c cl t tr]. run_io.
  destruct pf as [[|cs h]|]; simpl.
  all: try destruct (f c); simpl.
  all: eexists _, _, _; split; [reflexivity|]; simpl.
  all: repeat split; try reflexivity.
  all: try (instantiate (1 := [_; _]); reflexivity).
  all: try (instantiate (1 := [_]); reflexivity).
  all: try reflexivity.
  all: auto.
  all: destruct h; auto.
Qed.

Lemma savePreferences_spec prefs w r w' :
  savePreferences prefs w = (r, w') ->
  default_collections w' = default_collections w
  /\ ticks w' = ticks w /\ clock w' = clock w
  /\ exists new,
      trace w' = new ++ trace w /\ cycles new = 0
      /\ match r with
         | Ok _ => prefs_file w' = Some (stringify (data_of prefs w))
                   /\ head new = Some ERename
         | Thrown _ => 
             (prefs_file w' = prefs_file w
             \/ prefs_file w' = Some Unparsable
             \/ prefs_file w' = Some (stringify (data_of prefs w)))
             /\ head new <> Some ERename
         end.
Proof.
  destruct w as [d pf tf dc f c cl t tr]. run_io. intros Hrun.
  repeat (case_match; simplify_eq/=).
  all: simplify_eq/=.
  all: split; [reflexivity|]; split; [reflexivity|]; split; [reflexivity|].
  all: new_events.
  all: split; [reflexivity|].
  all: try (split; reflexivity). 
  all: split; [auto|discriminate].
Qed.

Lemma cycles_app a b : cycles (a ++ b) = cycles a + cycles b.
Proof. unfold cycles. by rewrite filter_app, length_app. Qed.

Lemma cycles_cons e l :
  cycles (e :: l) = (if decide (e = EExists PrefsFile) then 1 else 0) + cycles l.
Proof. unfold cycles. rewrite filter_cons. by case_decide. Qed.

Lemma attempt_spec prefix id w r w' :
  trackUsage_attempt prefix id w = (r, w') ->
  exists o w1,
    loadPreferences w = (Ok o, w1)
    /\ exists new,
        trace w' = new ++ trace w /\ cycles new = 1
        /\ let doc := stringify (recorded prefix id (clock w (ticks w)) (data_of o w1)) in
           match r with
           | Ok f => f = Return /\ prefs_file w' = Some doc /\ head new = Some ERename
           | Thrown _ =>
               (prefs_file w' = prefs_file w
                \/ prefs_file w' = Some Unparsable
                \/ prefs_file w' = Some doc)
               /\ head new <> Some ERename
           end.
Proof.
  destruct (loadPreferences_spec w)
    as (o & w1 & new1 & Hload & Hpf & Hdc & Hticks & Hclock & Htrace & Hcycles & Hhist).
  unfold trackUsage_attempt. unfold bind at 1. rewrite Hload.
  intros Hrun. exists o, w1. split; [done|].
  unfold bind at 1 in Hrun. unfold get_property at 1 in Hrun.
  unfold bind at 1 in Hrun. unfold now at 1 in Hrun.
  unfold bind at 1 in Hrun.
  destruct (set_property (o_collections o) prefix _ _) as [rs w2] eqn:Hset in Hrun.
  assert (exists ref,
             rs = Ok ref
             /\ deref ref w2
                = <[prefix := {| count := (or_Z (count <$> deref (o_collections o) w1
                                                   !! prefix) 0 + 1)%Z;
                                 lastUsed := clock w (ticks w) |}]>
                    (deref (o_collections o) w1)
             /\ prefs_file w2 = prefs_file w
             /\ trace w2 = ENow :: new1 ++ trace w) as (ref & -> & Hderef & Hpf2 & Htrace2).
  { rewrite Hclock, Hticks in Hset. unfold set_property in Hset.
    destruct (o_collections o); simplify_eq/=; eexists; (split; [done|]);
      rewrite Hpf, Htrace; done. }
  unfold bind at 1 in Hrun.
  destruct (savePreferences _ w2) as [r2 w3] eqn:Hsave in Hrun.
  apply savePreferences_spec in Hsave
    as (_ & _ & _ & new2 & Htrace3 & Hcycles2 & Hout).
  assert (w' = w3 /\ r = match r2 with Ok _ => Ok Return | Thrown e => Thrown e end)
    as [-> ->].
  { destruct r2; unfold ret in Hrun; by simplify_eq/=. }
  clear Hrun.
  exists (new2 ++ ENow :: new1). split; [|split].
  - rewrite Htrace3, Htrace2, <- app_assoc; done.
  - rewrite cycles_app, Hcycles2, cycles_cons. simpl. exact Hcycles.
  - assert (data_of {| o_collections := ref;
                       o_history := match id with
                                    | Some (String c s) =>
                                        recordHistory (String c s) (clock w1 (ticks w1))
                                          (o_history o)
                                    | _ => o_history o
                                    end |} w2
            = recorded prefix id (clock w (ticks w)) (data_of o w1)) as Hdata.
    { unfold data_of, recorded. simpl. rewrite Hderef, Hclock, Hticks. done. }
    rewrite Hdata in Hout. clear Hdata.
    assert (forall e, head new2 = Some e -> head (new2 ++ ENow :: new1) = Some e) as Hhead.
    { intros e. destruct new2; [done|]. done. }
    assert (head new2 <> Some ERename -> head (new2 ++ ENow :: new1) <> Some ERename)
      as Hhead'.
    { destruct new2; simpl; [discriminate|done]. }
    destruct r2 as [[]|e]; simpl.
    + destruct Hout as [Hfile Hh]. split; [done|]. split; [done|]. by apply Hhead.
    + destruct Hout as [Hfile Hh]. rewrite Hpf2 in Hfile. split; [done|].
      by apply Hhead'.
Qed.

Lemma attempt_returns prefix id w f w' :
  trackUsage_attempt prefix id w = (Ok f, w') -> f = Return.
Proof.
  intros Hrun.
  destruct (attempt_spec _ _ _ _ _ Hrun) as (o & w1 & _ & new & _ & _ & Hout).
  simpl in Hout. by destruct Hout as [-> _].
Qed.

(** [trackUsage] is up to three attempts; the third failure is logged. *)
Lemma trackUsage_unfold prefix id w :
  trackUsage prefix id w =
  match trackUsage_attempt prefix id w with
  | (Ok _, w1) => (Ok tt, w1)
  | (Thrown _, w1) =>
      match trackUsage_attempt prefix id w1 with
      | (Ok _, w2) => (Ok tt, w2)
      | (Thrown _, w2) =>
          match trackUsage_attempt prefix id w2 with
          | (Ok _, w3) => (Ok tt, w3)
          | (Thrown _, w3) => (Ok tt, log (EConsoleError failure_message) w3)
          end
      end
  end.
Proof.
  unfold trackUsage, maxRetries, for_range, bind, try_catch, ret, console_error.
  simpl.
  destruct (trackUsage_attempt prefix id w) as [[f1|e1] w1] eqn:H1.
  { apply attempt_returns in H1. by subst. }
  destruct (trackUsage_attempt prefix id w1) as [[f2|e2] w2] eqn:H2.
  { apply attempt_returns in H2. by subst. }
  destruct (trackUsage_attempt prefix id w2) as [[f3|e3] w3] eqn:H3.
  { apply attempt_returns in H3. by subst. }
  done.
Qed.



Lemma log_persisted_history e w :
  persisted_history (log e w) = persisted_history w.
Proof. done. Qed.


End PreferenceIO.

Section TrackUsage.
Import Js Memory Spec.



(** Every attempt ends with an event other than the failure message;
    a failed one does not end with a rename. *)
Lemma attempt_last_event prefix id w r w' :
  trackUsage_attempt prefix id w = (r, w') ->
  exists e, head (trace w') = Some e /\ e <> EConsoleError failure_message.
Proof.
  intros Hrun.
  destruct (attempt_spec _ _ _ _ _ Hrun) as (o & w1 & Hload & new & Htrace & Hcycles & _).
  destruct new as [|e new]; [done|].
  exists e. rewrite Htrace. split; [done|].
  destruct (loadPreferences_spec w) as (o' & w1' & new1 & Hload' & _).
  clear Hload'. intros ->.
  revert Hrun Htrace. clear. intros Hrun Htrace.
  (* the failure message is written by [trackUsage] only *)
  unfold trackUsage_attempt in Hrun.
  destruct w as [d pf tf dc fl cs cl t tr].
  unfold loadPreferences, savePreferences, parse,
    get_property, set_property, existsSync, mkdirSync, readFileSync, writeFileSync,
    renameSync, now, console_error, next_fault, bind, try_catch, ret, throw,
    set_file, file_at, log, set_calls, set_ticks, set_prefs_file, set_temp_file,
    set_dir_present, set_default_collections, data_of, deref, stringify,
    DEFAULT_PREFERENCES in Hrun.
  simpl in Hrun.
  repeat (case_match; simplify_eq/=).
Qed.

End TrackUsage.



(** C8.  [trackUsage] returns normally for every prefix, every optional
    identifier and every world, that is under every pattern of faults of
    the file system calls.  It begins at most 3 read-modify-write cycles.
    When three attempts in a row fail, it has logged the failure message
    and nothing else happens; the message is logged in no other case. *)
Theorem trackUsage_never_raises :
  forall (prefix : string) (iconId : option string) (w : Memory.world),
    exists w' new,
      Memory.trackUsage prefix iconId w = (Js.Ok tt, w')
      /\ Memory.trace w' = new ++ Memory.trace w
      /\ Spec.cycles new <= 3
      /\ (forall w1 w2 w3,
            Spec.attempt_fails prefix iconId w = Some w1 ->
            Spec.attempt_fails prefix iconId w1 = Some w2 ->
            Spec.attempt_fails prefix iconId w2 = Some w3 ->
            w' = Memory.log (Memory.EConsoleError Memory.failure_message) w3
            /\ Spec.cycles new = 3)
      /\ (head new = Some (Memory.EConsoleError Memory.failure_message) ->
          exists w1 w2 w3,
            Spec.attempt_fails prefix iconId w = Some w1
            /\ Spec.attempt_fails prefix iconId w1 = Some w2
            /\ Spec.attempt_fails prefix iconId w2 = Some w3).
Proof.
  intros prefix iconId w. rewrite trackUsage_unfold. unfold Spec.attempt_fails.
  destruct (Memory.trackUsage_attempt prefix iconId w) as [r1 w1] eqn:H1.
  destruct (attempt_spec _ _ _ _ _ H1) as (_ & _ & _ & new1 & Ht1 & Hc1 & _).
  destruct (attempt_last_event _ _ _ _ _ H1) as (ev1 & Hev1 & Hne1).
  destruct r1 as [f1|e1].
  { exists w1, new1. split; [done|]. split; [done|]. split; [lia|].
    split; [done|]. intros Hhead. exfalso.
    rewrite Ht1 in Hev1. destruct new1; [done|]. simpl in *. congruence. }
  destruct (Memory.trackUsage_attempt prefix iconId w1) as [r2 w2] eqn:H2.
  destruct (attempt_spec _ _ _ _ _ H2) as (_ & _ & _ & new2 & Ht2 & Hc2 & _).
  destruct (attempt_last_event _ _ _ _ _ H2) as (ev2 & Hev2 & Hne2).
  destruct r2 as [f2|e2].
  { exists w2, (new2 ++ new1). split; [done|].
    split; [by rewrite Ht2, Ht1, app_assoc|].
    split; [rewrite cycles_app; lia|].
    split; [intros ??? [= <-]; by rewrite H2|]. intros Hhead. exfalso.
    rewrite Ht2 in Hev2. destruct new2; [done|]. simpl in *. congruence. }
  destruct (Memory.trackUsage_attempt prefix iconId w2) as [r3 w3] eqn:H3.
  destruct (attempt_spec _ _ _ _ _ H3) as (_ & _ & _ & new3 & Ht3 & Hc3 & _).
  destruct (attempt_last_event _ _ _ _ _ H3) as (ev3 & Hev3 & Hne3).
  destruct r3 as [f3|e3].
  { exists w3, (new3 ++ new2 ++ new1). split; [done|].
    split; [by rewrite Ht3, Ht2, Ht1, !app_assoc|].
    split; [rewrite !cycles_app; lia|].
    split; [intros ??? [= <-]; rewrite H2; intros [= <-]; by rewrite H3|].
    intros Hhead. exfalso.
    rewrite Ht3 in Hev3. destruct new3; [done|]. simpl in *. congruence. }
  exists (Memory.log (Memory.EConsoleError Memory.failure_message) w3),
         (Memory.EConsoleError Memory.failure_message :: new3 ++ new2 ++ new1).
  split; [done|].
  split; [simpl; by rewrite Ht3, Ht2, Ht1, !app_assoc|].
  split; [rewrite cycles_cons, !cycles_app; simpl; lia|].
  split.
  - intros ??? [= <-]. rewrite H2. intros [= <-]. rewrite H3. intros [= <-].
    split; [done|]. rewrite cycles_cons, !cycles_app. simpl. lia.
  - intros _. exists w1, w2, w3. by rewrite H2, H3.
Qed.




(** ** Fill injection *)

(** C4.  The two examples of the specification hold: a [path] without [fill] and
    [stroke] receives [fill], one with [stroke] is left alone.  But the
    pattern of the element [line] also matches the start of a
    [linearGradient] tag, which is no shape element and must stay as it
    is: its name is cut in two by the inserted attribute. *)
Theorem applyFillToBody_breaks_linearGradient :
  IconUtils.applyFillToBody (Spec.quoted "<path d='X'/>") "currentColor"
  = Spec.quoted "<path fill='currentColor' d='X'/>"
  /\ IconUtils.applyFillToBody (Spec.quoted "<path stroke='red' d='X'/>") "currentColor"
     = Spec.quoted "<path stroke='red' d='X'/>"
  /\ IconUtils.applyFillToBody Spec.gradientBody "currentColor"
     = Spec.quoted "<defs><line fill='currentColor'arGradient id='g'><stop offset='0'/></linearGradient></defs><path fill='url(#g)' d='M0 0h24v24H0z'/>"
  /\ IconUtils.applyFillToBody Spec.gradientBody "currentColor" <> Spec.gradientBody
  /\ IconUtils.buildSvg
       {| IconUtils.body := Spec.gradientBody; IconUtils.width := None;
          IconUtils.height := None; IconUtils.left := None; IconUtils.top := None |}
       {| IconUtils.d_width := Some 24%Z; IconUtils.d_height := Some 24%Z |} None
     = Spec.quoted "<svg xmlns='http://www.w3.org/2000/svg' width='1em' height='1em' viewBox='0 0 24 24'><defs><line fill='currentColor'arGradient id='g'><stop offset='0'/></linearGradient></defs><path fill='url(#g)' d='M0 0h24v24H0z'/></svg>".
Proof.
  split; [vm_compute; reflexivity|].
  split; [vm_compute; reflexivity|].
  split; [vm_compute; reflexivity|].
  split; [vm_compute; discriminate|].
  vm_compute; reflexivity.
Qed.

(** ** Generated code *)

Section Generate.
Import JsString Regex Js IconsFile Spec.

Ltac expand_append := cbv [String.append]; fold String.append.

Lemma length_append a b :
  String.length (a +:+ b) = String.length a + String.length b.
Proof.
  induction a as [|c a IH]; [done|].
  change (String c a +:+ b) with (String c (a +:+ b)). simpl. by rewrite IH.
Qed.

Lemma slice_to_append a b : slice_to (String.length a) (a +:+ b) = a.
Proof.
  induction a as [|c a IH]; [by destruct b|].
  change (String c a +:+ b) with (String c (a +:+ b)). simpl. by rewrite IH.
Qed.

Lemma consumed_app a b : consumed (a +:+ b) b = a.
Proof.
  unfold consumed. rewrite length_append.
  replace (String.length a + String.length b - String.length b)
    with (String.length a) by lia.
  apply slice_to_append.
Qed.

Lemma keeps_root_compose f g :
  keeps_root f -> keeps_root g -> keeps_root (fun s => g (f s)).
Proof.
  intros Hf Hg rest. destruct (Hf rest) as [r1 ->]. apply Hg.
Qed.

Ltac solve_keeps_root :=
  intros rest; expand_append; unfold escapeBackticks, replace_all; cbn;
  eexists; reflexivity.

Lemma keeps_root_class : keeps_root (replace_all (Lit "class=") "className=").
Proof. solve_keeps_root. Qed.
Lemma keeps_root_clip_path : keeps_root (replace_all (Lit "clip-path=") "clipPath=").
Proof. solve_keeps_root. Qed.
Lemma keeps_root_fill_rule : keeps_root (replace_all (Lit "fill-rule=") "fillRule=").
Proof. solve_keeps_root. Qed.
Lemma keeps_root_stroke_width :
  keeps_root (replace_all (Lit "stroke-width=") "strokeWidth=").
Proof. solve_keeps_root. Qed.
Lemma keeps_root_stroke_linecap :
  keeps_root (replace_all (Lit "stroke-linecap=") "strokeLinecap=").
Proof. solve_keeps_root. Qed.
Lemma keeps_root_stroke_linejoin :
  keeps_root (replace_all (Lit "stroke-linejoin=") "strokeLinejoin=").
Proof. solve_keeps_root. Qed.
Lemma keeps_root_escapeBackticks : keeps_root escapeBackticks.
Proof. solve_keeps_root. Qed.

(** Replacing the first ["<svg"] of a text that starts with it. *)
Lemma replace_first_root tpl rest :
  replace_first "<svg" tpl ("<svg" +:+ rest)
  = substitution 0 (Found "" "<svg" [] rest) tpl +:+ rest.
Proof.
  unfold replace_first, search.
  assert (search_from (Lit "<svg") "" ("<svg" +:+ rest)
          = Some (Found "" (consumed ("<svg" +:+ rest) rest) [] rest)) as ->.
  { expand_append. reflexivity. }
  rewrite consumed_app. reflexivity.
Qed.

End Generate.

(** C5, as stated, fails: for the flavors [svg] and [svelte] the code
    generated for a plain [svg] element holds no spread-props point. *)
Lemma generateIconComponent_svg_flavor_has_no_spread_point :
  Spec.root_is_svg Spec.homeSvg
  /\ Spec.has_spread_point
       (IconsFile.generateIconComponent "HomeIcon" Spec.homeSvg "lucide:home" Memory.svg)
     = false
  /\ Spec.has_spread_point
       (IconsFile.generateIconComponent "HomeIcon" Spec.homeSvg "lucide:home" Memory.svelte)
     = false.
Proof.
  split; [eexists; vm_compute; reflexivity|].
  split; vm_compute; reflexivity.
Qed.

(** C5, amended.  For markup that starts with the [svg] tag once it is
    cleaned, the code generated for each flavor starts with the comment
    line of the icon identifier, and: [react] and [solid] insert
    [{...props}] and [vue] inserts [v-bind="$attrs"] right behind the
    root [<svg]; [svelte] exports the markup without an insertion and
    inserts [class="${className}"] in its [WithClass] helper only; [svg]
    exports the cleaned markup as it is. *)
Theorem generateIconComponent_root_injection :
  forall (name markup iconId rest : string),
    IconsFile.cleanSvg markup = "<svg" +:+ rest ->
    (forall framework,
        Spec.starts_with_id_comment iconId
          (IconsFile.generateIconComponent name markup iconId framework))
    /\ (exists rest',
          IconsFile.generateIconComponent name markup iconId Memory.react
          = "// " +:+ iconId +:+ NL +:+
            "export const " +:+ name
              +:+ " = (props: React.SVGProps<SVGSVGElement>) => (" +:+ NL +:+
            "  " +:+ "<svg {...props}" +:+ rest' +:+ NL +:+
            ");")
    /\ IconsFile.generateIconComponent name markup iconId Memory.solid
       = "// " +:+ iconId +:+ NL +:+
         "export const " +:+ name +:+ " = (props: JSX.IntrinsicElements["
           +:+ DQ +:+ "svg" +:+ DQ +:+ "]) => (" +:+ NL +:+
         "  " +:+ "<svg {...props}" +:+ rest +:+ NL +:+
         ");"
    /\ (exists escaped,
          IconsFile.escapeBackticks ("<svg" +:+ rest) = "<svg" +:+ escaped
          /\ IconsFile.generateIconComponent name markup iconId Memory.vue
             = "// " +:+ iconId +:+ NL +:+
               "export const " +:+ name +:+ " = {" +:+ NL +:+
               "  name: " +:+ DQ +:+ name +:+ DQ +:+ "," +:+ NL +:+
               "  inheritAttrs: false," +:+ NL +:+
               "  template: `" +:+ ("<svg v-bind=" +:+ DQ +:+ "$attrs" +:+ DQ)
                 +:+ escaped +:+ "`," +:+ NL +:+
               "};"
          /\ IconsFile.generateIconComponent name markup iconId Memory.svelte
             = "// " +:+ iconId +:+ NL +:+
               "// Use with: {@html " +:+ name +:+ "} or {@html " +:+ name
                 +:+ "WithClass(" +:+ DQ +:+ "my-class" +:+ DQ +:+ ")}" +:+ NL +:+
               "export const " +:+ name +:+ " = `" +:+ ("<svg" +:+ escaped) +:+ "`;" +:+ NL +:+
               "export const " +:+ name +:+ "WithClass = (className: string) => `"
                 +:+ ("<svg class=" +:+ DQ +:+ "${className}" +:+ DQ) +:+ escaped
                 +:+ "`;")
    /\ IconsFile.generateIconComponent name markup iconId Memory.svg
       = "// " +:+ iconId +:+ NL +:+
         "export const " +:+ name +:+ " = `" +:+ ("<svg" +:+ rest) +:+ "`;".
Proof.
  intros name markup iconId rest Hclean.
  split; [|split; [|split; [|split]]].
  - intros []; eexists; unfold IconsFile.generateIconComponent; reflexivity.
  - unfold IconsFile.generateIconComponent, IconsFile.generateReactComponent.
    rewrite Hclean.
    destruct (keeps_root_compose _ _ keeps_root_class
             (keeps_root_compose _ _ keeps_root_clip_path
             (keeps_root_compose _ _ keeps_root_fill_rule
             (keeps_root_compose _ _ keeps_root_stroke_width
             (keeps_root_compose _ _ keeps_root_stroke_linecap
                keeps_root_stroke_linejoin)))) rest) as [rest' Hrest'].
    exists rest'. cbv beta in Hrest'. rewrite Hrest', replace_first_root.
    reflexivity.
  - unfold IconsFile.generateIconComponent, IconsFile.generateSolidComponent.
    rewrite Hclean, replace_first_root. reflexivity.
  - destruct (keeps_root_escapeBackticks rest) as [escaped Hesc].
    exists escaped. split; [exact Hesc|].
    unfold IconsFile.generateIconComponent, IconsFile.generateVueComponent,
      IconsFile.generateSvelteComponent.
    rewrite Hclean, Hesc, !replace_first_root. split; reflexivity.
  - unfold IconsFile.generateIconComponent, IconsFile.generateSvgExport.
    by rewrite Hclean.
Qed.

Lemma generateIconComponent_root_injection_witness :
  exists rest,
    IconsFile.cleanSvg Spec.homeSvg = "<svg" +:+ rest
    /\ exists rest',
        IconsFile.generateIconComponent "HomeIcon" Spec.homeSvg "lucide:home" Memory.react
        = "// " +:+ "lucide:home" +:+ NL +:+
          "export const " +:+ "HomeIcon"
            +:+ " = (props: React.SVGProps<SVGSVGElement>) => (" +:+ NL +:+
          "  " +:+ "<svg {...props}" +:+ rest' +:+ NL +:+
          ");".
Proof.
  eexists. split; [vm_compute; reflexivity|].
  refine (proj1 (proj2 (generateIconComponent_root_injection
                          "HomeIcon" Spec.homeSvg "lucide:home" _ _))).
  vm_compute; reflexivity.
Defined.

(** ** The matcher *)

#[local] Arguments String.append !_ _ / : simpl nomatch.

Section Matcher.
Import JsString Regex Scanner.

Lemma append_assoc (a b c : string) : (a +:+ b) +:+ c = a +:+ (b +:+ c).
Proof. induction a as [|x a IH]; simpl; [done|]. by rewrite IH. Qed.

Lemma append_empty_r (a : string) : a +:+ "" = a.
Proof. induction a as [|x a IH]; simpl; [done|]. by rewrite IH. Qed.

Lemma rmatch_seq r1 r2 s c k :
  rmatch (Seq r1 r2) s c k = rmatch r1 s c (fun s' c' => rmatch r2 s' c' k).
Proof. reflexivity. Qed.

Lemma rmatch_chr a s c k :
  rmatch (Chr a) s c k
  = match s with
    | String b s' => if Ascii.eqb a b then k s' c else None
    | EmptyString => None
    end.
Proof. reflexivity. Qed.

Lemma rmatch_cls p s c k :
  rmatch (Cls p) s c k
  = match s with
    | String b s' => if p b then k s' c else None
    | EmptyString => None
    end.
Proof. reflexivity. Qed.

Lemma rmatch_alt r1 r2 s c k :
  rmatch (Alt r1 r2) s c k
  = match rmatch r1 s c k with
    | Some x => Some x
    | None => rmatch r2 s c k
    end.
Proof. reflexivity. Qed.

Lemma rmatch_group i r s c k :
  rmatch (Group i r) s c k
  = rmatch r s c (fun s' c' => k s' ((i, consumed s s') :: c')).
Proof. reflexivity. Qed.

Lemma rmatch_star g r s c k :
  rmatch (Star g r) s c k = star_iter (rmatch r) g k (String.length s) s c.
Proof. reflexivity. Qed.

(** A literal is matched as a prefix. *)
Lemma rmatch_lit p : forall s c k,
  rmatch (Lit p) s c k
  = match strip_prefix p s with
    | Some s' => k s' c
    | None => None
    end.
Proof.
  induction p as [|a p IH]; intros s c k; [by destruct s|].
  destruct p as [|b p].
  - destruct s as [|x s]; [done|]. simpl. by destruct (Ascii.eqb a x).
  - change (Lit (String a (String b p))) with (Seq (Chr a) (Lit (String b p))).
    rewrite rmatch_seq, rmatch_chr.
    destruct s as [|x s]; [done|].
    change (strip_prefix (String a (String b p)) (String x s))
      with (if Ascii.eqb a x then strip_prefix (String b p) s else None).
    destruct (Ascii.eqb a x); [apply IH|done].
Qed.

Lemma star_iter_greedy_S body k n s c :
  star_iter body true k (S n) s c
  = match body s c (fun s' c' =>
                      if String.length s' <? String.length s
                      then star_iter body true k n s' c' else None) with
    | Some x => Some x
    | None => k s c
    end.
Proof. reflexivity. Qed.

(** A greedy run of a class is a [try_greedy]. *)
Lemma star_iter_cls p k c : forall s n,
  String.length s <= n ->
  star_iter (rmatch (Cls p)) true k n s c = try_greedy p k c s.
Proof.
  induction s as [|a s IH]; intros n Hn.
  - destruct n; reflexivity.
  - destruct n as [|n]; [simpl in Hn; lia|].
    rewrite star_iter_greedy_S, rmatch_cls. simpl try_greedy.
    destruct (p a); [|done].
    assert ((String.length s <? String.length (String a s)) = true) as ->.
    { apply Nat.ltb_lt. simpl. lia. }
    rewrite IH; [done|]. simpl in Hn. lia.
Qed.

Lemma rmatch_star_cls p s c k :
  rmatch (Star true (Cls p)) s c k = try_greedy p k c s.
Proof. rewrite rmatch_star. by apply star_iter_cls. Qed.

Lemma try_greedy_det p k c s :
  fails_on p k -> try_greedy p k c s = k (skip p s) c.
Proof.
  intros Hk. induction s as [|a s IH]; [done|].
  simpl. destruct (p a) eqn:Hp; [|done].
  rewrite IH. destruct (k (skip p s) c); [done|]. by apply Hk.
Qed.

Lemma try_greedy_deepest p k c s x :
  k (skip p s) c = Some x -> try_greedy p k c s = Some x.
Proof.
  induction s as [|a s IH]; [done|].
  simpl. destruct (p a) eqn:Hp; [|done].
  intros Hx. by rewrite IH.
Qed.

Lemma star_det p k s c :
  fails_on p k -> rmatch (Star true (Cls p)) s c k = k (skip p s) c.
Proof. intros. rewrite rmatch_star_cls. by apply try_greedy_det. Qed.

Lemma plus_det p k s c :
  fails_on p k ->
  rmatch (Plus (Cls p)) s c k
  = match skip1 p s with
    | Some s' => k s' c
    | None => None
    end.
Proof.
  intros Hk. unfold Plus. rewrite rmatch_seq, rmatch_cls.
  destruct s as [|a s]; [done|]. simpl skip1.
  destruct (p a); [|done]. by apply star_det.
Qed.

Lemma starts_outside_fails p r :
  starts_outside p r ->
  forall a s c k, p a = true -> rmatch r (String a s) c k = None.
Proof.
  induction r as [|x|q|r1 IH1 r2 IH2|r1 IH1 r2 IH2|g r1 IH1|i r1 IH1|r1 IH1];
    simpl starts_outside; intros Hout a s c k Hp; try done.
  - rewrite rmatch_chr. destruct (Ascii.eqb_spec x a) as [->|]; [congruence|done].
  - rewrite rmatch_cls. destruct (q a) eqn:Hq; [|done].
    apply Hout in Hq. congruence.
  - rewrite rmatch_seq. by apply IH1.
  - destruct Hout as [H1 H2]. rewrite rmatch_alt, IH1, IH2; done.
  - rewrite rmatch_group. by apply IH1.
Qed.

Lemma fails_on_rmatch p r k :
  starts_outside p r -> fails_on p (fun s c => rmatch r s c k).
Proof. intros Hout a s c Hp. by apply (starts_outside_fails p). Qed.

End Matcher.

(** ** The patterns of the icons file *)

Section Patterns.
Import JsString Regex Scanner IconsFile.

Ltac by_ascii :=
  let a := fresh "a" in
  intros a; destruct a as [[] [] [] [] [] [] [] []]; vm_compute; congruence.

Lemma word_not_space : forall a, is_word a = true -> is_space a = false.
Proof. by_ascii. Qed.

Lemma prefix_char_not_space : forall a, prefix_char a = true -> is_space a = false.
Proof. by_ascii. Qed.

Lemma space_not_name_char : forall a, is_space a = true -> name_char a = false.
Proof. by_ascii. Qed.

Lemma space_is_lf_or_not a : is_space a = false -> Ascii.eqb LF a = false.
Proof. revert a. by_ascii. Qed.

Lemma not_lf_negb a : negb (Ascii.eqb LF a) = true -> Ascii.eqb LF a = false.
Proof. by destruct (Ascii.eqb LF a). Qed.

Ltac bind_step := cbn [mbind option_bind].

(** The export declaration, read from left to right. *)
Lemma rmatch_export i s c :
  rmatch (exportDeclaration i) s c (fun s' c' => Some (c', s'))
  = match export_at s with
    | Some (name, rest) => Some ((i, name) :: c, rest)
    | None => None
    end.
Proof.
  unfold exportDeclaration, export_at.
  rewrite rmatch_seq, rmatch_lit.
  destruct (strip_prefix "export" s) as [s1|]; [|done]. bind_step.
  rewrite rmatch_seq. unfold ws at 1. rewrite plus_det.
  2:{ apply fails_on_rmatch. simpl. done. }
  destruct (skip1 is_space s1) as [s2|]; [|done]. bind_step.
  rewrite rmatch_seq, rmatch_alt, !rmatch_lit.
  assert (forall t,
    rmatch (Seq (Plus ws) (Group i (Plus (Cls is_word)))) t c
      (fun s' c' => Some (c', s'))
    = match (skip1 is_space t ≫= fun s4 =>
             skip1 is_word s4 ≫= fun s5 => Some (consumed s4 s5, s5)) with
      | Some (name, rest) => Some ((i, name) :: c, rest)
      | None => None
      end) as Htail.
  { intros t. rewrite rmatch_seq. unfold ws. rewrite plus_det.
    2:{ apply fails_on_rmatch. simpl. apply word_not_space. }
    destruct (skip1 is_space t) as [s4|]; [|done]. bind_step.
    rewrite rmatch_group. unfold Plus. rewrite rmatch_seq, rmatch_cls.
    destruct s4 as [|a s4]; [done|]. simpl skip1.
    destruct (is_word a); [|done]. bind_step.
    rewrite rmatch_star_cls. apply try_greedy_deepest. reflexivity. }
  destruct (strip_prefix "const" s2) as [t|] eqn:Hconst.
  - bind_step. rewrite Htail.
    destruct (skip1 is_space t ≫= _) as [[name rest]|]; [done|].
    assert (strip_prefix "function" s2 = None) as ->; [|done].
    destruct s2 as [|x s2]; [done|].
    destruct x as [[] [] [] [] [] [] [] []]; done.
  - destruct (strip_prefix "function" s2) as [t|]; [|done].
    bind_step. apply Htail.
Qed.

(** [\s*\n\s*] in front of a continuation that cannot start with white
    space: the white space must hold a line feed. *)
Lemma rmatch_ws_lf_ws k s c :
  fails_on is_space k ->
  rmatch (Star true ws) s c
    (fun s1 c1 => rmatch (Chr LF) s1 c1 (fun s2 c2 => rmatch (Star true ws) s2 c2 k))
  = if has_lf s then k (skip is_space s) c else None.
Proof.
  intros Hk. unfold ws. rewrite rmatch_star_cls.
  set (k3 := fun s1 c1 =>
               rmatch (Chr LF) s1 c1
                 (fun s2 c2 => rmatch (Star true (Cls is_space)) s2 c2 k)).
  assert (forall a t, k3 (String a t) c
                      = if Ascii.eqb LF a then k (skip is_space t) c else None) as Hk3.
  { intros a t. unfold k3. rewrite rmatch_chr.
    destruct (Ascii.eqb LF a); [|done]. by apply star_det. }
  assert (k3 "" c = None) as Hk3e by done.
  clearbody k3.
  induction s as [|a s IH]; [done|].
  simpl try_greedy. simpl has_lf. simpl skip.
  destruct (is_space a) eqn:Hsp.
  - rewrite IH, Hk3. rewrite (Ascii.eqb_sym a LF).
    destruct (has_lf s), (Ascii.eqb LF a), (k (skip is_space s) c); done.
  - rewrite Hk3, (space_is_lf_or_not _ Hsp). done.
Qed.

Lemma length_skip p s : String.length (skip p s) <= String.length s.
Proof.
  induction s as [|a s IH]; simpl; [done|]. destruct (p a); simpl; lia.
Qed.

Lemma after_comments_in s :
  after_comments InComment s
  = match skip (fun a => negb (Ascii.eqb LF a)) s with
    | String _ s' => after_comments AfterLF s'
    | EmptyString => None
    end.
Proof.
  induction s as [|a s IH]; [done|]. cbn [after_comments skip].
  rewrite (Ascii.eqb_sym a LF). destruct (Ascii.eqb LF a) eqn:E; cbn [negb]; [done|].
  exact IH.
Qed.

Lemma after_comments_after s :
  after_comments AfterLF s = after_comments AtStart (skip is_space s).
Proof.
  induction s as [|a s IH]; [done|].
  cbn [after_comments skip]. destruct (is_space a) eqn:Hsp; [done|].
  reflexivity.
Qed.


Lemma strip_prefix_spec p : forall s r, strip_prefix p s = Some r -> s = p +:+ r.
Proof.
  induction p as [|a p IH]; intros s r H; [by simplify_eq/=|].
  destruct s as [|b s]; [done|]. simpl in H.
  destruct (Ascii.eqb_spec a b) as [->|]; [|done].
  simpl. f_equal. by apply IH.
Qed.

Lemma strip_prefix_app p r : strip_prefix p (p +:+ r) = Some r.
Proof.
  induction p as [|a p IH]; simpl; [done|]. by rewrite Ascii.eqb_refl.
Qed.

Lemma skip_head p s a t : skip p s = String a t -> p a = false.
Proof.
  induction s as [|b s IH]; [done|]. simpl.
  destruct (p b) eqn:Hp; [done|]. by intros [= <- _].
Qed.

Lemma skip_length_cons p s a t :
  skip p s = String a t -> String.length t < String.length s.
Proof.
  intros H. pose proof (length_skip p s) as Hl. rewrite H in Hl. simpl in Hl. lia.
Qed.

Lemma rmatch_commentLine k s c :
  fails_on is_space k ->
  rmatch commentLine s c k
  = match strip_prefix "//" s with
    | Some s1 =>
        match skip (fun a => negb (Ascii.eqb LF a)) s1 with
        | String _ s2 => k (skip is_space s2) c
        | EmptyString => None
        end
    | None => None
    end.
Proof.
  intros Hk. unfold commentLine. rewrite rmatch_seq, rmatch_lit.
  destruct (strip_prefix "//" s) as [s1|]; [|done].
  rewrite rmatch_seq. unfold not_lf, NotCls. rewrite star_det.
  2:{ apply fails_on_rmatch. simpl. done. }
  rewrite rmatch_seq, rmatch_chr.
  destruct (skip _ s1) as [|a s2] eqn:Hskip; [done|].
  apply skip_head in Hskip. apply negb_false_iff in Hskip. rewrite Hskip.
  unfold ws. by apply star_det.
Qed.

Lemma after_comments_start_other s :
  strip_prefix "//" s = None -> after_comments AtStart s = Some s.
Proof.
  destruct s as [|a [|b s]]; [done| |].
  - destruct a as [[] [] [] [] [] [] [] []]; done.
  - destruct a as [[] [] [] [] [] [] [] []]; try done.
    destruct b as [[] [] [] [] [] [] [] []]; done.
Qed.

(** The loop over the comment lines in front of a continuation that
    can start neither with white space nor with a slash. *)
Lemma comments_loop k :
  fails_on is_space k ->
  (forall s c, k (String "/" s) c = None) ->
  forall n s c,
    String.length s <= n ->
    star_iter (rmatch commentLine) true k n s c
    = match after_comments AtStart s with
      | Some s' => k s' c
      | None => None
      end.
Proof.
  intros Hspace Hslash. induction n as [|n IH]; intros s c Hn.
  - destruct s; [done|]. simpl in Hn. lia.
  - rewrite star_iter_greedy_S.
    set (again := fun s' c' => if String.length s' <? String.length s
                               then star_iter (rmatch commentLine) true k n s' c'
                               else None).
    assert (fails_on is_space again) as Hagain.
    { intros a t c' Ha. unfold again.
      destruct (Nat.ltb_spec (String.length (String a t)) (String.length s)); [|done].
      rewrite IH by lia.
      rewrite after_comments_start_other.
      - by apply Hspace.
      - destruct a as [[] [] [] [] [] [] [] []]; done. }
    rewrite (rmatch_commentLine _ _ _ Hagain).
    destruct (strip_prefix "//" s) as [s1|] eqn:Hstrip.
    + apply strip_prefix_spec in Hstrip. subst s.
      change (after_comments AtStart ("//" +:+ s1))
        with (after_comments InComment s1).
      rewrite after_comments_in.
      change (k ("//" +:+ s1) c) with (k (String "/" (String "/" s1)) c).
      rewrite Hslash.
      destruct (skip _ s1) as [|a s2] eqn:Hskip; [done|].
      rewrite after_comments_after.
      apply skip_length_cons in Hskip.
      pose proof (length_skip is_space s2) as Hl.
      unfold again.
      destruct (Nat.ltb_spec (String.length (skip is_space s2))
                  (String.length ("//" +:+ s1))) as [Hlt|Hge].
      * rewrite IH by (simpl in Hn; lia).
        by destruct (after_comments AtStart (skip is_space s2)) as [s'|];
          [destruct (k s' c)|].
      * simpl in Hge. lia.
    + by rewrite after_comments_start_other.
Qed.

Lemma rmatch_afterIconId s c :
  rmatch afterIconId s c (fun s' c' => Some (c', s'))
  = if has_lf s then
      match after_comments AtStart (skip is_space s) with
      | Some s6 =>
          match export_at s6 with
          | Some (name, rest) => Some ((2, name) :: c, rest)
          | None => None
          end
      | None => None
      end
    else None.
Proof.
  set (K := fun (s' : string) (c' : captures) => Some (c', s')).
  set (k4 := fun s c => rmatch (Seq (Star true commentLine) (exportDeclaration 2)) s c K).
  assert (forall s c, k4 s c = match after_comments AtStart s with
                               | Some s6 =>
                                   match export_at s6 with
                                   | Some (name, rest) => Some ((2, name) :: c, rest)
                                   | None => None
                                   end
                               | None => None
                               end) as Hk4.
  { intros t d. unfold k4. rewrite rmatch_seq, rmatch_star.
    rewrite comments_loop; [|apply fails_on_rmatch; simpl; done| |done].
    - destruct (after_comments AtStart t); [|done]. apply rmatch_export.
    - intros t' d'. by apply (starts_outside_fails (fun a => Ascii.eqb a "/")). }
  assert (fails_on is_space k4) as Hfail.
  { intros a t d Ha. rewrite Hk4, after_comments_start_other.
    - unfold export_at. simpl.
      by destruct a as [[] [] [] [] [] [] [] []].
    - by destruct a as [[] [] [] [] [] [] [] []]. }
  unfold afterIconId. rewrite rmatch_seq.
  etrans; [apply (rmatch_ws_lf_ws k4 s c Hfail)|].
  destruct (has_lf s); [|done]. apply Hk4.
Qed.

(** The backtracking matcher computes [icon_at] on [iconPattern]. *)
Lemma match_here_iconPattern s : match_here iconPattern s = icon_at s.
Proof.
  unfold match_here, icon_at.
  change iconPattern
    with (Seq (Lit "//") (Seq (Star true ws) (Seq iconIdGroup afterIconId))).
  set (K := fun (s' : string) (c' : captures) => Some (c', s')).
  assert (fails_on name_char
            (fun s c => rmatch afterIconId s c K)) as Hname.
  { intros a t d Ha. unfold K. rewrite rmatch_afterIconId. simpl has_lf.
    destruct (is_space a) eqn:Hsp; [|done].
    apply space_not_name_char in Hsp. congruence. }
  rewrite rmatch_seq, rmatch_lit.
  destruct (strip_prefix "//" s) as [s1|]; [|done]. bind_step.
  rewrite rmatch_seq. unfold ws at 1. rewrite star_det.
  2:{ apply fails_on_rmatch. simpl. apply prefix_char_not_space. }
  generalize (skip is_space s1). clear s s1. intros s2.
  rewrite rmatch_seq. unfold iconIdGroup. rewrite rmatch_group, rmatch_seq.
  rewrite plus_det.
  2:{ apply fails_on_rmatch. simpl. done. }
  destruct (skip1 prefix_char s2) as [s3|]; [|done]. bind_step.
  rewrite rmatch_seq, rmatch_chr.
  destruct s3 as [|b s4]; [done|]. cbn [strip_prefix].
  destruct (Ascii.eqb ":" b); [|done]. bind_step.
  rewrite plus_det.
  2:{ intros a t d Ha. by apply Hname. }
  destruct (skip1 name_char s4) as [s5|]; [|done]. bind_step.
  unfold K. rewrite rmatch_afterIconId.
  destruct (has_lf s5); [|done].
  destruct (after_comments AtStart (skip is_space s5)) as [s6|]; [|done]. bind_step.
  by destruct (export_at s6) as [[name rest]|].
Qed.

End Patterns.

(** ** Scanning a text for the matches of a pattern *)

Section Scan.
Import JsString Regex Scanner.

Lemma forall_chars_app p a b :
  forall_chars p (a +:+ b) = forall_chars p a && forall_chars p b.
Proof.
  induction a as [|x a IH]; simpl; [done|]. rewrite IH. by rewrite andb_assoc.
Qed.

Lemma forall_chars_impl (p q : ascii -> bool) s :
  (forall a, p a = true -> q a = true) ->
  forall_chars p s = true -> forall_chars q s = true.
Proof.
  intros Hpq. induction s as [|x s IH]; simpl; [done|].
  intros [Hx Hs]%andb_true_iff. rewrite (Hpq _ Hx), IH; done.
Qed.

Lemma run_skip p s : s = run p s +:+ skip p s.
Proof.
  induction s as [|a s IH]; simpl; [done|].
  destruct (p a); simpl; [by rewrite <- IH|done].
Qed.

Lemma forall_chars_run p s : forall_chars p (run p s) = true.
Proof.
  induction s as [|a s IH]; simpl; [done|].
  destruct (p a) eqn:E; simpl; [by rewrite E|done].
Qed.

Lemma skip_stops p s : stops p (skip p s).
Proof.
  induction s as [|a s IH]; simpl; [done|].
  destruct (p a) eqn:E; [done|]. simpl. done.
Qed.

Lemma skip_stop p b : stops p b -> skip p b = b.
Proof. destruct b as [|c b]; simpl; [done|]. by intros ->. Qed.

Lemma skip_app p a b :
  forall_chars p a = true -> skip p (a +:+ b) = skip p b.
Proof.
  induction a as [|x a IH]; simpl; [done|].
  intros [-> Ha]%andb_true_iff. by apply IH.
Qed.

Lemma skip_run p a b :
  forall_chars p a = true -> stops p b -> skip p (a +:+ b) = b.
Proof. intros Ha Hb. rewrite skip_app by done. by apply skip_stop. Qed.

Lemma skip1_run p a b :
  a <> EmptyString -> forall_chars p a = true -> stops p b ->
  skip1 p (a +:+ b) = Some b.
Proof.
  destruct a as [|x a]; [done|]. intros _. simpl.
  intros [-> Ha]%andb_true_iff Hb. f_equal. by apply skip_run.
Qed.

(** Two ways to cut one string. *)
Lemma append_eq_append (a b c d : string) :
  a +:+ b = c +:+ d ->
  (exists e, a = c +:+ e /\ d = e +:+ b) \/ (exists e, c = a +:+ e /\ b = e +:+ d).
Proof.
  revert c. induction a as [|x a IH]; intros c H.
  - right. exists c. done.
  - destruct c as [|y c].
    + left. exists (String x a). done.
    + simpl in H. injection H as -> H.
      destruct (IH _ H) as [(e & -> & ->)|(e & -> & ->)]; [left|right]; by exists e.
Qed.

Lemma snoc_append before a s : snoc before a +:+ s = before +:+ String a s.
Proof. unfold snoc. by rewrite append_assoc. Qed.

(** Passing the rest of a match. *)
Lemma matches_from_skip r a : forall before b,
  matches_from r (String.length a) before (a +:+ b)
  = matches_from r 0 (before +:+ a) b.
Proof.
  induction a as [|x a IH]; intros before b.
  - by rewrite append_empty_r.
  - simpl. rewrite IH. f_equal. unfold snoc. by rewrite append_assoc.
Qed.

Lemma matches_from_0 r before s :
  matches_from r 0 before s
  = match match_here r s with
    | Some (c, rest) =>
        Found before (consumed s rest) c rest ::
          match s with
          | String a s' =>
              matches_from r (String.length s - String.length rest - 1)
                (snoc before a) s'
          | EmptyString => []
          end
    | None =>
        match s with
        | String a s' => matches_from r 0 (snoc before a) s'
        | EmptyString => []
        end
    end.
Proof. by destruct s. Qed.

(** A stretch of text in which no match starts is passed over. *)
Lemma matches_from_quiet r x : forall before d,
  quiet r x d ->
  matches_from r 0 before (x +:+ d) = matches_from r 0 (before +:+ x) d.
Proof.
  induction x as [|a x IH]; intros before d Hq.
  - by rewrite append_empty_r.
  - destruct Hq as [Hnone Hq]. rewrite matches_from_0, Hnone.
    simpl. rewrite IH by done. f_equal. unfold snoc. by rewrite append_assoc.
Qed.

(** A match at the current position. *)
Lemma matches_from_hit r m rest c before :
  m <> EmptyString ->
  match_here r (m +:+ rest) = Some (c, rest) ->
  matches_from r 0 before (m +:+ rest)
  = Found before m c rest :: matches_from r 0 (before +:+ m) rest.
Proof.
  intros Hm Hhit. rewrite matches_from_0, Hhit, consumed_app. f_equal.
  destruct m as [|a m]; [done|].
  change (String a m +:+ rest) with (String a (m +:+ rest)). cbv iota.
  assert (String.length (String a (m +:+ rest)) - String.length rest - 1
          = String.length m) as ->.
  { cbn [String.length]. rewrite length_append. lia. }
  rewrite matches_from_skip. f_equal. unfold snoc. by rewrite append_assoc.
Qed.

Lemma quiet_app r a b d :
  quiet r a (b +:+ d) -> quiet r b d -> quiet r (a +:+ b) d.
Proof.
  induction a as [|x a IH]; simpl; [done|].
  intros [H1 H2] Hb. rewrite append_assoc. split; [done|]. by apply IH.
Qed.

End Scan.

(** ** Where identifier comments can start *)

Section Quiet.
Import JsString Regex Scanner IconsFile.

Ltac by_ascii :=
  let a := fresh "a" in
  intros a; destruct a as [[] [] [] [] [] [] [] []]; vm_compute; congruence.

Lemma icon_at_not_slash c s : not_slash c = true -> icon_at (String c s) = None.
Proof.
  unfold icon_at, not_slash. cbn [strip_prefix].
  rewrite (Ascii.eqb_sym "/" c). by destruct (Ascii.eqb c "/").
Qed.

Lemma quiet_no_slash x d :
  forall_chars not_slash x = true -> quiet iconPattern x d.
Proof.
  induction x as [|c x IH]; simpl; [done|].
  intros [Hc Hx]%andb_true_iff. split; [|by apply IH].
  rewrite match_here_iconPattern. by apply icon_at_not_slash.
Qed.

Lemma export_at_starts s x : export_at s = Some x -> starts_declaration s.
Proof.
  unfold export_at. destruct s as [|c s]; [done|]. cbn [strip_prefix].
  destruct (Ascii.eqb_spec "e" c) as [<-|]; [intros _; by right|done].
Qed.

Lemma after_comments_starts s s6 x :
  after_comments AtStart s = Some s6 -> export_at s6 = Some x ->
  starts_declaration s.
Proof.
  intros Hc He.
  destruct (strip_prefix "//" s) as [s1|] eqn:Hs.
  - apply strip_prefix_spec in Hs. subst s. by left.
  - rewrite after_comments_start_other in Hc by done. simplify_eq.
    by eapply export_at_starts.
Qed.

Lemma skip1_decomp p s s' :
  skip1 p s = Some s' -> exists u, s = u +:+ s' /\ forall_chars p u = true.
Proof.
  destruct s as [|a s]; [done|]. simpl. destruct (p a) eqn:E; [|done].
  intros [= <-]. exists (String a (run p s)). simpl.
  rewrite <- run_skip, E, forall_chars_run. done.
Qed.

Lemma icon_at_shape s x :
  icon_at s = Some x ->
  exists u s5,
    s = "//" +:+ u +:+ s5
    /\ forall_chars id_or_space u = true
    /\ has_lf s5 = true
    /\ starts_declaration (skip is_space s5).
Proof.
  unfold icon_at.
  destruct (strip_prefix "//" s) as [s1|] eqn:H1; [|done].
  apply strip_prefix_spec in H1. cbn [mbind option_bind].
  destruct (skip1 prefix_char (skip is_space s1)) as [s3|] eqn:H3; [|done].
  cbn [mbind option_bind].
  destruct (strip_prefix ":" s3) as [s4|] eqn:H4; [|done].
  apply strip_prefix_spec in H4. cbn [mbind option_bind].
  destruct (skip1 name_char s4) as [s5|] eqn:H5; [|done].
  cbn [mbind option_bind].
  destruct (has_lf s5) eqn:Hlf; [|done].
  destruct (after_comments AtStart (skip is_space s5)) as [s6|] eqn:H6; [|done].
  cbn [mbind option_bind].
  destruct (export_at s6) as [[name rest]|] eqn:H7; [|done].
  intros _.
  apply skip1_decomp in H3 as (u3 & H3 & Hu3).
  apply skip1_decomp in H5 as (u5 & H5 & Hu5).
  exists (run is_space s1 +:+ u3 +:+ ":" +:+ u5), s5.
  split; [|split; [|split]].
  - rewrite H1 at 1. rewrite (run_skip is_space s1) at 1.
    rewrite H3, H4, H5. by rewrite !append_assoc.
  - assert (forall a, is_space a = true -> id_or_space a = true) as Hsp.
    { intros a Ha. unfold id_or_space. by rewrite Ha. }
    assert (forall a, prefix_char a = true -> id_or_space a = true) as Hpc.
    { intros a Ha. unfold id_or_space. rewrite Ha. by rewrite !orb_true_r. }
    assert (forall a, name_char a = true -> id_or_space a = true) as Hnc.
    { intros a Ha. unfold id_or_space. rewrite Ha. by rewrite !orb_true_r. }
    rewrite !forall_chars_app.
    rewrite (forall_chars_impl _ _ _ Hsp (forall_chars_run _ _)).
    rewrite (forall_chars_impl _ _ _ Hpc Hu3).
    rewrite (forall_chars_impl _ _ _ Hnc Hu5). done.
  - done.
  - by eapply after_comments_starts.
Qed.


Lemma blocks_id_not_space : forall c, blocks_id c = true -> is_space c = false.
Proof. by_ascii. Qed.

Lemma blocks_id_not_declaration c :
  blocks_id c = true -> c <> "/"%char /\ c <> "e"%char.
Proof. split; intros ->; done. Qed.

(** White space without a line feed in front of a guard holds no line
    feed that a declaration could follow. *)
Lemma has_lf_plain_guard e d :
  forall_chars not_lf_char e = true -> guards d = true ->
  has_lf (e +:+ d) = true ->
  ~ starts_declaration (skip is_space (e +:+ d)).
Proof.
  intros He Hd. induction e as [|a e IH].
  - simpl. destruct d as [|c d']; [done|]. cbn [has_lf skip guards] in *.
    destruct (is_space c) eqn:Hsp; [|done]. simpl.
    destruct (Ascii.eqb c LF) eqn:Hc.
    + intros _. destruct d' as [|c' d'']; [simpl; tauto|].
      pose proof (blocks_id_not_space _ Hd) as Hsp'.
      cbn [skip]. rewrite Hsp'. simpl.
      destruct (blocks_id_not_declaration _ Hd). tauto.
    + apply blocks_id_not_space in Hd. congruence.
  - simpl in He. apply andb_true_iff in He as [Ha He].
    change (String a e +:+ d) with (String a (e +:+ d)).
    cbn [has_lf skip]. destruct (is_space a) eqn:Hsp; [|done]. simpl.
    unfold not_lf_char in Ha. apply negb_true_iff in Ha. rewrite Ha. simpl.
    by apply IH.
Qed.

Lemma icon_at_plain_guard y d :
  y <> EmptyString ->
  forall_chars not_lf_char y = true -> guards d = true ->
  icon_at (y +:+ d) = None.
Proof.
  intros Hy Hplain Hd.
  destruct (icon_at (y +:+ d)) as [x|] eqn:E; [exfalso|done].
  apply icon_at_shape in E as (u & s5 & Heq & Hu & Hlf & Hstart).
  destruct y as [|c1 y]; [done|]. simpl in Heq. injection Heq as -> Heq.
  destruct y as [|c2 y].
  { simpl in Heq. subst d. done. }
  simpl in Heq. injection Heq as -> Heq.
  simpl in Hplain.
  destruct (append_eq_append _ _ _ _ Heq) as [(e & Hy' & Hs5)|(e & Hu' & Hd')].
  - subst y s5. rewrite forall_chars_app in Hplain.
    apply andb_true_iff in Hplain as [_ He].
    by eapply has_lf_plain_guard.
  - subst u d. rewrite forall_chars_app in Hu.
    apply andb_true_iff in Hu as [_ He].
    destruct e as [|c e].
    + simpl in *. by eapply (has_lf_plain_guard "" s5).
    + simpl in He. apply andb_true_iff in He as [Hc He].
      simpl in Hd. destruct (Ascii.eqb c LF) eqn:Hlfc.
      * destruct e as [|c' e].
        -- simpl in Hd. destruct s5 as [|c' s5]; [done|].
           apply blocks_id_not_space in Hd. simpl in Hlf. by rewrite Hd in Hlf.
        -- simpl in Hd, He. apply andb_true_iff in He as [Hc' _].
           unfold blocks_id in Hd. rewrite Hc' in Hd. done.
      * unfold blocks_id in Hd. rewrite Hc in Hd. done.
Qed.

Lemma quiet_plain x d :
  forall_chars not_lf_char x = true -> guards d = true ->
  quiet iconPattern x d.
Proof.
  intros Hx Hd. induction x as [|c x IH]; [done|].
  split.
  - rewrite match_here_iconPattern. by apply icon_at_plain_guard.
  - apply IH. simpl in Hx. by apply andb_true_iff in Hx as [_ ?].
Qed.

End Quiet.

(** ** Characters of the generated code *)

Section Characters.
Import JsString Regex Scanner IconsFile Spec.

Lemma substitution_literal m f tpl :
  forall_chars not_dollar tpl = true -> substitution m f tpl = tpl.
Proof.
  induction tpl as [|c tpl IH]; [done|]. simpl forall_chars.
  intros [Hc Htpl]%andb_true_iff.
  destruct c as [[] [] [] [] [] [] [] []]; try done; simpl; by rewrite IH.
Qed.

Lemma forall_chars_replace_from P r tpl :
  (forall f, forall_chars P (substitution (group_count r) f tpl) = true) ->
  forall s skip before,
    forall_chars P s = true ->
    forall_chars P (replace_from r tpl skip before s) = true.
Proof.
  intros Htpl. induction s as [|a s IH]; intros skip before Hs.
  - destruct skip; [|done]. simpl.
    destruct (match_here r "") as [[c rest]|]; [|done].
    rewrite forall_chars_app, Htpl. done.
  - simpl in Hs. apply andb_true_iff in Hs as [Ha Hs].
    destruct skip as [|skip]; simpl; [|by apply IH].
    destruct (match_here r (String a s)) as [[c rest]|].
    + rewrite forall_chars_app, Htpl. simpl.
      destruct (_ - _); simpl; [rewrite Ha|]; by apply IH.
    + simpl. rewrite Ha. by apply IH.
Qed.

Lemma forall_chars_replace_all P r tpl s :
  (forall f, forall_chars P (substitution (group_count r) f tpl) = true) ->
  forall_chars P s = true ->
  forall_chars P (replace_all r tpl s) = true.
Proof. intros. by apply forall_chars_replace_from. Qed.

Lemma match_here_lit pat s :
  match_here (Lit pat) s
  = match strip_prefix pat s with
    | Some rest => Some ([], rest)
    | None => None
    end.
Proof. unfold match_here. apply rmatch_lit. Qed.

Lemma search_from_lit pat : forall s before f,
  search_from (Lit pat) before s = Some f ->
  exists s1, s = s1 +:+ pat +:+ f_after f /\ f_before f = before +:+ s1.
Proof.
  induction s as [|a s IH]; intros before f.
  - simpl. rewrite match_here_lit.
    destruct (strip_prefix pat "") as [rest|] eqn:E; [|done].
    intros [= <-]. exists "". apply strip_prefix_spec in E.
    simpl. by rewrite append_empty_r.
  - simpl. rewrite match_here_lit.
    destruct (strip_prefix pat (String a s)) as [rest|] eqn:E.
    + intros [= <-]. exists "". apply strip_prefix_spec in E.
      simpl. by rewrite append_empty_r.
    + intros Hf. apply IH in Hf as (s1 & -> & ->).
      exists (String a s1). simpl. split; [done|].
      unfold snoc. by rewrite append_assoc.
Qed.

Lemma forall_chars_replace_first P pat tpl s :
  (forall f, forall_chars P (substitution 0 f tpl) = true) ->
  forall_chars P s = true ->
  forall_chars P (replace_first pat tpl s) = true.
Proof.
  intros Htpl Hs. unfold replace_first, search.
  destruct (search_from (Lit pat) "" s) as [f|] eqn:E; [|done].
  apply search_from_lit in E as (s1 & Hs1 & Hb).
  rewrite Hs1, !forall_chars_app in Hs.
  apply andb_true_iff in Hs as [H1 [_ H3]%andb_true_iff].
  rewrite Hb. simpl. rewrite !forall_chars_app, H1, Htpl, H3. done.
Qed.

Lemma forall_chars_trimStart P s :
  forall_chars P s = true -> forall_chars P (trimStart s) = true.
Proof.
  induction s as [|a s IH]; [done|]. simpl.
  intros [Ha Hs]%andb_true_iff. destruct (is_space a); [by apply IH|].
  simpl. by rewrite Ha, Hs.
Qed.

Lemma forall_chars_trimEnd P s :
  forall_chars P s = true -> forall_chars P (trimEnd s) = true.
Proof.
  induction s as [|a s IH]; [done|]. simpl.
  intros [Ha Hs]%andb_true_iff. specialize (IH Hs).
  destruct (trimEnd s) as [|b t].
  - destruct (is_space a); simpl; [done|]. by rewrite Ha.
  - simpl in *. by rewrite Ha, IH.
Qed.

Lemma forall_chars_cleanSvg P markup :
  forall_chars P markup = true -> forall_chars P (cleanSvg markup) = true.
Proof.
  intros H. unfold cleanSvg, trim.
  apply forall_chars_trimEnd, forall_chars_trimStart.
  apply forall_chars_replace_all; [|done]. intros f. done.
Qed.

End Characters.

(** ** The blocks of a managed file *)

Section Blocks.
Import JsString Regex Scanner IconsFile Spec.

Ltac by_ascii :=
  let a := fresh "a" in
  intros a; destruct a as [[] [] [] [] [] [] [] []]; vm_compute; congruence.

Lemma word_not_slash : forall a, is_word a = true -> not_slash a = true.
Proof. by_ascii. Qed.
Lemma word_not_bang : forall a, is_word a = true -> not_bang a = true.
Proof. by_ascii. Qed.
Lemma word_not_lf : forall a, is_word a = true -> negb (Ascii.eqb LF a) = true.
Proof. by_ascii. Qed.
Lemma prefix_char_not_bang : forall a, prefix_char a = true -> not_bang a = true.
Proof. by_ascii. Qed.
Lemma name_char_not_bang : forall a, name_char a = true -> not_bang a = true.
Proof. by_ascii. Qed.
Lemma plain_not_bang : forall a, plain_char a = true -> not_bang a = true.
Proof. by_ascii. Qed.
Lemma plain_not_lf : forall a, plain_char a = true -> not_lf_char a = true.
Proof. by_ascii. Qed.

Lemma skip1_nonempty p s s' :
  skip1 p s = Some s' ->
  exists u, s = u +:+ s' /\ u <> EmptyString /\ forall_chars p u = true.
Proof.
  destruct s as [|a s]; [done|]. simpl. destruct (p a) eqn:E; [|done].
  intros [= <-]. exists (String a (run p s)). simpl.
  rewrite <- run_skip, E, forall_chars_run. done.
Qed.

Lemma is_icon_id_shape id :
  is_icon_id id = true ->
  exists P N,
    id = P +:+ ":" +:+ N
    /\ P <> EmptyString /\ forall_chars prefix_char P = true
    /\ N <> EmptyString /\ forall_chars name_char N = true.
Proof.
  unfold is_icon_id.
  destruct (skip1 prefix_char id) as [s3|] eqn:H3; [|done].
  apply skip1_nonempty in H3 as (P & -> & HP & HPc).
  destruct s3 as [|c s4]; [done|].
  destruct (Ascii.eqb_spec c ":") as [->|Hne].
  2:{ destruct c as [[] [] [] [] [] [] [] []]; done. }
  destruct (skip1 name_char s4) as [s5|] eqn:H5; [|done].
  apply skip1_nonempty in H5 as (N & -> & HN & HNc).
  destruct s5; [|done]. intros _.
  exists P, N. rewrite append_empty_r. done.
Qed.

Lemma is_identifier_shape name :
  is_identifier name = true ->
  name <> EmptyString /\ forall_chars is_word name = true.
Proof. destruct name; [done|]. done. Qed.

Lemma stops_first (p : ascii -> bool) a s b :
  p a = false -> stops p (String a s +:+ b).
Proof. done. Qed.

Lemma nonempty_first (s : string) :
  s <> EmptyString -> exists a t, s = String a t.
Proof. destruct s; [done|]. eauto. Qed.

(** The pattern reads a block back: at the identifier comment of a
    block it matches up to the component name. *)
Lemma icon_at_block id name extra t :
  is_icon_id id = true -> is_identifier name = true ->
  extra = EmptyString \/ extra = usageComment name ->
  icon_at ("// " +:+ id +:+ NL +:+ extra +:+ "export const " +:+ name +:+ String " " t)
  = Some ([(2, name); (1, id)], String " " t).
Proof.
  intros (P & N & -> & HP & HPc & HN & HNc)%is_icon_id_shape
         [Hname Hword]%is_identifier_shape Hextra.
  destruct (nonempty_first _ HP) as (p0 & P' & ->).
  destruct (nonempty_first _ Hname) as (n0 & name' & ->).
  assert (is_space p0 = false) as Hp0.
  { simpl in HPc. apply andb_true_iff in HPc as [Hp _].
    by apply prefix_char_not_space. }
  assert (is_space n0 = false) as Hn0.
  { simpl in Hword. apply andb_true_iff in Hword as [Hn _].
    by apply word_not_space. }
  set (id := String p0 P' +:+ ":" +:+ N).
  set (tail5 := NL +:+ extra +:+ "export const " +:+ String n0 name' +:+ String " " t).
  unfold icon_at.
  change (strip_prefix "//" ("// " +:+ id +:+ tail5)) with (Some (" " +:+ id +:+ tail5)).
  cbn [mbind option_bind].
  assert (skip is_space (" " +:+ id +:+ tail5) = id +:+ tail5) as ->.
  { change (skip is_space (" " +:+ id +:+ tail5)) with (skip is_space (id +:+ tail5)).
    apply skip_stop. unfold id. simpl. done. }
  assert (skip1 prefix_char (id +:+ tail5) = Some (":" +:+ N +:+ tail5)) as ->.
  { unfold id. rewrite !append_assoc. apply skip1_run; done. }
  cbn [mbind option_bind].
  change (strip_prefix ":" (":" +:+ N +:+ tail5)) with (Some (N +:+ tail5)).
  cbn [mbind option_bind].
  assert (skip1 name_char (N +:+ tail5) = Some tail5) as ->.
  { apply skip1_run; done. }
  cbn [mbind option_bind].
  rewrite consumed_app.
  change (has_lf tail5) with true. cbv iota.
  set (decl := "export const " +:+ String n0 name' +:+ String " " t).
  assert (after_comments AtStart (skip is_space tail5) = Some decl) as ->.
  { unfold tail5. destruct Hextra as [-> | ->].
    - reflexivity.
    - unfold usageComment.
      change (skip is_space (NL +:+ ("// Use with: {@html " +:+ ?x) +:+ ?y))
        with ("// Use with: {@html " +:+ x +:+ y).
      repeat rewrite append_assoc.
      change (after_comments AtStart ("// Use with: {@html " +:+ ?x))
        with (after_comments InComment (" Use with: {@html " +:+ x)).
      rewrite after_comments_in.
      set (line := " Use with: {@html " +:+ String n0 name' +:+ "} or {@html "
                     +:+ String n0 name' +:+ "WithClass(" +:+ DQ +:+ "my-class"
                     +:+ DQ +:+ ")}").
      assert (forall_chars (fun a => negb (Ascii.eqb LF a)) line = true) as Hline.
      { unfold line. rewrite !forall_chars_app.
        rewrite (forall_chars_impl _ _ _ word_not_lf Hword). done. }
      assert (" Use with: {@html " +:+ String n0 name' +:+ "} or {@html "
                +:+ String n0 name' +:+ "WithClass(" +:+ DQ +:+ "my-class"
                +:+ DQ +:+ ")}" +:+ NL +:+ "export const " +:+ String n0 name'
                +:+ String " " t
              = line +:+ NL +:+ decl) as ->.
      { unfold line, decl. by rewrite !append_assoc. }
      rewrite skip_run; [|done|done].
      reflexivity. }
  cbn [mbind option_bind].
  assert (export_at decl = Some (String n0 name', String " " t)) as ->.
  { unfold export_at, decl.
    change (strip_prefix "export" ("export const " +:+ ?x)) with (Some (" const " +:+ x)).
    cbn [mbind option_bind].
    change (skip1 is_space (" const " +:+ ?x)) with (Some ("const " +:+ x)).
    cbn [mbind option_bind].
    change (strip_prefix "const" ("const " +:+ ?x)) with (Some (" " +:+ x)).
    cbn [mbind option_bind].
    assert (skip1 is_space (" " +:+ String n0 name' +:+ String " " t)
            = Some (String n0 name' +:+ String " " t)) as ->.
    { simpl. by rewrite Hn0. }
    cbn [mbind option_bind].
    rewrite skip1_run; [|done..].
    cbn [mbind option_bind]. by rewrite consumed_app. }
  reflexivity.
Qed.


Lemma trimEnd_app a b :
  trimEnd (a +:+ b)
  = match trimEnd b with
    | EmptyString => trimEnd a
    | String x t => a +:+ String x t
    end.
Proof.
  induction a as [|c a IH]; simpl.
  - by destruct (trimEnd b).
  - rewrite IH. destruct (trimEnd b) as [|x t]; [done|].
    by destruct a.
Qed.

Lemma kept_app a b : kept b -> kept (a +:+ b).
Proof.
  intros [Hb Hne]. split.
  - rewrite trimEnd_app, Hb. by destruct b.
  - destruct a; [done|]. done.
Qed.

(** The embedded markup of each flavor is plain when the markup is. *)
Lemma plain_react clean :
  forall_chars plain_char clean = true ->
  forall_chars plain_char
    (replace_first "<svg" "<svg {...props}"
       (replace_all (Lit "stroke-linejoin=") "strokeLinejoin="
       (replace_all (Lit "stroke-linecap=") "strokeLinecap="
       (replace_all (Lit "stroke-width=") "strokeWidth="
       (replace_all (Lit "fill-rule=") "fillRule="
       (replace_all (Lit "clip-path=") "clipPath="
       (replace_all (Lit "class=") "className=" clean))))))) = true.
Proof.
  intros H. apply forall_chars_replace_first; [by intros f|].
  repeat (apply forall_chars_replace_all; [by intros f|]). done.
Qed.

Lemma plain_first pat tpl clean :
  (forall f, forall_chars plain_char (substitution 0 f tpl) = true) ->
  forall_chars plain_char clean = true ->
  forall_chars plain_char (replace_first pat tpl clean) = true.
Proof. intros. by apply forall_chars_replace_first. Qed.

Lemma plain_escapeBackticks clean :
  forall_chars plain_char clean = true ->
  forall_chars plain_char (escapeBackticks clean) = true.
Proof. intros H. unfold escapeBackticks. by apply forall_chars_replace_all. Qed.

Ltac quiet_segments :=
  repeat first
    [ apply quiet_no_slash; rewrite ?forall_chars_app;
      repeat match goal with
             | H : forall_chars is_word ?X = true |- _ =>
                 rewrite (forall_chars_impl _ _ X word_not_slash H)
             end;
      reflexivity
    | apply quiet_plain;
      [ apply (forall_chars_impl _ _ _ plain_not_lf); assumption | reflexivity ]
    | apply quiet_app ].

Ltac kept_segments :=
  repeat apply kept_app; split; [reflexivity|discriminate].

Ltac no_bang_segments :=
  rewrite ?forall_chars_app;
  repeat match goal with
         | H : forall_chars plain_char ?X = true |- _ =>
             rewrite (forall_chars_impl _ _ X plain_not_bang H); clear H
         | H : forall_chars is_word ?X = true |- _ =>
             rewrite (forall_chars_impl _ _ X word_not_bang H); clear H
         end;
  reflexivity.

Lemma block_shape r :
  well_formed r = true ->
  exists tail, block r = lead r +:+ tail /\ tail_ok tail.
Proof.
  unfold well_formed. intros [[Hid Hname]%andb_true_iff Hplain]%andb_true_iff.
  destruct (is_identifier_shape _ Hname) as [_ Hword].
  pose proof (forall_chars_cleanSvg _ _ Hplain) as Hclean.
  unfold block, lead, generateIconComponent.
  destruct (r_framework r).
  - (* react *)
    unfold generateReactComponent.
    pose proof (plain_react _ Hclean) as HX.
    set (X := replace_first _ _ _) in *. clearbody X.
    exists (" = (props: React.SVGProps<SVGSVGElement>) => (" +:+ NL +:+ "  "
              +:+ X +:+ NL +:+ ");").
    split; [by rewrite !append_assoc|].
    split; [by eexists|intros d|no_bang_segments|kept_segments].
    quiet_segments.
  - (* vue *)
    unfold generateVueComponent.
    pose proof (plain_first "<svg" ("<svg v-bind=" +:+ DQ +:+ "$attrs" +:+ DQ) _
                  ltac:(by intros f) (plain_escapeBackticks _ Hclean)) as HX.
    set (X := replace_first _ _ _) in *. clearbody X.
    exists (" = {" +:+ NL +:+ "  name: " +:+ DQ +:+ nameOf r +:+ DQ +:+ "," +:+ NL
              +:+ "  inheritAttrs: false," +:+ NL +:+ "  template: `"
              +:+ X +:+ "`," +:+ NL +:+ "};").
    split; [by rewrite !append_assoc|].
    split; [by eexists|intros d|no_bang_segments|kept_segments].
    quiet_segments.
  - (* svelte *)
    unfold generateSvelteComponent.
    pose proof (plain_escapeBackticks _ Hclean) as HX1.
    pose proof (plain_first "<svg" ("<svg class=" +:+ DQ +:+ "${className}" +:+ DQ) _
                  ltac:(by intros f) HX1) as HX2.
    set (X2 := replace_first _ _ _) in *. clearbody X2.
    set (X1 := escapeBackticks _) in *. clearbody X1.
    exists (" = `" +:+ X1 +:+ "`;" +:+ NL +:+ "export const " +:+ nameOf r
              +:+ "WithClass = (className: string) => `" +:+ X2 +:+ "`;").
    split; [unfold usageComment; by rewrite !append_assoc|].
    split; [by eexists|intros d|no_bang_segments|kept_segments].
    quiet_segments.
  - (* solid *)
    unfold generateSolidComponent.
    pose proof (plain_first "<svg" "<svg {...props}" _ ltac:(by intros f) Hclean) as HX.
    set (X := replace_first _ _ _) in *. clearbody X.
    exists (" = (props: JSX.IntrinsicElements[" +:+ DQ +:+ "svg" +:+ DQ +:+ "]) => ("
              +:+ NL +:+ "  " +:+ X +:+ NL +:+ ");").
    split; [by rewrite !append_assoc|].
    split; [by eexists|intros d|no_bang_segments|kept_segments].
    quiet_segments.
  - (* svg *)
    unfold generateSvgExport.
    set (X := cleanSvg _) in *. clearbody X.
    exists (" = `" +:+ X +:+ "`;").
    split; [by rewrite !append_assoc|].
    split; [by eexists|intros d|no_bang_segments|kept_segments].
    quiet_segments.
Qed.

End Blocks.

(** ** Reading a managed file *)

Section Reading.
Import JsString Regex Scanner IconsFile Spec.

Lemma quiet_cons r c x d :
  match_here r (String c x +:+ d) = None -> quiet r x d -> quiet r (String c x) d.
Proof. by split. Qed.

Ltac quiet_concrete :=
  repeat (apply quiet_cons; [rewrite match_here_iconPattern; reflexivity|]);
  exact I.

Lemma quiet_header framework d :
  quiet iconPattern (trimEnd (getFileHeader framework)) d.
Proof.
  destruct framework.
  - vm_compute (trimEnd _); quiet_concrete.
  - vm_compute (trimEnd _); quiet_concrete.
  - vm_compute (trimEnd _); quiet_concrete.
  - vm_compute (trimEnd _); quiet_concrete.
  - vm_compute (trimEnd _); quiet_concrete.
Qed.

Lemma lead_block_form r t :
  lead r +:+ String " " t
  = "// " +:+ r_iconId r +:+ NL +:+
    match r_framework r with
    | Memory.svelte => usageComment (nameOf r)
    | _ => EmptyString
    end +:+ "export const " +:+ nameOf r +:+ String " " t.
Proof. unfold lead. by rewrite !append_assoc. Qed.

Lemma lead_nonempty r : lead r <> EmptyString.
Proof. done. Qed.

(** Scanning the blocks finds each of them once, in order. *)
Lemma scan_body rs :
  Forall (fun r => well_formed r = true) rs ->
  forall before,
    f_groups <$> matches_from iconPattern 0 before (body rs +:+ NL)
    = groups_of <$> rs.
Proof.
  induction 1 as [|r rs Hr Hrs IH]; intros before.
  - change (body [] +:+ NL) with (NL +:+ "").
    rewrite (matches_from_quiet iconPattern NL before "") by (by apply quiet_no_slash).
    by rewrite matches_from_0, match_here_iconPattern.
  - destruct (block_shape r Hr) as (tail & Hblock & [[t ->] Hquiet _ _]).
    assert (body (r :: rs) +:+ NL
            = (NL +:+ NL) +:+ lead r +:+ String " " t +:+ (body rs +:+ NL)) as ->.
    { change (body (r :: rs)) with (NL +:+ NL +:+ block r +:+ body rs).
      rewrite Hblock, !append_assoc. reflexivity. }
    rewrite matches_from_quiet by (by apply quiet_no_slash).
    assert (match_here iconPattern (lead r +:+ String " " t +:+ body rs +:+ NL)
            = Some (groups_of r, String " " t +:+ body rs +:+ NL)) as Hhit.
    { rewrite match_here_iconPattern.
      change (String " " t +:+ body rs +:+ NL) with (String " " (t +:+ body rs +:+ NL)).
      rewrite lead_block_form.
      unfold well_formed in Hr.
      apply andb_true_iff in Hr as [[Hid Hname]%andb_true_iff _].
      apply icon_at_block; [done..|].
      destruct (r_framework r); auto. }
    rewrite (matches_from_hit _ _ _ _ _ (lead_nonempty r) Hhit).
    rewrite !fmap_cons. cbn [f_groups]. f_equal.
    rewrite matches_from_quiet by apply Hquiet.
    apply IH.
Qed.

Lemma exec_all_render framework rs :
  Forall (fun r => well_formed r = true) rs ->
  f_groups <$> exec_all iconPattern (render framework rs) = groups_of <$> rs.
Proof.
  intros Hrs. unfold exec_all, render.
  rewrite matches_from_quiet by apply quiet_header.
  by apply scan_body.
Qed.

Lemma blocks_groups content :
  blocks content
  = omap (fun g => match capture 1 g, capture 2 g with
                   | Some id, Some name => Some (id, name)
                   | _, _ => None
                   end) (f_groups <$> exec_all iconPattern content).
Proof.
  unfold blocks. induction (exec_all iconPattern content) as [|f l IH]; [done|].
  rewrite fmap_cons. cbn [omap list_omap]. rewrite IH. done.
Qed.

Lemma blocks_render framework rs :
  Forall (fun r => well_formed r = true) rs ->
  blocks (render framework rs) = entry <$> rs.
Proof.
  intros Hrs. rewrite blocks_groups, exec_all_render by done.
  clear. induction rs as [|r rs IH]; [done|].
  rewrite !fmap_cons. cbn [omap list_omap]. rewrite IH. done.
Qed.

End Reading.

(** ** Parsing a managed file *)

Section Parsing.
Import JsString Regex Scanner IconsFile Spec.

Lemma scanIconComments_groups content icons :
  scanIconComments content icons
  = foldl (fun icons g =>
             match capture 1 g, capture 2 g with
             | Some id, Some name =>
                 if truthy (capture 1 g) && truthy (capture 2 g)
                 then <[id := name]> icons else icons
             | _, _ => icons
             end) icons (f_groups <$> exec_all iconPattern content).
Proof. unfold scanIconComments. by rewrite foldl_fmap. Qed.

Lemma well_formed_truthy r :
  well_formed r = true ->
  truthy (Some (r_iconId r)) = true /\ truthy (Some (nameOf r)) = true.
Proof.
  unfold well_formed. intros [[Hid Hname]%andb_true_iff _]%andb_true_iff.
  split.
  - apply is_icon_id_shape in Hid as (P & N & -> & HP & _).
    by destruct P.
  - by destruct (nameOf r).
Qed.

Lemma scanIconComments_render framework rs icons :
  Forall (fun r => well_formed r = true) rs ->
  scanIconComments (render framework rs) icons = index rs icons.
Proof.
  intros Hrs. rewrite scanIconComments_groups, exec_all_render by done.
  unfold index. revert icons.
  induction Hrs as [|r rs Hr Hrs IH]; intros icons; [done|].
  rewrite fmap_cons. cbn [foldl]. rewrite IH. f_equal.
  destruct (well_formed_truthy r Hr) as [H1 H2].
  unfold groups_of. cbn [capture Nat.eqb]. by rewrite H1, H2.
Qed.

(** A text without an exclamation mark holds no template comment. *)
Lemma match_here_vuePattern s :
  forall_chars not_bang s = true -> match_here vuePattern s = None.
Proof.
  intros Hs. unfold match_here, vuePattern. rewrite rmatch_seq, rmatch_lit.
  destruct (strip_prefix "<!--" s) as [rest|] eqn:E; [|done].
  apply strip_prefix_spec in E. subst s. done.
Qed.

Lemma matches_vuePattern s : forall before,
  forall_chars not_bang s = true -> matches_from vuePattern 0 before s = [].
Proof.
  induction s as [|a s IH]; intros before Hs.
  - by rewrite matches_from_0, match_here_vuePattern.
  - rewrite matches_from_0, match_here_vuePattern by done.
    apply IH. simpl in Hs. by apply andb_true_iff in Hs as [_ ?].
Qed.

Lemma scanVueComments_none content icons :
  forall_chars not_bang content = true -> scanVueComments content icons = icons.
Proof.
  intros H. unfold scanVueComments, exec_all. by rewrite matches_vuePattern.
Qed.

Lemma no_bang_lead r :
  well_formed r = true -> forall_chars not_bang (lead r) = true.
Proof.
  unfold well_formed. intros [[Hid Hname]%andb_true_iff _]%andb_true_iff.
  apply is_icon_id_shape in Hid as (P & N & Hid & _ & HP & _ & HN).
  apply is_identifier_shape in Hname as [_ Hword].
  unfold lead. rewrite Hid.
  assert (forall_chars not_bang (nameOf r) = true) as Hn
      by (by apply (forall_chars_impl _ _ _ word_not_bang)).
  assert (forall_chars not_bang P = true) as HP'
      by (by apply (forall_chars_impl _ _ _ prefix_char_not_bang)).
  assert (forall_chars not_bang N = true) as HN'
      by (by apply (forall_chars_impl _ _ _ name_char_not_bang)).
  destruct (r_framework r); unfold usageComment;
    rewrite !forall_chars_app, ?HP', ?HN', ?Hn; reflexivity.
Qed.

Lemma no_bang_body rs :
  Forall (fun r => well_formed r = true) rs ->
  forall_chars not_bang (body rs) = true.
Proof.
  induction 1 as [|r rs Hr Hrs IH]; [done|].
  destruct (block_shape r Hr) as (tail & Hblock & [_ _ Htail _]).
  change (body (r :: rs)) with (NL +:+ NL +:+ block r +:+ body rs).
  rewrite Hblock, !forall_chars_app, (no_bang_lead r Hr), Htail, IH. done.
Qed.

Lemma no_bang_render framework rs :
  Forall (fun r => well_formed r = true) rs ->
  forall_chars not_bang (render framework rs) = true.
Proof.
  intros Hrs. unfold render.
  rewrite !forall_chars_app, (no_bang_body rs Hrs).
  by destruct framework.
Qed.

(** Parsing a managed file returns the index of its blocks. *)
Lemma parseContent_render framework rs :
  Forall (fun r => well_formed r = true) rs ->
  parseContent (render framework rs) = index rs ∅.
Proof.
  intros Hrs. unfold parseContent.
  rewrite scanVueComments_none by (by apply no_bang_render).
  by apply scanIconComments_render.
Qed.

Lemma index_lookup_other rs : forall icons id,
  id ∉ (r_iconId <$> rs) -> index rs icons !! id = icons !! id.
Proof.
  induction rs as [|r rs IH]; intros icons id Hid; [done|].
  rewrite fmap_cons, not_elem_of_cons in Hid. destruct Hid as [Hne Hid].
  unfold index. cbn [foldl]. fold (index rs (<[r_iconId r := nameOf r]> icons)).
  rewrite IH by done. by rewrite lookup_insert_ne.
Qed.

Lemma index_lookup rs : forall icons r,
  NoDup (r_iconId <$> rs) -> r ∈ rs ->
  index rs icons !! r_iconId r = Some (nameOf r).
Proof.
  induction rs as [|r0 rs IH]; intros icons r Hnd Hin; [by apply elem_of_nil in Hin|].
  rewrite fmap_cons in Hnd. apply NoDup_cons in Hnd as [Hfresh Hnd].
  unfold index. cbn [foldl]. fold (index rs (<[r_iconId r0 := nameOf r0]> icons)).
  apply elem_of_cons in Hin as [->|Hin].
  - rewrite index_lookup_other by done. by rewrite lookup_insert_eq.
  - by apply IH.
Qed.

Lemma index_lookup_is_Some rs id :
  id ∈ (r_iconId <$> rs) -> is_Some (index rs ∅ !! id).
Proof.
  revert id. generalize (∅ : gmap string string).
  induction rs as [|r rs IH] using rev_ind; intros icons id Hin.
  - by apply elem_of_nil in Hin.
  - unfold index. rewrite foldl_app. cbn [foldl]. fold (index rs icons).
    rewrite fmap_app, elem_of_app in Hin.
    destruct (decide (id = r_iconId r)) as [->|Hne].
    + rewrite lookup_insert_eq. by eexists.
    + rewrite lookup_insert_ne by done. apply IH.
      destruct Hin as [Hin|Hin]; [done|].
      apply list_elem_of_singleton in Hin. done.
Qed.

End Parsing.

(** ** Appending to a managed file *)

Section Appending.
Import JsString Regex Scanner Js IconsFile Spec.
Context `{NodePath}.

Lemma body_app rs rs' : body (rs ++ rs') = body rs +:+ body rs'.
Proof.
  induction rs as [|r rs IH]; [done|].
  change (body ((r :: rs) ++ rs')) with (NL +:+ NL +:+ block r +:+ body (rs ++ rs')).
  change (body (r :: rs)) with (NL +:+ NL +:+ block r +:+ body rs).
  by rewrite IH, !append_assoc.
Qed.

Lemma kept_block r : well_formed r = true -> kept (block r).
Proof.
  intros Hr. destruct (block_shape r Hr) as (tail & -> & [_ _ _ Hkept]).
  by apply kept_app.
Qed.

Lemma kept_body rs :
  Forall (fun r => well_formed r = true) rs -> rs <> [] -> kept (body rs).
Proof.
  induction 1 as [|r rs Hr Hrs IH]; [done|]. intros _.
  change (body (r :: rs)) with (NL +:+ NL +:+ block r +:+ body rs).
  do 2 apply kept_app.
  destruct rs as [|r' rs].
  - change (body []) with "". rewrite append_empty_r. by apply kept_block.
  - apply kept_app. by apply IH.
Qed.

Lemma trimEnd_kept a : kept a -> trimEnd (a +:+ NL) = a.
Proof.
  intros [Ha Hne]. rewrite trimEnd_app. by change (trimEnd NL) with "".
Qed.

Lemma kept_header framework : kept (trimEnd (getFileHeader framework)).
Proof. by destruct framework. Qed.

Lemma trimEnd_render framework rs :
  Forall (fun r => well_formed r = true) rs -> rs <> [] ->
  trimEnd (render framework rs) = trimEnd (getFileHeader framework) +:+ body rs.
Proof.
  intros Hrs Hne. unfold render. rewrite <- append_assoc.
  apply trimEnd_kept. apply kept_app. by apply kept_body.
Qed.

(** The content that [addIconToFile] writes for a new file, and for a
    managed file. *)
Lemma append_to_header r :
  trimEnd (getFileHeader (r_framework r)) +:+ NL +:+ NL +:+ block r +:+ NL
  = render (r_framework r) [r].
Proof.
  unfold render. change (body [r]) with (NL +:+ NL +:+ block r +:+ "").
  by rewrite !append_assoc.
Qed.

Lemma append_to_render framework rs r :
  Forall (fun r => well_formed r = true) rs -> rs <> [] ->
  trimEnd (render framework rs) +:+ NL +:+ NL +:+ block r +:+ NL
  = render framework (rs ++ [r]).
Proof.
  intros Hrs Hne. rewrite trimEnd_render by done.
  unfold render. rewrite body_app.
  change (body [r]) with (NL +:+ NL +:+ block r +:+ "").
  by rewrite !append_assoc.
Qed.

(** [parseExistingIcons] never throws and changes nothing. *)
Lemma parseExistingIcons_spec filePath (w : fs) :
  parseExistingIcons filePath w = (Ok (iconsAt filePath w), w).
Proof.
  unfold iconsAt, parseExistingIcons, bind, try_catch, existsSync, readFileSync, ret.
  destruct (w !! filePath) as [[content|]|] eqn:E; simpl; rewrite ?E; try done.
  all: try (rewrite bool_decide_eq_true_2 by (by eexists); simpl; by rewrite ?E).
  all: try (rewrite bool_decide_eq_false_2; [done|]; by intros [? ?]).
Qed.

Lemma addIconToFile_existing filePath iconId svg framework customName (w : fs) name :
  iconsAt filePath w !! iconId = Some name ->
  addIconToFile filePath iconId svg framework customName w
  = (Ok {| componentName := name; alreadyExists := true; existingName := Some name |}, w).
Proof.
  intros Hfound. unfold addIconToFile. unfold bind at 1.
  rewrite parseExistingIcons_spec. by rewrite Hfound.
Qed.

Lemma addIconToFile_fresh filePath iconId svg framework customName (w w' : fs) res :
  iconsAt filePath w !! iconId = None ->
  addIconToFile filePath iconId svg framework customName w = (Ok res, w') ->
  let name := or_string customName (iconIdToComponentName iconId) in
  let old := match w !! filePath with
             | Some (File content) => content
             | _ => getFileHeader framework
             end in
  res = {| componentName := name; alreadyExists := false; existingName := None |}
  /\ w' !! filePath
     = Some (File (trimEnd old +:+ NL +:+ NL
                     +:+ generateIconComponent name svg iconId framework +:+ NL)).
Proof.
  intros Hnone. unfold addIconToFile. unfold bind at 1.
  rewrite parseExistingIcons_spec. rewrite Hnone.
  unfold bind, existsSync, mkdirSync, readFileSync, writeFileSync, ret.
  simpl. intros Hrun.
  unfold fs in *.
  destruct (w !! dirname filePath) as [[d|]|] eqn:Ed; simpl in Hrun.
  - destruct (w !! filePath) as [[c|]|] eqn:Ef; simpl in Hrun;
      rewrite ?Ef, ?Ed in Hrun; simplify_eq/=.
  - destruct (w !! filePath) as [[c|]|] eqn:Ef; simpl in Hrun;
      rewrite ?Ef, ?Ed in Hrun; simplify_eq/=; (split; [done|]);
      by rewrite lookup_insert_eq.
  - rewrite Ed in Hrun. simpl in Hrun.
    destruct (decide (dirname filePath = filePath)) as [Heq|Hneq].
    + rewrite Heq in Hrun. rewrite lookup_insert_eq in Hrun. simpl in Hrun.
      rewrite lookup_insert_eq in Hrun. simplify_eq/=.
    + rewrite lookup_insert_ne in Hrun by done.
      destruct (w !! filePath) as [[c|]|] eqn:Ef; simpl in Hrun;
        repeat first [ rewrite lookup_insert_ne in Hrun by done
                     | rewrite Ef in Hrun
                     | rewrite lookup_insert_eq in Hrun
                     | progress simpl in Hrun ];
        simplify_eq/=; (split; [done|]); by rewrite lookup_insert_eq.
Qed.

End Appending.

(** ** One call on a managed file *)

Section ManagedFile.
Import JsString Regex Scanner Js IconsFile Spec.
Context `{NodePath}.

Lemma iconsAt_stores filePath (w : fs) rs :
  stores filePath w rs -> iconsAt filePath w = index rs ∅.
Proof.
  intros (Hfile & Hrs & _). unfold iconsAt. destruct rs as [|r rs].
  - by rewrite Hfile.
  - destruct Hfile as [framework ->]. by apply parseContent_render.
Qed.

(** A call that returns has found the identifier, or it has not. *)
Lemma addIconToFile_cases filePath iconId svg framework customName (w w' : fs) res :
  addIconToFile filePath iconId svg framework customName w = (Ok res, w') ->
  (iconsAt filePath w !! iconId = Some (componentName res)
   /\ res = {| componentName := componentName res; alreadyExists := true;
               existingName := Some (componentName res) |}
   /\ w' = w)
  \/ (iconsAt filePath w !! iconId = None /\ alreadyExists res = false).
Proof.
  intros Hrun. destruct (iconsAt filePath w !! iconId) as [name|] eqn:Hfound.
  - left. rewrite (addIconToFile_existing _ _ _ _ _ _ _ Hfound) in Hrun.
    by simplify_eq/=.
  - right. split; [done|].
    by destruct (addIconToFile_fresh _ _ _ _ _ _ _ _ Hfound Hrun) as [-> _].
Qed.

Lemma stores_snoc filePath (w : fs) framework rs r :
  w !! filePath = Some (File (render framework (rs ++ [r]))) ->
  Forall (fun r => well_formed r = true) rs ->
  NoDup (r_iconId <$> rs) ->
  well_formed r = true ->
  r_iconId r ∉ (r_iconId <$> rs) ->
  stores filePath w (rs ++ [r]).
Proof.
  intros Hfile Hrs Hnd Hr Hfresh. split; [|split].
  - destruct (rs ++ [r]) eqn:E; [by destruct rs|]. by exists framework.
  - apply Forall_app. by repeat constructor.
  - rewrite fmap_app. apply NoDup_app. split; [done|]. split.
    + intros id Hin Hin'. apply list_elem_of_singleton in Hin'. by subst.
    + apply NoDup_singleton.
Qed.

(** One call for a well-formed request on a managed file: the
    identifier is among the blocks and nothing changes, or it is not
    and the block of the request is appended. *)
Lemma addIconToFile_step filePath r (w w' : fs) rs res :
  stores filePath w rs ->
  well_formed r = true ->
  addIconToFile filePath (r_iconId r) (r_svg r) (r_framework r) (r_customName r) w
  = (Ok res, w') ->
  (alreadyExists res = true /\ w' = w
   /\ iconsAt filePath w !! r_iconId r = Some (componentName res))
  \/ (res = {| componentName := nameOf r; alreadyExists := false;
               existingName := None |}
      /\ (r_iconId r ∉ (r_iconId <$> rs))
      /\ stores filePath w' (rs ++ [r])).
Proof.
  intros Hstores Hr Hrun.
  destruct (addIconToFile_cases _ _ _ _ _ _ _ _ Hrun) as [(Hfound & Hres & ->)|[Hnone Hflag]].
  - left. by rewrite Hres.
  - right. destruct (addIconToFile_fresh _ _ _ _ _ _ _ _ Hnone Hrun) as [Hres Hfile].
    fold (nameOf r) in Hres, Hfile. fold (block r) in Hfile.
    assert (r_iconId r ∉ (r_iconId <$> rs)) as Hfresh.
    { intros Hin. apply index_lookup_is_Some in Hin as [name Hname].
      rewrite (iconsAt_stores _ _ _ Hstores) in Hnone. congruence. }
    split; [done|]. split; [done|].
    destruct Hstores as (Hold & Hrs & Hnd). destruct rs as [|r0 rs].
    + rewrite Hold, append_to_header in Hfile. by eapply (stores_snoc _ _ _ []).
    + destruct Hold as [framework Hold].
      rewrite Hold, append_to_render in Hfile by done.
      by eapply stores_snoc.
Qed.

Lemma iconsAt_snoc filePath (w : fs) rs r :
  stores filePath w (rs ++ [r]) ->
  iconsAt filePath w !! r_iconId r = Some (nameOf r).
Proof.
  intros Hstores. rewrite (iconsAt_stores _ _ _ Hstores).
  destruct Hstores as (_ & _ & Hnd).
  apply index_lookup; [done|]. apply elem_of_app. right. by apply list_elem_of_singleton.
Qed.

(** ** A run of calls *)

Lemma addAll_stores filePath : forall requests (w w' : fs) rs results,
  stores filePath w rs ->
  Forall (fun r => well_formed r = true) requests ->
  addAll filePath requests w = Some (results, w') ->
  exists added,
    stores filePath w' (rs ++ added)
    /\ entry <$> added = appended requests results.
Proof.
  induction requests as [|r requests IH]; intros w w' rs results Hstores Hwf Hrun.
  - simpl in Hrun. simplify_eq. exists []. by rewrite app_nil_r.
  - apply Forall_cons in Hwf as [Hr Hwf]. cbn [addAll] in Hrun.
    destruct (addIconToFile _ _ _ _ _ w) as [[res|e] w1] eqn:Hcall; [|done].
    destruct (addAll filePath requests w1) as [[results1 w2]|] eqn:Hrest; [|done].
    simplify_eq.
    destruct (addIconToFile_step _ _ _ _ _ _ Hstores Hr Hcall)
      as [(Hflag & -> & _)|(-> & _ & Hstores1)].
    + destruct (IH _ _ _ _ Hstores Hwf Hrest) as (added & Hfinal & Hadded).
      exists added. split; [done|].
      unfold appended. cbn [zip zip_with omap list_omap]. rewrite Hflag. done.
    + destruct (IH _ _ _ _ Hstores1 Hwf Hrest) as (added & Hfinal & Hadded).
      exists (r :: added). rewrite <- app_assoc in Hfinal. split; [done|].
      unfold appended. cbn [zip zip_with omap list_omap alreadyExists componentName].
      rewrite fmap_cons. f_equal. done.
Qed.

End ManagedFile.

(** ** The icons file: idempotency, re-parsing, uniqueness *)

Section IconsFileContract.
Import JsString Regex Scanner Js IconsFile Spec.

(** C1, as stated, fails for the identifier [brand:c++]: the identifier
    has a prefix and a name, but [+] is outside the characters that the
    identifier comment pattern reads, so the second call does not find
    the block of the first.  It answers [alreadyExists = false] again
    and appends a second block: the file grows. *)
Lemma addIconToFile_unread_identifier_appends_again :
  let r := request "brand:c++" in
  let res := {| componentName := "C++Icon"; alreadyExists := false;
                existingName := None |} in
  addIconToFile iconsPath "brand:c++" homeSvg Memory.react None project
  = (Ok res, synced [r])
  /\ addIconToFile iconsPath "brand:c++" homeSvg Memory.react None (synced [r])
     = (Ok res, synced [r; r])
  /\ synced [r; r] !! iconsPath <> synced [r] !! iconsPath.
Proof.
  split; [|split].
  - vm_compute. reflexivity.
  - vm_compute. reflexivity.
  - vm_compute. discriminate.
Qed.

(** C1, amended: when the first call returns, and either it found the
    identifier, or the file was absent or a managed file and the request
    is well-formed, then the second call with the same arguments returns
    [alreadyExists = true] with the component name of the first call and
    leaves the file system as the first call left it. *)
Theorem addIconToFile_idempotent_on_managed_file `{NodePath}
  filePath r (w w1 : fs) res1 :
  addIconToFile filePath (r_iconId r) (r_svg r) (r_framework r) (r_customName r) w
  = (Ok res1, w1) ->
  (alreadyExists res1 = false -> managed filePath w /\ well_formed r = true) ->
  addIconToFile filePath (r_iconId r) (r_svg r) (r_framework r) (r_customName r) w1
  = (Ok {| componentName := componentName res1; alreadyExists := true;
           existingName := Some (componentName res1) |}, w1).
Proof.
  intros Hfirst Hmanaged.
  destruct (addIconToFile_cases _ _ _ _ _ _ _ _ Hfirst) as [(Hfound & _ & ->)|[_ Hflag]].
  - by apply addIconToFile_existing.
  - destruct (Hmanaged Hflag) as [[rs Hstores] Hr].
    destruct (addIconToFile_step _ _ _ _ _ _ Hstores Hr Hfirst)
      as [(Htrue & _)|(-> & _ & Hstores1)]; [congruence|].
    apply addIconToFile_existing. by eapply iconsAt_snoc.
Qed.

Lemma addIconToFile_idempotent_on_managed_file_witness :
  addIconToFile iconsPath "lucide:home" homeSvg Memory.react None
    (synced [request "lucide:home"])
  = (Ok {| componentName := "HomeIcon"; alreadyExists := true;
           existingName := Some "HomeIcon" |}, synced [request "lucide:home"]).
Proof.
  apply (addIconToFile_idempotent_on_managed_file iconsPath (request "lucide:home")
           project (synced [request "lucide:home"])
           {| componentName := "HomeIcon"; alreadyExists := false;
              existingName := None |}).
  - vm_compute. reflexivity.
  - intros _. split; [|reflexivity].
    exists []. split; [reflexivity|split; constructor].
Defined.

(** C2, as stated, fails for the identifier [brand:c++]: the call on the
    absent file returns [alreadyExists = false] and writes the block,
    and parsing the file afterwards yields the empty mapping. *)
Lemma parseExistingIcons_misses_unread_identifier :
  addIconToFile iconsPath "brand:c++" homeSvg Memory.react None project
  = (Ok {| componentName := "C++Icon"; alreadyExists := false;
           existingName := None |}, synced [request "brand:c++"])
  /\ parseExistingIcons iconsPath (synced [request "brand:c++"])
     = (Ok ∅, synced [request "brand:c++"]).
Proof. split; vm_compute; reflexivity. Qed.

(** C2, amended: after a call for a well-formed request on an absent or
    managed file that returns [alreadyExists = false],
    [parseExistingIcons] on the same path returns a mapping that maps
    the identifier to the component name the call returned. *)
Theorem parseExistingIcons_after_addIconToFile `{NodePath}
  filePath r (w w' : fs) res :
  managed filePath w ->
  well_formed r = true ->
  addIconToFile filePath (r_iconId r) (r_svg r) (r_framework r) (r_customName r) w
  = (Ok res, w') ->
  alreadyExists res = false ->
  exists icons,
    parseExistingIcons filePath w' = (Ok icons, w')
    /\ icons !! r_iconId r = Some (componentName res).
Proof.
  intros [rs Hstores] Hr Hrun Hflag.
  exists (iconsAt filePath w'). split; [apply parseExistingIcons_spec|].
  destruct (addIconToFile_step _ _ _ _ _ _ Hstores Hr Hrun)
    as [(Htrue & _)|(-> & _ & Hstores1)]; [congruence|].
  by eapply iconsAt_snoc.
Qed.

Lemma parseExistingIcons_after_addIconToFile_witness :
  exists icons,
    parseExistingIcons iconsPath (synced [request "lucide:home"; request "mdi:star"])
    = (Ok icons, synced [request "lucide:home"; request "mdi:star"])
    /\ icons !! "mdi:star" = Some "StarIcon".
Proof.
  apply (parseExistingIcons_after_addIconToFile iconsPath (request "mdi:star")
           (synced [request "lucide:home"])
           (synced [request "lucide:home"; request "mdi:star"])
           {| componentName := "StarIcon"; alreadyExists := false;
              existingName := None |}).
  - exists [request "lucide:home"]. split; [|split].
    + exists Memory.react. reflexivity.
    + repeat constructor.
    + vm_compute. repeat constructor. apply not_elem_of_nil.
  - reflexivity.
  - vm_compute. reflexivity.
  - reflexivity.
Defined.

(** C3, as stated, fails for the component names: [lucide:home] and
    [mdi:home] are different identifiers with the same derived name, so
    two calls from an absent file leave two blocks that both declare
    [HomeIcon]. *)
Lemma addAll_repeats_component_name :
  let requests := [request "lucide:home"; request "mdi:home"] in
  let res := {| componentName := "HomeIcon"; alreadyExists := false;
                existingName := None |} in
  addAll iconsPath requests project = Some ([res; res], synced requests)
  /\ synced requests !! iconsPath = Some (File (render Memory.react requests))
  /\ blocks (render Memory.react requests)
     = [("lucide:home", "HomeIcon"); ("mdi:home", "HomeIcon")].
Proof. repeat split; vm_compute; reflexivity. Qed.

(** C3, amended: after a run of calls for well-formed requests that
    starts from an absent file and in which every call returns, the file
    holds exactly one block for every call that returned
    [alreadyExists = false], in call order, with the identifier of the
    request and the returned component name; and no two blocks carry the
    same identifier. *)
Theorem addAll_blocks_have_unique_ids `{NodePath}
  filePath requests (w w' : fs) results :
  w !! filePath = None ->
  Forall (fun r => well_formed r = true) requests ->
  requests <> [] ->
  addAll filePath requests w = Some (results, w') ->
  exists content,
    w' !! filePath = Some (File content)
    /\ blocks content = appended requests results
    /\ NoDup (fst <$> blocks content).
Proof.
  intros Habsent Hwf Hne Hrun.
  assert (stores filePath w []) as Hstores by (repeat split; [done|constructor..]).
  destruct (addAll_stores _ _ _ _ _ _ Hstores Hwf Hrun) as (added & Hfinal & Hadded).
  rewrite app_nil_l in Hfinal. destruct Hfinal as (Hfile & Hrs & Hnd).
  destruct added as [|r0 added].
  - exfalso. destruct requests as [|r requests]; [done|].
    cbn [addAll] in Hrun.
    destruct (addIconToFile _ _ _ _ _ w) as [[res|e] w1] eqn:Hcall; [|done].
    destruct (addAll filePath requests w1) as [[results1 w2]|] eqn:Hrest; [|done].
    simplify_eq.
    destruct (addIconToFile_cases _ _ _ _ _ _ _ _ Hcall) as [(Hfound & _)|[_ Hflag]].
    + unfold iconsAt in Hfound. by rewrite Habsent in Hfound.
    + unfold appended in Hadded. cbn [zip zip_with omap list_omap] in Hadded.
      by rewrite Hflag in Hadded.
  - destruct Hfile as [framework Hfile]. exists (render framework (r0 :: added)).
    split; [done|]. rewrite blocks_render by done. split; [done|].
    by rewrite <- list_fmap_compose.
Qed.

Lemma addAll_blocks_have_unique_ids_witness :
  exists content,
    synced [request "lucide:home"; request "mdi:star"] !! iconsPath
    = Some (File content)
    /\ blocks content
       = appended [request "lucide:home"; request "mdi:star"; request "lucide:home"]
           [ {| componentName := "HomeIcon"; alreadyExists := false;
                existingName := None |};
             {| componentName := "StarIcon"; alreadyExists := false;
                existingName := None |};
             {| componentName := "HomeIcon"; alreadyExists := true;
                existingName := Some "HomeIcon" |} ]
    /\ NoDup (fst <$> blocks content).
Proof.
  apply (addAll_blocks_have_unique_ids iconsPath
           [request "lucide:home"; request "mdi:star"; request "lucide:home"]
           project).
  - reflexivity.
  - repeat constructor.
  - discriminate.
  - vm_compute. reflexivity.
Defined.

End IconsFileContract.

(** ** The preference store: reading, clearing, failures *)

Section StoreAccess.
Import Js Memory Spec.

Ltac run_store :=
  unfold getRecentIcons, clearPreferences, getPreferredCollections,
    trackUsage_attempt, loadPreferences, savePreferences, parse,
    get_property, set_property, existsSync, mkdirSync, readFileSync, writeFileSync,
    renameSync, now, console_error, next_fault, bind, try_catch, ret, throw,
    set_file, file_at, log, set_calls, set_ticks, set_prefs_file, set_temp_file,
    set_dir_present, set_default_collections, data_of, deref, stringify,
    DEFAULT_PREFERENCES in *;
  simpl in *.

(** X1.  [loadPreferences] returns under every pattern of faults and
    changes no file and no shared object.  It returns the two fields of
    the document, each replaced by its empty default when it is
    missing, when the file holds a document and can be read; in every
    other case (no file, a failed read, text that does not parse) it
    returns the shared default collections and an empty history. *)
Theorem loadPreferences_reads_or_defaults (w : world) :
  exists o w',
    loadPreferences w = (Ok o, w')
    /\ dir_present w' = dir_present w
    /\ prefs_file w' = prefs_file w
    /\ temp_file w' = temp_file w
    /\ default_collections w' = default_collections w
    /\ o = match prefs_file w, faults w (calls w) with
           | Some (Document cs h), NoFault =>
               {| o_collections := Own (default ∅ cs); o_history := default [] h |}
           | _, _ => {| o_collections := DefaultCollections; o_history := [] |}
           end.
Proof.
  destruct w as [d pf tf dc f c cl t tr]. run_store.
  destruct pf as [[|cs h]|]; simpl; [| |by eexists _, _].
  - destruct (f c); simpl; by eexists _, _.
  - destruct (f c); simpl; by eexists _, _.
Qed.

(** X2.  When [savePreferences] returns, the preferences file holds the
    whole document, the temporary file is gone and the directory
    exists.  When it throws, the preferences file is as it was, or holds
    the whole document (written by the fallback), or is torn, and torn
    only when one of the system calls of this very call tore a write. *)
Theorem savePreferences_installs_or_throws prefs (w w' : world) r :
  savePreferences prefs w = (r, w') ->
  let doc := stringify (data_of prefs w) in
  match r with
  | Ok _ =>
      prefs_file w' = Some doc /\ temp_file w' = None /\ dir_present w' = true
  | Thrown _ =>
      prefs_file w' = prefs_file w
      \/ prefs_file w' = Some doc
      \/ (prefs_file w' = Some Unparsable
          /\ exists n, calls w <= n < calls w' /\ faults w n = FailTorn)
  end.
Proof.
  destruct w as [[] pf tf dc f c cl t tr]; run_store; intros Hrun.
  all: repeat (case_match; simplify_eq/=).
  all: simplify_eq/=.
  all: try (split; [reflexivity|split; reflexivity]).
  all: try (left; reflexivity).
  all: try (right; left; reflexivity).
  all: right; right; split; [reflexivity|].
  all: first [ exists c; split; [lia|assumption]
             | exists (S c); split; [lia|assumption]
             | exists (S (S c)); split; [lia|assumption]
             | exists (S (S (S c))); split; [lia|assumption] ].
Qed.

Lemma loadPreferences_document (w : world) cs h :
  prefs_file w = Some (Document cs h) ->
  faults w (calls w) = NoFault ->
  exists w',
    loadPreferences w
    = (Ok {| o_collections := Own (default ∅ cs); o_history := default [] h |}, w')
    /\ prefs_file w' = prefs_file w.
Proof.
  destruct w as [d pf tf dc f c cl t tr]. run_store. intros -> Hf. simpl.
  rewrite Hf. simpl. by eexists.
Qed.

(** X3.  Saving and loading round-trip: after a [savePreferences] that
    returns, a [loadPreferences] whose read succeeds returns the saved
    collections (as an object of its own) and the saved history. *)
Theorem loadPreferences_after_savePreferences prefs (w w' : world) :
  savePreferences prefs w = (Ok tt, w') ->
  faults w' (calls w') = NoFault ->
  exists w'',
    loadPreferences w'
    = (Ok {| o_collections := Own (deref (o_collections prefs) w);
             o_history := o_history prefs |}, w'').
Proof.
  intros Hsave Hread.
  apply savePreferences_spec in Hsave as (_ & _ & _ & new & _ & _ & Hfile & _).
  destruct (loadPreferences_document w' _ _ Hfile Hread) as (w'' & Hload & _).
  by exists w''.
Qed.

Lemma slice_upto_prefix {A} limit (l : list A) : slice_upto limit l `prefix_of` l.
Proof. unfold slice_upto. destruct (limit <? 0)%Z; apply prefix_take. Qed.

Lemma slice_upto_length {A} limit (l : list A) :
  length (slice_upto limit l)
  = if (limit <? 0)%Z then length l - Z.to_nat (- limit)
    else min (Z.to_nat limit) (length l).
Proof.
  unfold slice_upto. destruct (limit <? 0)%Z; rewrite length_take; lia.
Qed.

(** X4.  [getRecentIcons] never throws and changes no file; it returns
    a prefix of the loaded history: its first [limit] entries (20 when
    no limit is given), or all but the last [-limit] entries for a
    negative [limit]. *)
Theorem getRecentIcons_is_prefix limit (w : world) :
  exists recent w',
    getRecentIcons limit w = (Ok recent, w')
    /\ prefs_file w' = prefs_file w
    /\ recent `prefix_of` history (loaded w)
    /\ length recent
       = let n := default 20%Z limit in
         if (n <? 0)%Z then length (history (loaded w)) - Z.to_nat (- n)
         else min (Z.to_nat n) (length (history (loaded w))).
Proof.
  destruct (loadPreferences_spec w) as (o & w' & new & Hload & Hpf & _).
  exists (slice_upto (default 20%Z limit) (o_history o)), w'.
  unfold getRecentIcons, bind, ret, loaded. rewrite Hload. simpl.
  split; [done|]. split; [done|]. split; [apply slice_upto_prefix|apply slice_upto_length].
Qed.

(** X5.  After a read-modify-write cycle of [trackUsage] that succeeds
    for an identifier, [getRecentIcons] with a limit of at least 1 (or
    none) returns that identifier first, with the time of the cycle,
    and nowhere else. *)
Theorem getRecentIcons_after_trackUsage prefix id limit (w w1 : world) f :
  id <> EmptyString ->
  trackUsage_attempt prefix (Some id) w = (Ok f, w1) ->
  faults w1 (calls w1) = NoFault ->
  (1 <= default 20 limit)%Z ->
  exists rest w2,
    getRecentIcons limit w1
    = (Ok ({| iconId := id; timestamp := clock w (ticks w) |} :: rest), w2)
    /\ id ∉ (iconId <$> rest).
Proof.
  intros Hid Hrun Hread Hlimit.
  destruct (attempt_spec _ _ _ _ _ Hrun) as (o & w0 & _ & new & _ & _ & Hout).
  simpl in Hout. destruct Hout as (_ & Hfile & _).
  destruct (loadPreferences_document w1 _ _ Hfile Hread) as (w2 & Hload & _).
  unfold getRecentIcons, bind, ret. rewrite Hload. simpl.
  destruct id as [|c s]; [done|]. rewrite recordHistory_head.
  unfold slice_upto. destruct (Z.ltb_spec (default 20%Z limit) 0); [lia|].
  destruct (Z.to_nat (default 20%Z limit)) as [|n] eqn:Hn; [lia|].
  rewrite firstn_cons. eexists _, w2. split; [reflexivity|].
  intros Hin. eapply (recordHistory_tail_fresh (String c s) _ 49).
  eapply sublist_subseteq; [|exact Hin]. apply fmap_sublist, sublist_take.
Qed.

(** X7.  When [clearPreferences] returns, the file holds an empty
    history and, as collections, the current properties of the shared
    object [DEFAULT_PREFERENCES.collections]. *)
Theorem clearPreferences_saves_shared_defaults (w w' : world) :
  clearPreferences w = (Ok tt, w') ->
  saved w' = Some {| collections := default_collections w; history := [] |}.
Proof.
  unfold clearPreferences. intros Hsave.
  apply savePreferences_spec in Hsave as (_ & _ & _ & new & _ & _ & Hfile & _).
  unfold saved. by rewrite Hfile.
Qed.


End StoreAccess.

Section StoreFailures.
Import Js Memory Spec.

Ltac run_store :=
  unfold getRecentIcons, clearPreferences, getPreferredCollections,
    trackUsage_attempt, loadPreferences, savePreferences, parse,
    get_property, set_property, existsSync, mkdirSync, readFileSync, writeFileSync,
    renameSync, now, console_error, next_fault, bind, try_catch, ret, throw,
    set_file, file_at, log, set_calls, set_ticks, set_prefs_file, set_temp_file,
    set_dir_present, set_default_collections, data_of, deref, stringify,
    DEFAULT_PREFERENCES in *;
  simpl in *.




End StoreFailures.


(** ** Sorting: order and stability *)

Section Sorting.
Import Js Spec.
Context {A : Type} (compare : A -> A -> Z) (key : A -> Z).
Hypothesis compare_key : forall a b, (compare a b <= 0)%Z <-> (key a <= key b)%Z.

Lemma ordered_nil (R : A -> A -> Prop) : ordered R [].
Proof. intros i j a b _ Hi. by rewrite lookup_nil in Hi. Qed.

Lemma ordered_cons (R : A -> A -> Prop) x l :
  ordered R (x :: l) <-> Forall (R x) l /\ ordered R l.
Proof.
  split.
  - intros Hord. split.
    + apply Forall_lookup. intros j b Hb. apply (Hord 0 (S j)); [lia|done..].
    + intros i j a b Hij Ha Hb. apply (Hord (S i) (S j)); [lia|done..].
  - intros [Hx Hl] i j a b Hij Ha Hb. destruct j as [|j]; [lia|].
    destruct i as [|i]; simpl in *.
    + simplify_eq. eapply Forall_lookup_1; eauto.
    + apply (Hl i j); [lia|done..].
Qed.

Lemma insert_sorted_ordered x l :
  ordered (fun a b => (key a <= key b)%Z) l ->
  ordered (fun a b => (key a <= key b)%Z) (insert_sorted compare x l).
Proof.
  induction l as [|y l IH]; simpl; intros Hl.
  - apply ordered_cons. split; [constructor|apply ordered_nil].
  - apply ordered_cons in Hl as [Hy Hl].
    destruct (Z.leb_spec (compare x y) 0) as [Hle|Hgt].
    + apply compare_key in Hle. apply ordered_cons. split.
      * constructor; [done|]. eapply Forall_impl; [exact Hy|]. simpl. lia.
      * apply ordered_cons. done.
    + assert (key y < key x)%Z as Hlt.
      { destruct (Z.le_gt_cases (key x) (key y)) as [Hc|Hc]; [|lia].
        apply compare_key in Hc. lia. }
      apply ordered_cons. split; [|by apply IH].
      rewrite (insert_sorted_perm compare x l). constructor; [lia|done].
Qed.

Lemma insert_sorted_filter k x l :
  filter (fun a => key a = k) (insert_sorted compare x l)
  = filter (fun a => key a = k) (x :: l).
Proof.
  induction l as [|y l IH]; simpl; [done|].
  destruct (Z.leb_spec (compare x y) 0) as [Hle|Hgt]; [done|].
  assert (key y < key x)%Z as Hlt.
  { destruct (Z.le_gt_cases (key x) (key y)) as [Hc|Hc]; [|lia].
    apply compare_key in Hc. lia. }
  rewrite filter_cons, IH, !filter_cons.
  repeat case_decide; try done; lia.
Qed.

Lemma sort_stably_sorted l : stably_sorted key l (sort compare l).
Proof.
  split.
  - induction l as [|x l IH]; simpl; [apply ordered_nil|].
    by apply insert_sorted_ordered.
  - intros k. induction l as [|x l IH]; simpl; [done|].
    fold (sort compare l). rewrite insert_sorted_filter, !filter_cons, IH. done.
Qed.

End Sorting.

Section Rank.
Import Js IconUtils Spec.

Lemma indexOf_bounds x l : (-1 <= indexOf x l < Z.of_nat (length l))%Z.
Proof.
  induction l as [|y l IH]; simpl; [lia|].
  destruct (String.eqb x y); [lia|].
  destruct (Z.ltb_spec (indexOf x l) 0); lia.
Qed.

Lemma byPreference_rank preferred a b :
  (byPreference preferred a b <= 0)%Z <-> (rank preferred a <= rank preferred b)%Z.
Proof.
  unfold byPreference, rank.
  pose proof (indexOf_bounds (getIconPrefix a) preferred).
  pose proof (indexOf_bounds (getIconPrefix b) preferred).
  repeat match goal with
         | |- context [(?x <=? ?y)%Z] => destruct (Z.leb_spec x y)
         | |- context [(?x <? ?y)%Z] => destruct (Z.ltb_spec x y)
         end; simpl; lia.
Qed.

Lemma byCount_key a b :
  (Memory.byCount a b <= 0)%Z
  <-> (- Memory.count (snd a) <= - Memory.count (snd b))%Z.
Proof. unfold Memory.byCount. lia. Qed.

Lemma sorted_by_rank preferred l :
  stably_sorted (rank preferred) l (sort (byPreference preferred) l).
Proof. apply sort_stably_sorted, byPreference_rank. Qed.

End Rank.


(** ** Ranking: the order of the sorted icons *)

Section RankingOrder.
Import Js IconUtils Spec.

Lemma sortByPreferredCollections_result (h : heap) icons l style learnedPreferences learned :
  h !! icons = Some l ->
  match learnedPreferences with
  | Some p => h !! p = Some learned
  | None => learned = []
  end ->
  exists r h',
    sortByPreferredCollections icons style learnedPreferences h = Some (r, h')
    /\ h' !! r
       = Some (sort (byPreference (dedupe (learned ++ stylePreferred style))) l).
Proof.
  intros Hl Hlearned. unfold sortByPreferredCollections.
  assert (match learnedPreferences with Some p => h !! p | None => Some [] end
          = Some learned) as ->.
  { destruct learnedPreferences; [done|by subst]. }
  simpl.
  destruct (sorted_copy_spec
              (byPreference (dedupe (learned ++ stylePreferred style))) icons h l Hl)
    as (r & h' & Hrun & _ & _ & Hr).
  exists r, h'. split; [|done]. by destruct style.
Qed.

(** X12.  [sortByLearnedPreferences] returns the icons ordered by the
    place of their prefix in [learnedPreferences], icons with a prefix
    that is not listed last, and icons of equal place in the order they
    had.  For an empty list it returns the array it was given, not a
    copy. *)
Theorem sortByLearnedPreferences_orders_by_rank (h : heap) icons p l learned :
  h !! icons = Some l ->
  h !! p = Some learned ->
  exists r h' l',
    sortByLearnedPreferences icons p h = Some (r, h')
    /\ h' !! r = Some l'
    /\ stably_sorted (rank learned) l l'
    /\ (learned = [] -> r = icons /\ h' = h).
Proof.
  intros Hl Hp. unfold sortByLearnedPreferences. rewrite Hp. simpl.
  destruct learned as [|x learned]; simpl.
  - exists icons, h, l. split; [done|]. split; [done|]. split; [|done].
    split; [|done].
    intros i j a b _ _ _. unfold rank. simpl. lia.
  - destruct (sorted_copy_spec (byPreference (x :: learned)) icons h l Hl)
      as (r & h' & -> & _ & _ & Hr).
    exists r, h', (sort (byPreference (x :: learned)) l).
    split; [done|]. split; [done|]. split; [apply sorted_by_rank|done].
Qed.

(** X13.  [sortByPreferredCollections] returns the icons ordered by the
    place of their prefix in the learned prefixes followed by the
    prefixes of the style (duplicates removed), unlisted prefixes last,
    and icons of equal place in the order they had. *)
Theorem sortByPreferredCollections_orders_by_rank
  (h : heap) icons l style learnedPreferences learned :
  h !! icons = Some l ->
  match learnedPreferences with
  | Some p => h !! p = Some learned
  | None => learned = []
  end ->
  exists r h' l',
    sortByPreferredCollections icons style learnedPreferences h = Some (r, h')
    /\ h' !! r = Some l'
    /\ stably_sorted (rank (dedupe (learned ++ stylePreferred style))) l l'.
Proof.
  intros Hl Hlearned.
  destruct (sortByPreferredCollections_result h icons l style _ _ Hl Hlearned)
    as (r & h' & Hrun & Hr).
  exists r, h', (sort (byPreference (dedupe (learned ++ stylePreferred style))) l).
  split; [done|]. split; [done|]. apply sorted_by_rank.
Qed.

Lemma indexOf_elem_of x l : (0 <= indexOf x l)%Z <-> x ∈ l.
Proof.
  induction l as [|y l IH]; simpl.
  - split; [lia|]. intros Hin. by apply elem_of_nil in Hin.
  - destruct (String.eqb_spec x y) as [->|Hne].
    + split; [intros _; apply elem_of_cons; by left|lia].
    + rewrite elem_of_cons, <- IH.
      pose proof (indexOf_bounds x l).
      destruct (Z.ltb_spec (indexOf x l) 0); split; try lia; intros [?|?]; try done; lia.
Qed.

Lemma indexOf_app_l x l1 l2 : x ∈ l1 -> indexOf x (l1 ++ l2) = indexOf x l1.
Proof.
  induction l1 as [|y l1 IH]; simpl; intros Hin; [by apply elem_of_nil in Hin|].
  destruct (String.eqb_spec x y) as [->|Hne]; [done|].
  apply elem_of_cons in Hin as [?|Hin]; [done|]. by rewrite IH.
Qed.

Lemma indexOf_app_r x l1 l2 :
  x ∉ l1 ->
  indexOf x (l1 ++ l2)
  = if (indexOf x l2 <? 0)%Z then (-1)%Z
    else (Z.of_nat (length l1) + indexOf x l2)%Z.
Proof.
  induction l1 as [|y l1 IH]; simpl; intros Hin.
  - pose proof (indexOf_bounds x l2).
    destruct (Z.ltb_spec (indexOf x l2) 0); lia.
  - apply not_elem_of_cons in Hin as [Hne Hin].
    destruct (String.eqb_spec x y) as [->|_]; [done|].
    rewrite IH by done.
    destruct (Z.ltb_spec (indexOf x l2) 0); simpl; [done|].
    pose proof (indexOf_bounds x l2).
    destruct (Z.ltb_spec (Z.of_nat (length l1) + indexOf x l2) 0); lia.
Qed.

Lemma elem_of_dedupe_seen x l : forall seen,
  x ∈ dedupe_seen seen l <-> x ∈ l /\ x ∉ seen.
Proof.
  induction l as [|y l IH]; intros seen; simpl.
  - rewrite elem_of_nil. tauto.
  - case_bool_decide as Hy.
    + rewrite IH, elem_of_cons. split; [tauto|].
      intros [[->|Hl] Hs]; [done|tauto].
    + rewrite !elem_of_cons, IH, not_elem_of_cons.
      destruct (decide (x = y)) as [->|Hne]; tauto.
Qed.

Lemma dedupe_seen_app l1 l2 : forall seen,
  exists seen',
    dedupe_seen seen (l1 ++ l2) = dedupe_seen seen l1 ++ dedupe_seen seen' l2.
Proof.
  induction l1 as [|y l1 IH]; intros seen; simpl.
  - by exists seen.
  - case_bool_decide as Hy.
    + apply IH.
    + destruct (IH (y :: seen)) as (seen' & ->). by exists seen'.
Qed.

Lemma rank_learned_first learned others a b :
  getIconPrefix a ∈ learned ->
  getIconPrefix b ∉ learned ->
  (rank (dedupe (learned ++ others)) a < rank (dedupe (learned ++ others)) b)%Z.
Proof.
  intros Ha Hb. unfold rank, dedupe.
  destruct (dedupe_seen_app learned others []) as (seen' & ->).
  set (D1 := dedupe_seen [] learned). set (D2 := dedupe_seen seen' others).
  assert (getIconPrefix a ∈ D1) as Ha1.
  { apply elem_of_dedupe_seen. split; [done|]. apply not_elem_of_nil. }
  assert (getIconPrefix b ∉ D1) as Hb1.
  { intros Hin. apply elem_of_dedupe_seen in Hin as [? _]. done. }
  rewrite (indexOf_app_l _ _ _ Ha1), (indexOf_app_r _ _ _ Hb1), length_app.
  pose proof (indexOf_bounds (getIconPrefix a) D1).
  pose proof (indexOf_bounds (getIconPrefix b) D2).
  apply indexOf_elem_of in Ha1.
  repeat match goal with
         | |- context [(?x <? ?y)%Z] => destruct (Z.ltb_spec x y)
         end; lia.
Qed.

(** X14.  Learned preferences take priority: in the array returned by
    [sortByPreferredCollections], every icon whose prefix is learned
    stands in front of every icon whose prefix is not. *)
Theorem sortByPreferredCollections_puts_learned_first
  (h : heap) icons l style p learned :
  h !! icons = Some l ->
  h !! p = Some learned ->
  exists r h' l',
    sortByPreferredCollections icons style (Some p) h = Some (r, h')
    /\ h' !! r = Some l'
    /\ forall i j a b,
        l' !! i = Some a -> l' !! j = Some b ->
        getIconPrefix a ∈ learned -> getIconPrefix b ∉ learned ->
        i < j.
Proof.
  intros Hl Hp.
  destruct (sortByPreferredCollections_result h icons l style (Some p) learned Hl Hp)
    as (r & h' & Hrun & Hr).
  exists r, h', (sort (byPreference (dedupe (learned ++ stylePreferred style))) l).
  split; [done|]. split; [done|].
  intros i j a b Hi Hj Ha Hb.
  pose proof (rank_learned_first learned (stylePreferred style) a b Ha Hb) as Hlt.
  destruct (sorted_by_rank (dedupe (learned ++ stylePreferred style)) l) as [Hord _].
  destruct (Nat.lt_trichotomy i j) as [?|[->|Hji]]; [done| |].
  - simplify_eq. lia.
  - pose proof (Hord j i b a Hji Hj Hi). simpl in *. lia.
Qed.

End RankingOrder.


(** ** The preferred collections *)

Section PreferredCollections.
Import Js Memory Spec.
Variable entries : gmap string CollectionUsage -> list (string * CollectionUsage).
Hypothesis entries_enumerate : forall m, entries m ≡ₚ map_to_list m.

Lemma ordered_fmap {A B} (f : A -> B) (R : A -> A -> Prop) (R' : B -> B -> Prop) l :
  (forall a b, a ∈ l -> b ∈ l -> R a b -> R' (f a) (f b)) ->
  ordered R l -> ordered R' (f <$> l).
Proof.
  intros Hf Hord i j a' b' Hij Ha Hb.
  rewrite list_lookup_fmap in Ha, Hb.
  destruct (l !! i) as [a|] eqn:Hi; [|done].
  destruct (l !! j) as [b|] eqn:Hj; [|done].
  simpl in *. simplify_eq.
  apply Hf; [by eapply list_elem_of_lookup_2..|]. by eapply Hord.
Qed.

(** X6.  [getPreferredCollections] never throws and changes no file; it
    returns every prefix of the loaded collections exactly once, in the
    order of non-increasing count, whatever the order in which
    [Object.entries] lists the properties. *)
Theorem getPreferredCollections_orders_by_count (w : world) :
  exists l w',
    getPreferredCollections entries w = (Ok l, w')
    /\ prefs_file w' = prefs_file w
    /\ NoDup l
    /\ (forall p, p ∈ l <-> is_Some (collections (loaded w) !! p))
    /\ ordered (fun p q => (count_of (collections (loaded w)) q
                            <= count_of (collections (loaded w)) p)%Z) l.
Proof.
  destruct (loadPreferences_spec w) as (o & w' & new & Hload & Hpf & _).
  unfold getPreferredCollections, bind, loaded. rewrite Hload. simpl.
  set (m := deref (o_collections o) w').
  assert (sort byCount (entries m) ≡ₚ map_to_list m) as Hperm.
  { by rewrite sort_perm. }
  eexists _, w'. split; [reflexivity|]. split; [done|]. split; [|split].
  - rewrite Hperm. apply NoDup_fst_map_to_list.
  - intros p. rewrite Hperm. rewrite list_elem_of_fmap. split.
    + intros ([q u] & -> & Hin). apply elem_of_map_to_list in Hin. by exists u.
    + intros [u Hu]. exists (p, u). split; [done|]. by apply elem_of_map_to_list.
  - eapply ordered_fmap; [|apply (sort_stably_sorted byCount _ byCount_key)].
    intros [p u] [q v] Hp Hq. simpl.
    rewrite Hperm in Hp, Hq. apply elem_of_map_to_list in Hp, Hq.
    unfold count_of. rewrite Hp, Hq. simpl. lia.
Qed.

End PreferredCollections.

Lemma getPreferredCollections_orders_by_count_witness :
  exists l w',
    Memory.getPreferredCollections map_to_list
      (Spec.counted_world [("lucide", 3%Z); ("mdi", 5%Z)]) = (Js.Ok l, w')
    /\ l = ["mdi"; "lucide"].
Proof.
  destruct (getPreferredCollections_orders_by_count map_to_list
              (fun m => reflexivity _)
              (Spec.counted_world [("lucide", 3%Z); ("mdi", 5%Z)]))
    as (l & w' & Hrun & _).
  exists l, w'. split; [exact Hrun|].
  vm_compute in Hrun. by simplify_eq.
Defined.


(** ** Prefixes and component names *)

Section Names.
Import JsString Regex Scanner Js IconUtils IconsFile Spec.

Lemma split_on_nonempty sep s : exists p ps, split_on sep s = p :: ps.
Proof.
  induction s as [|c s IH]; simpl; [by eexists _, _|].
  destruct (sep c); [by eexists _, _|].
  destruct IH as (p & ps & ->). by eexists _, _.
Qed.

(** Splitting behind a part that holds no separator. *)
Lemma split_on_app sep p c rest :
  forall_chars (fun a => negb (sep a)) p = true ->
  sep c = true ->
  split_on sep (p +:+ String c rest) = p :: split_on sep rest.
Proof.
  intros Hp Hc. induction p as [|a p IH]; simpl.
  - by rewrite Hc.
  - simpl in Hp. apply andb_true_iff in Hp as [Ha Hp].
    apply negb_true_iff in Ha. rewrite Ha, IH by done. done.
Qed.

Lemma split_on_whole sep s :
  forall_chars (fun a => negb (sep a)) s = true -> split_on sep s = [s].
Proof.
  induction s as [|a s IH]; simpl; [done|].
  intros Hs. apply andb_true_iff in Hs as [Ha Hs].
  apply negb_true_iff in Ha. rewrite Ha, IH by done. done.
Qed.

Lemma split_on_head sep s :
  exists p ps,
    split_on sep s = p :: ps
    /\ forall_chars (fun a => negb (sep a)) p = true
    /\ match ps with
       | [] => s = p
       | _ => exists c rest, sep c = true /\ s = p +:+ String c rest
       end.
Proof.
  induction s as [|a s IH]; simpl.
  - by eexists _, _.
  - destruct (sep a) eqn:Ha.
    + exists "", (split_on sep s). split; [done|]. split; [done|].
      destruct (split_on_nonempty sep s) as (p & ps & ->). by exists a, s.
    + destruct IH as (p & ps & -> & Hp & Hs).
      exists (String a p), ps. split; [done|]. split; [simpl; by rewrite Ha|].
      destruct ps; [by subst|].
      destruct Hs as (c & rest & Hc & ->). by exists c, rest.
Qed.

Lemma split_on_forall (q sep : ascii -> bool) s :
  forall_chars q s = true ->
  Forall (fun p => forall_chars (fun a => q a && negb (sep a)) p = true)
         (split_on sep s).
Proof.
  induction s as [|a s IH]; simpl; [by repeat constructor|].
  intros Hs. apply andb_true_iff in Hs as [Ha Hs]. specialize (IH Hs).
  destruct (sep a) eqn:Hsep; [by constructor|].
  destruct (split_on sep s) as [|p ps]; [by repeat constructor; simpl; rewrite Ha, Hsep|].
  apply Forall_cons in IH as [Hp Hps]. constructor; [|done].
  simpl. by rewrite Ha, Hsep, Hp.
Qed.

Ltac by_ascii :=
  let a := fresh "a" in
  intros a; destruct a as [[] [] [] [] [] [] [] []]; vm_compute; congruence.

Lemma is_word_toUpperCase_char : forall a,
  is_word a = true -> is_word (toUpperCase_char a) = true.
Proof. by_ascii. Qed.

Lemma is_word_toLowerCase_char : forall a,
  is_word a = true -> is_word (toLowerCase_char a) = true.
Proof. by_ascii. Qed.

Lemma name_part_char : forall a,
  name_char a = true -> not_dot a = true ->
  (is_word a || is_dash_or_underscore a) = true.
Proof. by_ascii. Qed.

Lemma word_of_name_part : forall a,
  (is_word a || is_dash_or_underscore a) && negb (is_dash_or_underscore a) = true ->
  is_word a = true.
Proof. by_ascii. Qed.

Lemma prefix_char_not_colon : forall a, prefix_char a = true -> not_colon a = true.
Proof. by_ascii. Qed.

Lemma name_char_not_colon : forall a, name_char a = true -> not_colon a = true.
Proof. by_ascii. Qed.

Lemma forall_chars_map_chars (q : ascii -> bool) f s :
  (forall a, q a = true -> q (f a) = true) ->
  forall_chars q s = true -> forall_chars q (map_chars f s) = true.
Proof.
  intros Hf. induction s as [|a s IH]; simpl; [done|].
  intros Hs. apply andb_true_iff in Hs as [Ha Hs]. by rewrite Hf, IH.
Qed.

Lemma forall_chars_slice_to q n : forall s,
  forall_chars q s = true -> forall_chars q (JsString.slice_to n s) = true.
Proof.
  induction n as [|n IH]; intros [|a s]; simpl; try done.
  intros Hs. apply andb_true_iff in Hs as [Ha Hs]. by rewrite Ha, IH.
Qed.

Lemma forall_chars_slice_from q n : forall s,
  forall_chars q s = true -> forall_chars q (slice_from n s) = true.
Proof.
  induction n as [|n IH]; intros [|a s]; simpl; try done.
  intros Hs. apply andb_true_iff in Hs as [Ha Hs]. by apply IH.
Qed.

Lemma is_word_capitalize part :
  forall_chars is_word part = true -> forall_chars is_word (capitalize part) = true.
Proof.
  intros Hp. unfold capitalize, charAt0, toUpperCase, toLowerCase.
  rewrite forall_chars_app.
  rewrite !forall_chars_map_chars;
    auto using is_word_toUpperCase_char, is_word_toLowerCase_char,
      forall_chars_slice_to, forall_chars_slice_from.
Qed.

Lemma is_word_join parts :
  Forall (fun p => forall_chars is_word p = true) parts ->
  forall_chars is_word (join parts) = true.
Proof.
  induction 1 as [|p parts Hp _ IH]; [done|].
  change (join (p :: parts)) with (p +:+ join parts).
  by rewrite forall_chars_app, Hp, IH.
Qed.

(** X15.  [getIconPrefix] returns the text in front of the first colon:
    the result holds no colon, and the identifier is the result
    itself or the result followed by a colon and the rest. *)
Theorem getIconPrefix_is_text_before_first_colon (iconId : string) :
  forall_chars not_colon (getIconPrefix iconId) = true
  /\ (iconId = getIconPrefix iconId
      \/ exists rest, iconId = getIconPrefix iconId +:+ ":" +:+ rest).
Proof.
  unfold getIconPrefix.
  destruct (split_on_head (Ascii.eqb ":") iconId) as (p & ps & -> & Hp & Hs).
  simpl. split; [done|]. destruct ps; [by left|].
  destruct Hs as (c & rest & Hc & ->). apply Ascii.eqb_eq in Hc as <-.
  right. by exists rest.
Qed.

(** X16.  [iconIdToComponentName] looks at the part between the first
    and the second colon only: an identifier without a colon or with an
    empty name gives ["Icon"], two identifiers that differ in the prefix
    only give the same name, and every name ends in ["Icon"]. *)
Theorem iconIdToComponentName_uses_name_part_only :
  (forall iconId, forall_chars not_colon iconId = true ->
     iconIdToComponentName iconId = "Icon")
  /\ (forall prefix, forall_chars not_colon prefix = true ->
        iconIdToComponentName (prefix +:+ ":") = "Icon")
  /\ (forall prefix prefix' name,
        forall_chars not_colon prefix = true ->
        forall_chars not_colon prefix' = true ->
        iconIdToComponentName (prefix +:+ ":" +:+ name)
        = iconIdToComponentName (prefix' +:+ ":" +:+ name))
  /\ (forall iconId, exists pascalCase,
        iconIdToComponentName iconId = pascalCase +:+ "Icon").
Proof.
  split; [|split; [|split]].
  - intros iconId Hid. unfold iconIdToComponentName.
    by rewrite (split_on_whole _ _ Hid).
  - intros prefix Hp. unfold iconIdToComponentName.
    by rewrite (split_on_app (Ascii.eqb ":") prefix ":" "" Hp).
  - intros prefix prefix' name Hp Hp'. unfold iconIdToComponentName.
    change (":" +:+ name) with (String ":" name).
    by rewrite !(split_on_app (Ascii.eqb ":")).
  - intros iconId. unfold iconIdToComponentName.
    destruct (split_on (Ascii.eqb ":") iconId !! 1) as [[|c s]|];
      [by exists ""| |by exists ""].
    by eexists.
Qed.

Lemma iconIdToComponentName_of_parts P N :
  forall_chars not_colon P = true ->
  forall_chars not_colon N = true ->
  N <> EmptyString ->
  iconIdToComponentName (P +:+ ":" +:+ N)
  = join (capitalize <$> split_on is_dash_or_underscore N) +:+ "Icon".
Proof.
  intros HP HN Hne. unfold iconIdToComponentName.
  change (":" +:+ N) with (String ":" N).
  rewrite (split_on_app (Ascii.eqb ":")) by done.
  rewrite (split_on_whole _ _ HN). simpl. by destruct N.
Qed.

(** X17.  For every identifier that the identifier comment pattern reads
    as a whole and that holds no dot, the derived component name is a
    non-empty word: with one-line markup without exclamation mark, the
    request is well-formed. *)
Theorem iconify_request_is_well_formed iconId svg framework :
  is_icon_id iconId = true ->
  forall_chars not_dot iconId = true ->
  plain svg = true ->
  well_formed {| r_iconId := iconId; r_svg := svg; r_framework := framework;
                 r_customName := None |} = true.
Proof.
  intros Hid Hdots Hsvg. unfold well_formed, nameOf. simpl.
  rewrite Hid, Hsvg, !andb_true_r.
  destruct (is_icon_id_shape _ Hid) as (P & N & -> & _ & HP & HN & HNc).
  rewrite iconIdToComponentName_of_parts;
    eauto using forall_chars_impl, prefix_char_not_colon, name_char_not_colon.
  rewrite !forall_chars_app in Hdots.
  apply andb_true_iff in Hdots as [_ Hdots]. apply andb_true_iff in Hdots as [_ Hdots].
  assert (forall_chars (fun a => is_word a || is_dash_or_underscore a) N = true) as Hparts.
  { clear -HNc Hdots. induction N as [|a N IH]; simpl in *; [done|].
    apply andb_true_iff in HNc as [Ha HNc]. apply andb_true_iff in Hdots as [Hd Hdots].
    by rewrite name_part_char, IH. }
  set (pascalCase := join _).
  assert (forall_chars is_word pascalCase = true) as Hword.
  { apply is_word_join. apply Forall_fmap.
    eapply Forall_impl; [apply (split_on_forall _ is_dash_or_underscore _ Hparts)|].
    intros part Hpart. simpl. apply is_word_capitalize.
    eapply forall_chars_impl; [|exact Hpart]. apply word_of_name_part. }
  unfold is_identifier.
  destruct (pascalCase +:+ "Icon") eqn:E; [by destruct pascalCase|].
  rewrite <- E, forall_chars_app, Hword. done.
Qed.

End Names.


(** ** The icons file: what a call leaves alone, and the exact content *)

Section IconsFileFrame.
Import JsString Regex Scanner Js IconsFile Spec.
Context `{NodePath}.


(** One call on a file that holds the blocks of [rs] under the header
    of [framework]. *)
Lemma addIconToFile_step_render filePath framework rs r (w w' : fs) res :
  w !! filePath = Some (File (render framework rs)) ->
  rs <> [] ->
  Forall (fun r => well_formed r = true) rs ->
  NoDup (r_iconId <$> rs) ->
  well_formed r = true ->
  addIconToFile filePath (r_iconId r) (r_svg r) (r_framework r) (r_customName r) w
  = (Ok res, w') ->
  (alreadyExists res = true /\ w' = w)
  \/ (alreadyExists res = false
      /\ (r_iconId r ∉ (r_iconId <$> rs))
      /\ w' !! filePath = Some (File (render framework (rs ++ [r])))).
Proof.
  intros Hfile Hne Hrs Hnd Hr Hrun.
  destruct (addIconToFile_cases _ _ _ _ _ _ _ _ Hrun) as [(_ & Hres & ->)|[Hnone Hflag]].
  - left. by rewrite Hres.
  - right. split; [done|].
    destruct (addIconToFile_fresh _ _ _ _ _ _ _ _ Hnone Hrun) as [_ Hnew].
    fold (nameOf r) in Hnew. fold (block r) in Hnew.
    rewrite Hfile, append_to_render in Hnew by done. split; [|done].
    intros Hin. apply index_lookup_is_Some in Hin as [name Hname].
    unfold iconsAt in Hnone. rewrite Hfile, parseContent_render in Hnone by done.
    congruence.
Qed.

Lemma addAll_render filePath framework : forall requests rs (w w' : fs) results,
  w !! filePath = Some (File (render framework rs)) ->
  rs <> [] ->
  Forall (fun r => well_formed r = true) rs ->
  NoDup (r_iconId <$> rs) ->
  Forall (fun r => well_formed r = true) requests ->
  addAll filePath requests w = Some (results, w') ->
  w' !! filePath
  = Some (File (render framework (rs ++ fresh_requests requests results))).
Proof.
  induction requests as [|r requests IH]; intros rs w w' results Hfile Hne Hrs Hnd Hwf Hrun.
  - simpl in Hrun. simplify_eq. unfold fresh_requests. simpl. by rewrite app_nil_r.
  - apply Forall_cons in Hwf as [Hr Hwf]. cbn [addAll] in Hrun.
    destruct (addIconToFile _ _ _ _ _ w) as [[res|e] w1] eqn:Hcall; [|done].
    destruct (addAll filePath requests w1) as [[results1 w2]|] eqn:Hrest; [|done].
    simplify_eq.
    unfold fresh_requests. cbn [zip zip_with omap list_omap].
    fold (fresh_requests requests results1).
    destruct (addIconToFile_step_render _ _ _ _ _ _ _ Hfile Hne Hrs Hnd Hr Hcall)
      as [[-> ->]|(-> & Hfresh & Hfile1)].
    + by apply (IH rs w w' results1).
    + rewrite (IH (rs ++ [r]) w1 w' results1); try done.
      * by rewrite <- app_assoc.
      * by destruct rs.
      * apply Forall_app. by repeat constructor.
      * rewrite fmap_app. apply NoDup_app. split; [done|]. split.
        -- intros id Hin Hin'. apply list_elem_of_singleton in Hin'. by subst.
        -- apply NoDup_singleton.
Qed.

(** X19.  After a run of calls for well-formed requests from an absent
    file, the file is the header of the flavor of the first request,
    then, each behind one blank line, the blocks of the requests that
    were answered [alreadyExists = false], in call order, then one line
    feed; the first request is the first of them. *)
Theorem addAll_writes_header_and_blocks
  filePath first rest (w w' : fs) results :
  w !! filePath = None ->
  Forall (fun r => well_formed r = true) (first :: rest) ->
  addAll filePath (first :: rest) w = Some (results, w') ->
  w' !! filePath
  = Some (File (trimEnd (getFileHeader (r_framework first))
                  +:+ body (fresh_requests (first :: rest) results) +:+ NL))
  /\ exists others, fresh_requests (first :: rest) results = first :: others.
Proof.
  intros Habsent Hwf Hrun. apply Forall_cons in Hwf as [Hfirst Hwf].
  cbn [addAll] in Hrun.
  destruct (addIconToFile _ _ _ _ _ w) as [[res|e] w1] eqn:Hcall; [|done].
  destruct (addAll filePath rest w1) as [[results1 w2]|] eqn:Hrest; [|done].
  simplify_eq.
  assert (iconsAt filePath w !! r_iconId first = None) as Hnone.
  { unfold iconsAt. by rewrite Habsent. }
  destruct (addIconToFile_fresh _ _ _ _ _ _ _ _ Hnone Hcall) as [-> Hnew].
  fold (nameOf first) in Hnew. fold (block first) in Hnew.
  rewrite Habsent, append_to_header in Hnew.
  unfold fresh_requests. cbn [zip zip_with omap list_omap alreadyExists].
  fold (fresh_requests rest results1). split; [|by eexists].
  apply (addAll_render _ _ _ [first] _ _ _ Hnew); try done.
  - by repeat constructor.
  - apply NoDup_singleton.
Qed.

(** X20.  Reading back a managed file: [parseExistingIcons] returns
    without a change to the file system, and maps an identifier to a
    name exactly when the file holds the block of a request with that
    identifier and that component name. *)
Theorem parseExistingIcons_reads_the_blocks filePath framework rs (w : fs) :
  w !! filePath = Some (File (render framework rs)) ->
  Forall (fun r => well_formed r = true) rs ->
  NoDup (r_iconId <$> rs) ->
  exists icons,
    parseExistingIcons filePath w = (Ok icons, w)
    /\ forall id name, icons !! id = Some name <-> (id, name) ∈ (entry <$> rs).
Proof.
  intros Hfile Hrs Hnd. exists (iconsAt filePath w).
  split; [apply parseExistingIcons_spec|].
  unfold iconsAt. rewrite Hfile, parseContent_render by done.
  intros id name. split.
  - intros Hfound. destruct (decide (id ∈ (r_iconId <$> rs))) as [Hin|Hout].
    + apply list_elem_of_fmap in Hin as (r & -> & Hr).
      rewrite (index_lookup rs ∅ r Hnd Hr) in Hfound. simplify_eq.
      apply list_elem_of_fmap. by exists r.
    + rewrite index_lookup_other in Hfound by done. by rewrite lookup_empty in Hfound.
  - intros Hin. apply list_elem_of_fmap in Hin as (r & [= -> ->] & Hr).
    by apply index_lookup.
Qed.

(** X21.  [parseExistingIcons] never throws and changes nothing; for a
    path that is absent or a directory it returns the empty mapping. *)
Theorem parseExistingIcons_never_throws filePath (w : fs) :
  exists icons,
    parseExistingIcons filePath w = (Ok icons, w)
    /\ (w !! filePath = None \/ w !! filePath = Some Directory -> icons = ∅).
Proof.
  exists (iconsAt filePath w). split; [apply parseExistingIcons_spec|].
  unfold iconsAt. by intros [->| ->].
Qed.

End IconsFileFrame.

Section Escaping.
Import JsString Regex Scanner Js IconsFile Spec.

Lemma replace_from_backtick : forall s before,
  replace_from (Chr "`") "\`" 0 before s = escape_each s.
Proof.
  induction s as [|a s IH]; intros before; [reflexivity|].
  cbn [replace_from escape_each]. unfold match_here. rewrite rmatch_chr.
  destruct (Ascii.eqb "`" a) eqn:Ha.
  - unfold cont. cbn [group_count]. 
    assert (String.length (String a s) - String.length s = 1) as -> by (simpl; lia).
    rewrite IH. reflexivity.
  - by rewrite IH.
Qed.

(** X22.  The global replacement of [escapeBackticks] puts one backslash
    in front of every backtick and copies every other character,
    backslashes included. *)
Theorem escapeBackticks_escapes_each_backtick svg :
  escapeBackticks svg = escape_each svg.
Proof. apply replace_from_backtick. Qed.

End Escaping.


(** ** Fill injection: the tag pattern *)

Section TagPattern.
Import JsString Regex Scanner Js IconUtils TagReader Spec.

Lemma star_iter_lazy_S body k n s c :
  star_iter body false k (S n) s c
  = match k s c with
    | Some x => Some x
    | None => body s c (fun s' c' =>
                          if String.length s' <? String.length s
                          then star_iter body false k n s' c' else None)
    end.
Proof. reflexivity. Qed.

Lemma star_iter_lazy_cls p k c : forall s n,
  String.length s <= n ->
  star_iter (rmatch (Cls p)) false k n s c = try_lazy p k c s.
Proof.
  induction s as [|a s IH]; intros n Hn.
  - destruct n; simpl; by destruct (k "" c).
  - destruct n as [|n]; [simpl in Hn; lia|].
    rewrite star_iter_lazy_S, rmatch_cls. cbn [try_lazy].
    destruct (k (String a s) c); [done|].
    destruct (p a); [|done].
    assert ((String.length s <? String.length (String a s)) = true) as ->.
    { apply Nat.ltb_lt. simpl. lia. }
    apply IH. simpl in Hn. lia.
Qed.

Lemma rmatch_lazy_cls p s c k :
  rmatch (Star false (Cls p)) s c k = try_lazy p k c s.
Proof. rewrite rmatch_star. by apply star_iter_lazy_cls. Qed.

(** The continuation of the look-ahead: [fill=] or [stroke=]. *)
Lemma rmatch_paint s c :
  rmatch (Alt (Lit "fill=") (Lit "stroke=")) s c (fun s' c' => Some (c', s'))
  = if starts_with "fill=" s
    then option_map (pair c) (strip_prefix "fill=" s)
    else option_map (pair c) (strip_prefix "stroke=" s).
Proof.
  rewrite rmatch_alt, !rmatch_lit. unfold starts_with.
  destruct (strip_prefix "fill=" s); [done|].
  by destruct (strip_prefix "stroke=" s).
Qed.

Lemma lookahead_declares_paint c : forall s,
  match rmatch (Seq (Star true not_gt) (Alt (Lit "fill=") (Lit "stroke="))) s c
          (fun s' c' => Some (c', s')) with
  | Some _ => declares_paint s = true
  | None => declares_paint s = false
  end.
Proof.
  intros s. rewrite rmatch_seq. unfold not_gt, NotCls. rewrite rmatch_star_cls.
  induction s as [|a s IH].
  - cbn [try_greedy]. rewrite rmatch_paint. reflexivity.
  - cbn [try_greedy declares_paint].
    assert (match rmatch (Alt (Lit "fill=") (Lit "stroke=")) (String a s) c
                    (fun s' c' => Some (c', s')) with
            | Some _ => starts_with "fill=" (String a s)
                        || starts_with "stroke=" (String a s) = true
            | None => starts_with "fill=" (String a s)
                      || starts_with "stroke=" (String a s) = false
            end) as Hhere.
    { rewrite rmatch_paint. unfold starts_with.
      destruct (strip_prefix "fill=" (String a s)); [done|].
      by destruct (strip_prefix "stroke=" (String a s)). }
    destruct (negb (Ascii.eqb ">" a)).
    + destruct (try_greedy _ _ c s).
      * rewrite IH. by rewrite orb_true_r.
      * rewrite IH, andb_false_r, orb_false_r.
        by destruct (rmatch (Alt _ _) (String a s) c _).
    + rewrite orb_false_r. by destruct (rmatch (Alt _ _) (String a s) c _).
Qed.

(** The end of the tag: the lazy run, the optional slash, and [>]. *)
Lemma tag_close_here s c :
  rmatch (Group 2 (Opt (Chr "/"))) s c
    (fun s4 c4 => rmatch (Chr ">") s4 c4 (fun s' c' => Some (c', s')))
  = match strip_prefix "/>" s with
    | Some rest => Some ((2, "/") :: c, rest)
    | None =>
        match strip_prefix ">" s with
        | Some rest => Some ((2, EmptyString) :: c, rest)
        | None => None
        end
    end.
Proof.
  rewrite rmatch_group. unfold Opt. rewrite rmatch_alt. cbn [rmatch].
  destruct s as [|a s]; [done|].
  cbn [strip_prefix].
  destruct (Ascii.eqb "/" a) eqn:Ha.
  - apply Ascii.eqb_eq in Ha as <-.
    destruct s as [|b s]; [done|].
    destruct (Ascii.eqb ">" b) eqn:Hb; [|done].
    do 3 f_equal. unfold consumed. simpl.
    replace (S (String.length s) - String.length s) with 1 by lia. done.
  - destruct (Ascii.eqb ">" a) eqn:Hb; [|done].
    do 3 f_equal. unfold consumed. by rewrite Nat.sub_diag.
Qed.

Lemma tag_close_lazy c : forall s u,
  try_lazy (fun a => negb (Ascii.eqb ">" a))
    (fun s' c' =>
       rmatch (Group 2 (Opt (Chr "/"))) s' ((1, consumed (u +:+ s) s') :: c')
         (fun s4 c4 => rmatch (Chr ">") s4 c4 (fun s' c' => Some (c', s'))))
    c s
  = match close_at s with
    | Some (run, slash, rest) => Some ((2, slash) :: (1, u +:+ run) :: c, rest)
    | None => None
    end.
Proof.
  induction s as [|a s IH]; intros u.
  - cbn [try_lazy close_at]. rewrite tag_close_here. done.
  - cbn [try_lazy]. rewrite tag_close_here, consumed_app.
    change (close_at (String a s))
      with (match strip_prefix "/>" (String a s) with
            | Some rest => Some (EmptyString, "/", rest)
            | None =>
                match strip_prefix ">" (String a s) with
                | Some rest => Some (EmptyString, EmptyString, rest)
                | None =>
                    match close_at s with
                    | Some (run, slash, rest) => Some (String a run, slash, rest)
                    | None => None
                    end
                end
            end).
    destruct (strip_prefix "/>" (String a s)) as [rest|] eqn:H1;
      [by rewrite append_empty_r|].
    destruct (strip_prefix ">" (String a s)) as [rest|] eqn:H2;
      [by rewrite append_empty_r|].
    assert (negb (Ascii.eqb ">" a) = true) as ->.
    { cbn [strip_prefix] in H2. by destruct (Ascii.eqb ">" a). }
    specialize (IH (u +:+ String a "")).
    rewrite append_assoc in IH. cbn [String.append] in IH.
    rewrite IH.
    destruct (close_at s) as [[[run slash] rest]|]; [|done].
    by rewrite append_assoc.
Qed.

Lemma rmatch_notahead r s c k :
  rmatch (NotAhead r) s c k
  = match rmatch r s c (fun s' c' => Some (c', s')) with
    | Some _ => None
    | None => k s c
    end.
Proof. reflexivity. Qed.

(** The matcher computes [tag_at] on the tag pattern. *)
Lemma match_here_tagRegex element s :
  match_here (tagRegex element) s = tag_at element s.
Proof.
  unfold match_here, tagRegex, tag_at. rewrite rmatch_seq, rmatch_lit.
  destruct (strip_prefix ("<" +:+ element) s) as [s1|]; [|done].
  rewrite rmatch_seq, rmatch_notahead.
  pose proof (lookahead_declares_paint [] s1) as Hahead.
  destruct (rmatch (Seq (Star true not_gt) _) s1 [] _); rewrite Hahead; [done|].
  rewrite rmatch_seq, rmatch_group. unfold not_gt, NotCls.
  rewrite rmatch_lazy_cls.
  exact (tag_close_lazy [] s1 "").
Qed.

End TagPattern.


(** ** Fill injection on tokenised markup *)

Section Replacing.
Import JsString Regex Scanner Js IconUtils TagReader Spec.

Lemma replace_from_0 r tpl before s :
  replace_from r tpl 0 before s
  = match match_here r s with
    | Some (c, rest) =>
        substitution (group_count r) (Found before (consumed s rest) c rest) tpl +:+
          match s with
          | String a s' =>
              match String.length s - String.length rest with
              | 0 => String a (replace_from r tpl 0 (snoc before a) s')
              | S n' => replace_from r tpl n' (snoc before a) s'
              end
          | EmptyString => EmptyString
          end
    | None =>
        match s with
        | String a s' => String a (replace_from r tpl 0 (snoc before a) s')
        | EmptyString => EmptyString
        end
    end.
Proof. by destruct s. Qed.

Lemma replace_from_skip r tpl a : forall before b,
  replace_from r tpl (String.length a) before (a +:+ b)
  = replace_from r tpl 0 (before +:+ a) b.
Proof.
  induction a as [|x a IH]; intros before b.
  - by rewrite append_empty_r.
  - simpl. rewrite IH. f_equal. unfold snoc. by rewrite append_assoc.
Qed.

(** A stretch of text in which no match starts is copied. *)
Lemma replace_from_quiet r tpl x : forall before d,
  quiet r x d ->
  replace_from r tpl 0 before (x +:+ d)
  = x +:+ replace_from r tpl 0 (before +:+ x) d.
Proof.
  induction x as [|a x IH]; intros before d Hq.
  - by rewrite append_empty_r.
  - destruct Hq as [Hnone Hq]. rewrite replace_from_0, Hnone.
    simpl. rewrite IH by done. do 2 f_equal. unfold snoc. by rewrite append_assoc.
Qed.

(** A match is replaced, and the scan goes on behind it. *)
Lemma replace_from_hit r tpl m rest c before :
  m <> EmptyString ->
  match_here r (m +:+ rest) = Some (c, rest) ->
  replace_from r tpl 0 before (m +:+ rest)
  = substitution (group_count r) (Found before m c rest) tpl
      +:+ replace_from r tpl 0 (before +:+ m) rest.
Proof.
  intros Hm Hhit. rewrite replace_from_0, Hhit, consumed_app. f_equal.
  destruct m as [|a m]; [done|].
  change (String a m +:+ rest) with (String a (m +:+ rest)). cbv iota.
  assert (String.length (String a (m +:+ rest)) - String.length rest
          = S (String.length m)) as ->.
  { cbn [String.length]. rewrite length_append. lia. }
  rewrite replace_from_skip. f_equal. unfold snoc. by rewrite append_assoc.
Qed.

Lemma strip_prefix_more p s r x :
  strip_prefix p s = Some r -> strip_prefix p (s +:+ x) = Some (r +:+ x).
Proof.
  intros Hs. apply strip_prefix_spec in Hs as ->.
  by rewrite append_assoc, strip_prefix_app.
Qed.

Lemma strip_prefix_short p : forall t d,
  forall_chars no_gt_char p = true ->
  strip_prefix p t = None ->
  strip_prefix p (t +:+ String ">" d) = None.
Proof.
  induction p as [|a p IH]; intros t d Hp Ht; [done|].
  simpl in Hp. apply andb_true_iff in Hp as [Ha Hp].
  destruct t as [|b t]; simpl in *.
  - unfold no_gt_char in Ha. rewrite Ascii.eqb_sym in Ha.
    by destruct (Ascii.eqb a ">").
  - destruct (Ascii.eqb a b); [by apply IH|done].
Qed.

Lemma starts_with_inside p t d :
  forall_chars no_gt_char p = true ->
  starts_with p (t +:+ String ">" d) = starts_with p t.
Proof.
  intros Hp. unfold starts_with.
  destruct (strip_prefix p t) as [r|] eqn:Ht.
  - by rewrite (strip_prefix_more _ _ _ _ Ht).
  - by rewrite strip_prefix_short.
Qed.

Lemma includes_cons p a s :
  includes p (String a s) = starts_with p (String a s) || includes p s.
Proof.
  unfold starts_with. cbn [includes].
  by destruct (strip_prefix p (String a s)).
Qed.

Lemma includes_empty p : includes p "" = starts_with p "".
Proof. unfold starts_with. cbn [includes]. by destruct (strip_prefix p ""). Qed.

Lemma declares_paint_tag d : forall rest,
  forall_chars no_gt_char rest = true ->
  declares_paint (rest +:+ String ">" d) = contains_paint rest.
Proof.
  induction rest as [|a rest IH]; intros Hrest.
  - reflexivity.
  - simpl in Hrest. apply andb_true_iff in Hrest as [Ha Hrest].
    change (String a rest +:+ String ">" d) with (String a (rest +:+ String ">" d)).
    cbn [declares_paint].
    change (String a (rest +:+ String ">" d)) with (String a rest +:+ String ">" d).
    rewrite !starts_with_inside by done.
    unfold no_gt_char in Ha. rewrite Ha, IH by done.
    unfold contains_paint. rewrite !includes_cons.
    destruct (starts_with "fill=" (String a rest)),
      (starts_with "stroke=" (String a rest)),
      (includes "fill=" rest), (includes "stroke=" rest); reflexivity.
Qed.

Lemma close_at_tag d : forall rest,
  forall_chars no_gt_char rest = true ->
  exists run slash,
    close_at (rest +:+ String ">" d) = Some (run, slash, d)
    /\ run +:+ slash = rest.
Proof.
  induction rest as [|a rest IH]; intros Hrest.
  - by exists "", "".
  - simpl in Hrest. apply andb_true_iff in Hrest as [Ha Hrest].
    destruct (IH Hrest) as (run & slash & Hclose & Hjoin).
    change (String a rest +:+ String ">" d) with (String a (rest +:+ String ">" d)).
    cbn [close_at strip_prefix].
    destruct (Ascii.eqb "/" a) eqn:Hslash.
    + apply Ascii.eqb_eq in Hslash as <-.
      destruct rest as [|b rest].
      * exists "", "/". split; reflexivity.
      * simpl in Hrest. apply andb_true_iff in Hrest as [Hb _].
        unfold no_gt_char in Hb. apply negb_true_iff in Hb.
        rewrite Hclose.
        change (String b rest +:+ String ">" d) with (String b (rest +:+ String ">" d)).
        cbv iota. rewrite Hb. simpl.
        exists (String "/" run), slash. by rewrite <- Hjoin.
    + unfold no_gt_char in Ha. destruct (Ascii.eqb ">" a); [done|].
      rewrite Hclose. exists (String a run), slash. by rewrite <- Hjoin.
Qed.

Lemma no_angle_no_gt s :
  forall_chars no_angle s = true -> forall_chars no_gt_char s = true.
Proof.
  apply forall_chars_impl. intros a Ha. unfold no_angle in Ha.
  by apply andb_true_iff in Ha as [_ Ha].
Qed.

Lemma no_angle_no_lt s :
  forall_chars no_angle s = true -> forall_chars no_lt s = true.
Proof.
  apply forall_chars_impl. intros a Ha. unfold no_angle in Ha.
  by apply andb_true_iff in Ha as [Ha _].
Qed.

(** The pattern on the text of a tag. *)
Lemma tag_at_hit element inner rest d :
  forall_chars no_gt_char inner = true ->
  strip_prefix element inner = Some rest ->
  contains_paint rest = false ->
  exists run slash,
    tag_at element ("<" +:+ inner +:+ ">" +:+ d) = Some ([(2, slash); (1, run)], d)
    /\ run +:+ slash = rest.
Proof.
  intros Hinner Hstart Hpaint. unfold tag_at.
  change (strip_prefix ("<" +:+ element) ("<" +:+ inner +:+ ">" +:+ d))
    with (strip_prefix element (inner +:+ String ">" d)).
  rewrite (strip_prefix_more _ _ _ _ Hstart).
  assert (forall_chars no_gt_char rest = true) as Hrest.
  { apply strip_prefix_spec in Hstart as ->.
    rewrite forall_chars_app in Hinner. by apply andb_true_iff in Hinner as [_ ?]. }
  rewrite declares_paint_tag, Hpaint by done.
  destruct (close_at_tag d rest Hrest) as (run & slash & -> & Hjoin).
  by exists run, slash.
Qed.

Lemma tag_at_miss element inner d :
  forall_chars no_gt_char element = true ->
  forall_chars no_gt_char inner = true ->
  match strip_prefix element inner with
  | Some rest => contains_paint rest = true
  | None => True
  end ->
  tag_at element ("<" +:+ inner +:+ ">" +:+ d) = None.
Proof.
  intros Helement Hinner Hmiss. unfold tag_at.
  change (strip_prefix ("<" +:+ element) ("<" +:+ inner +:+ ">" +:+ d))
    with (strip_prefix element (inner +:+ String ">" d)).
  destruct (strip_prefix element inner) as [rest|] eqn:Hstart.
  - rewrite (strip_prefix_more _ _ _ _ Hstart).
    assert (forall_chars no_gt_char rest = true) as Hrest.
    { apply strip_prefix_spec in Hstart as ->.
      rewrite forall_chars_app in Hinner. by apply andb_true_iff in Hinner as [_ ?]. }
    by rewrite declares_paint_tag, Hmiss.
  - by rewrite strip_prefix_short.
Qed.

Lemma tag_at_no_lt element a s :
  no_lt a = true -> tag_at element (String a s) = None.
Proof.
  intros Ha. unfold tag_at, no_lt in *. cbn [String.append strip_prefix].
  by destruct (Ascii.eqb "<" a).
Qed.

(** No match starts in a text without [<]. *)
Lemma quiet_no_lt element d : forall x,
  forall_chars no_lt x = true -> quiet (tagRegex element) x d.
Proof.
  induction x as [|a x IH]; [done|]. simpl forall_chars.
  intros [Ha Hx]%andb_true_iff. split; [|by apply IH].
  rewrite match_here_tagRegex. by apply tag_at_no_lt.
Qed.

Lemma quiet_tag element inner d :
  forall_chars no_angle inner = true ->
  tag_at element ("<" +:+ inner +:+ ">" +:+ d) = None ->
  quiet (tagRegex element) ("<" +:+ inner +:+ ">") d.
Proof.
  intros Hinner Hnone.
  change ("<" +:+ inner +:+ ">") with (String "<" (inner +:+ ">")).
  split.
  - rewrite match_here_tagRegex. simpl. rewrite append_assoc. exact Hnone.
  - apply quiet_no_lt. rewrite forall_chars_app, (no_angle_no_lt _ Hinner). done.
Qed.

Lemma group_count_Lit s : group_count (Lit s) = 0.
Proof.
  induction s as [|a s IH]; [done|]. destruct s; [done|].
  change (group_count (Lit (String a (String a0 s))))
    with (group_count (Chr a) + group_count (Lit (String a0 s))).
  by rewrite IH.
Qed.

Lemma group_count_tagRegex element : group_count (tagRegex element) = 2.
Proof. unfold tagRegex. cbn [group_count]. by rewrite group_count_Lit. Qed.

Lemma substitution_app_literal m f a b :
  forall_chars not_dollar a = true ->
  substitution m f (a +:+ b) = a +:+ substitution m f b.
Proof.
  induction a as [|c a IH]; [done|]. simpl forall_chars.
  intros [Hc Ha]%andb_true_iff.
  change (String c a +:+ b) with (String c (a +:+ b)).
  destruct c as [[] [] [] [] [] [] [] []]; try done; simpl; by rewrite IH.
Qed.

(** The replacement for a match with the given captures. *)
Lemma substitution_fill element color before text run slash rest :
  forall_chars not_dollar element = true ->
  forall_chars not_dollar color = true ->
  substitution 2 (Found before text [(2, slash); (1, run)] rest)
    (fillReplacement element color)
  = "<" +:+ element +:+ " fill=" +:+ DQ +:+ color +:+ DQ +:+ run +:+ slash +:+ ">".
Proof.
  intros Helement Hcolor. unfold fillReplacement.
  change ("<" +:+ element +:+ " fill=" +:+ DQ +:+ color +:+ DQ +:+ "$1$2>")
    with ("<" +:+ (element +:+ (" fill=" +:+ DQ) +:+ (color +:+ (DQ +:+ "$1$2>")))).
  rewrite (substitution_app_literal _ _ "<") by done.
  rewrite (substitution_app_literal _ _ element) by done.
  rewrite (substitution_app_literal _ _ (" fill=" +:+ DQ)) by done.
  rewrite (substitution_app_literal _ _ color) by done.
  rewrite (substitution_app_literal _ _ DQ) by done.
  reflexivity.
Qed.

End Replacing.


Section FillPasses.
Import JsString Regex Scanner Js IconUtils TagReader Spec.

Lemma plain_no_angle s :
  forall_chars (fun c => no_angle c && not_dollar c) s = true ->
  forall_chars no_angle s = true.
Proof. apply forall_chars_impl. by intros a [? _]%andb_true_iff. Qed.

Lemma plain_not_dollar s :
  forall_chars (fun c => no_angle c && not_dollar c) s = true ->
  forall_chars not_dollar s = true.
Proof. apply forall_chars_impl. by intros a [_ ?]%andb_true_iff. Qed.

Lemma markup_cons i items : markup (i :: items) = item_text i +:+ markup items.
Proof. reflexivity. Qed.

Lemma fill_tag_for_tokenised element color inner :
  forall_chars no_angle element = true ->
  forall_chars no_angle color = true ->
  forall_chars no_angle inner = true ->
  forall_chars no_angle (fill_tag_for element color inner) = true.
Proof.
  intros He Hc Hi. unfold fill_tag_for.
  destruct (strip_prefix element inner) as [rest|] eqn:Hstart; [|done].
  destruct (contains_paint rest); [done|].
  apply strip_prefix_spec in Hstart as ->.
  rewrite forall_chars_app in Hi. apply andb_true_iff in Hi as [_ Hrest].
  rewrite !forall_chars_app, He, Hc, Hrest. reflexivity.
Qed.

Lemma fill_item_for_tokenised element color i :
  forall_chars no_angle element = true ->
  forall_chars no_angle color = true ->
  tokenised i = true -> tokenised (fill_item_for element color i) = true.
Proof.
  intros He Hc. destruct i as [t|inner]; [done|]. by apply fill_tag_for_tokenised.
Qed.

(** One pass: the tags that start with [element] and hold no paint
    receive the attribute, everything else is copied. *)
Lemma pass_markup element color :
  forall_chars (fun c => no_angle c && not_dollar c) element = true ->
  plain_color color = true ->
  forall items before,
    Forall (fun i => tokenised i = true) items ->
    replace_from (tagRegex element) (fillReplacement element color) 0 before
      (markup items)
    = markup (fill_item_for element color <$> items).
Proof.
  intros He Hc. induction items as [|i items IH]; intros before Hitems.
  { change (markup []) with EmptyString.
    rewrite replace_from_0, match_here_tagRegex. reflexivity. }
  apply Forall_cons in Hitems as [Hi Hitems].
  rewrite fmap_cons, !markup_cons.
  destruct i as [t|inner]; simpl in Hi.
  - rewrite replace_from_quiet by (by apply quiet_no_lt).
    by rewrite IH.
  - cbn [fill_item_for item_text]. unfold fill_tag_for.
    pose proof (no_angle_no_gt _ Hi) as Hgt.
    destruct (strip_prefix element inner) as [rest|] eqn:Hstart.
    + destruct (contains_paint rest) eqn:Hpaint.
      * rewrite replace_from_quiet; [by rewrite IH|].
        apply quiet_tag; [done|]. apply tag_at_miss; [|done|].
        -- apply no_angle_no_gt. by apply plain_no_angle.
        -- by rewrite Hstart.
      * destruct (tag_at_hit element inner rest (markup items) Hgt Hstart Hpaint)
          as (run & slash & Hhit & Hjoin).
        rewrite (replace_from_hit _ _ ("<" +:+ inner +:+ ">") (markup items)
                   [(2, slash); (1, run)]).
        -- rewrite IH by done. rewrite group_count_tagRegex, substitution_fill;
             [|by apply plain_not_dollar..].
           rewrite <- Hjoin. by rewrite !append_assoc.
        -- done.
        -- rewrite match_here_tagRegex. etrans; [|exact Hhit].
           f_equal. by rewrite !append_assoc.
    + rewrite replace_from_quiet; [by rewrite IH|].
      apply quiet_tag; [done|]. apply tag_at_miss; [|done|].
      * apply no_angle_no_gt. by apply plain_no_angle.
      * by rewrite Hstart.
Qed.

Lemma fill_tag_for_none element color inner :
  strip_prefix element inner = None -> fill_tag_for element color inner = inner.
Proof. intros Hnone. unfold fill_tag_for. by rewrite Hnone. Qed.

Lemma fill_tag_for_start element color rest :
  fill_tag_for element color (element +:+ rest)
  = if contains_paint rest then element +:+ rest
    else element +:+ " fill=" +:+ DQ +:+ color +:+ DQ +:+ rest.
Proof. unfold fill_tag_for. by rewrite strip_prefix_app. Qed.

(** The seven passes in a row, on the text of one tag. *)
Lemma fill_tag_passes color inner :
  foldl (fun inner element => fill_tag_for element color inner) inner
        SVG_SHAPE_ELEMENTS
  = fill_tag color inner.
Proof.
  unfold fill_tag, SVG_SHAPE_ELEMENTS. cbn [foldl shape_among].
  repeat
    lazymatch goal with
    | |- context [strip_prefix ?e inner] =>
        let H := fresh "Hstart" in
        let rest := fresh "rest" in
        destruct (strip_prefix e inner) as [rest|] eqn:H;
        [ apply strip_prefix_spec in H; subst inner;
          rewrite ?fill_tag_for_none by reflexivity;
          rewrite fill_tag_for_start;
          destruct (contains_paint rest);
          rewrite ?fill_tag_for_none by reflexivity;
          reflexivity
        | rewrite (fill_tag_for_none e) by exact H ]
    end.
  reflexivity.
Qed.

Lemma fill_item_passes color i :
  foldl (fun i element => fill_item_for element color i) i SVG_SHAPE_ELEMENTS
  = fill_item color i.
Proof.
  destruct i as [t|inner]; [reflexivity|].
  cbn [fill_item]. rewrite <- fill_tag_passes. reflexivity.
Qed.

Lemma shape_names_plain :
  Forall (fun element =>
            forall_chars (fun c => no_angle c && not_dollar c) element = true)
         SVG_SHAPE_ELEMENTS.
Proof. repeat constructor. Qed.

Lemma passes_markup color names :
  Forall (fun element =>
            forall_chars (fun c => no_angle c && not_dollar c) element = true)
         names ->
  plain_color color = true ->
  forall items,
    Forall (fun i => tokenised i = true) items ->
    foldl (fun result element =>
             replace_all (tagRegex element) (fillReplacement element color) result)
          (markup items) names
    = markup ((fun i => foldl (fun i element => fill_item_for element color i) i names)
                <$> items).
Proof.
  intros Hnames Hc. induction Hnames as [|element names He Hnames IH]; intros items Hitems.
  - cbn [foldl]. by rewrite list_fmap_id.
  - cbn [foldl]. unfold replace_all at 2. rewrite pass_markup by done.
    rewrite IH.
    + by rewrite <- list_fmap_compose.
    + apply Forall_fmap. eapply Forall_impl; [exact Hitems|].
      intros i Hi. simpl. apply fill_item_for_tokenised; [|by apply plain_no_angle|done].
      by apply plain_no_angle.
Qed.

Lemma applyFillToBody_markup items color :
  Forall (fun i => tokenised i = true) items ->
  plain_color color = true ->
  applyFillToBody (markup items) color = markup (fill_item color <$> items).
Proof.
  intros Hitems Hc. unfold applyFillToBody.
  rewrite (passes_markup color _ shape_names_plain Hc items Hitems).
  f_equal. apply list_fmap_ext. intros _ i _. apply fill_item_passes.
Qed.

End FillPasses.


Section FillTwice.
Import JsString Regex Scanner Js IconUtils TagReader Spec.

Lemma fill_tag_tokenised color inner :
  forall_chars no_angle color = true ->
  forall_chars no_angle inner = true ->
  forall_chars no_angle (fill_tag color inner) = true.
Proof.
  intros Hc Hi. rewrite <- fill_tag_passes.
  induction shape_names_plain as [|element names He _ IH] in inner, Hi |- *; [done|].
  cbn [foldl]. apply IH. apply fill_tag_for_tokenised; [|done..].
  by apply plain_no_angle.
Qed.

Lemma fill_tag_twice color inner :
  fill_tag color (fill_tag color inner) = fill_tag color inner.
Proof.
  unfold fill_tag at 2 3. unfold SVG_SHAPE_ELEMENTS. cbn [shape_among].
  repeat
    lazymatch goal with
    | |- context [strip_prefix ?e inner] =>
        let H := fresh "Hstart" in
        let rest := fresh "rest" in
        destruct (strip_prefix e inner) as [rest|] eqn:H;
        [ apply strip_prefix_spec in H; subst inner;
          destruct (contains_paint rest) eqn:Hpaint;
          [ unfold fill_tag, SVG_SHAPE_ELEMENTS; cbn [shape_among];
            cbn [strip_prefix String.append Ascii.eqb Bool.eqb]; by rewrite Hpaint
          | reflexivity ]
        | ]
    end.
  unfold fill_tag, SVG_SHAPE_ELEMENTS. cbn [shape_among].
  repeat match goal with
         | H : strip_prefix _ inner = None |- _ => rewrite H; clear H
         end.
  reflexivity.
Qed.

(** X23.  On markup that is a sequence of texts without [<] and of tags
    without angle brackets inside, and for a color without angle
    bracket and dollar sign, [applyFillToBody] changes exactly the tags
    whose text starts with the name of a shape element and holds
    neither [fill=] nor [stroke=] behind it: they receive the fill
    attribute right behind the name.  Texts and all other tags are
    copied.  (A tag that merely starts with a shape name, such as
    [linearGradient], counts.) *)
Theorem applyFillToBody_fills_unpainted_shape_tags items color :
  Forall (fun i => tokenised i = true) items ->
  plain_color color = true ->
  applyFillToBody (markup items) color = markup (fill_item color <$> items).
Proof. apply applyFillToBody_markup. Qed.

(** X24.  On such markup [applyFillToBody] is idempotent: a second
    application with the same color changes nothing. *)
Theorem applyFillToBody_idempotent items color :
  Forall (fun i => tokenised i = true) items ->
  plain_color color = true ->
  applyFillToBody (applyFillToBody (markup items) color) color
  = applyFillToBody (markup items) color.
Proof.
  intros Hitems Hc. rewrite (applyFillToBody_markup items color) by done.
  rewrite applyFillToBody_markup; [|apply Forall_fmap|done].
  - f_equal. rewrite <- list_fmap_compose. apply list_fmap_ext.
    intros _ [t|inner] _; [done|]. simpl. by rewrite fill_tag_twice.
  - eapply Forall_impl; [exact Hitems|]. intros [t|inner] Hi; [done|].
    simpl. apply fill_tag_tokenised; [|done]. by apply plain_no_angle.
Qed.

End FillTwice.

(** ** Instances *)

Lemma savePreferences_installs_or_throws_witness :
  exists w',
    Memory.savePreferences Memory.DEFAULT_PREFERENCES Spec.quiet_world = (Js.Ok tt, w')
    /\ Memory.prefs_file w' = Some (Memory.Document (Some ∅) (Some []))
    /\ Memory.temp_file w' = None
    /\ Memory.dir_present w' = true.
Proof.
  eexists.
  assert (Hrun : Memory.savePreferences Memory.DEFAULT_PREFERENCES Spec.quiet_world
                 = (Js.Ok tt, _)) by (vm_compute; reflexivity).
  split; [exact Hrun|].
  exact (savePreferences_installs_or_throws _ _ _ _ Hrun).
Defined.

Lemma loadPreferences_after_savePreferences_witness :
  exists w' w'',
    Memory.savePreferences Memory.DEFAULT_PREFERENCES Spec.quiet_world = (Js.Ok tt, w')
    /\ Memory.loadPreferences w'
       = (Js.Ok {| Memory.o_collections := Memory.Own ∅; Memory.o_history := [] |}, w'').
Proof.
  eexists.
  assert (Hrun : Memory.savePreferences Memory.DEFAULT_PREFERENCES Spec.quiet_world
                 = (Js.Ok tt, _)) by (vm_compute; reflexivity).
  destruct (loadPreferences_after_savePreferences _ _ _ Hrun eq_refl) as [w'' Hload].
  exists w''. split; [exact Hrun|exact Hload].
Defined.

Lemma getRecentIcons_after_trackUsage_witness :
  exists w1 rest w2,
    Memory.trackUsage_attempt "lucide" (Some "lucide:home") Spec.quiet_world
    = (Js.Ok Js.Return, w1)
    /\ Memory.getRecentIcons None w1
       = (Js.Ok ({| Memory.iconId := "lucide:home";
                    Memory.timestamp := "2024-01-01T00:00:00Z" |} :: rest), w2).
Proof.
  eexists.
  assert (Hrun : Memory.trackUsage_attempt "lucide" (Some "lucide:home") Spec.quiet_world
                 = (Js.Ok Js.Return, _)) by (vm_compute; reflexivity).
  destruct (getRecentIcons_after_trackUsage "lucide" "lucide:home" None _ _ _
              ltac:(discriminate) Hrun eq_refl ltac:(simpl; lia))
    as (rest & w2 & Hrecent & _).
  exists rest, w2. split; [exact Hrun|exact Hrecent].
Defined.

Lemma clearPreferences_saves_shared_defaults_witness :
  exists w',
    Memory.clearPreferences Spec.quiet_world = (Js.Ok tt, w')
    /\ Spec.saved w' = Some {| Memory.collections := ∅; Memory.history := [] |}.
Proof.
  eexists.
  assert (Hrun : Memory.clearPreferences Spec.quiet_world = (Js.Ok tt, _))
    by (vm_compute; reflexivity).
  split; [exact Hrun|].
  exact (clearPreferences_saves_shared_defaults _ _ Hrun).
Defined.





Lemma sortByLearnedPreferences_orders_by_rank_witness :
  let h : IconUtils.heap := <[1 := ["lucide"]]> {[ 0 := ["mdi:a"; "lucide:b"; "mdi:c"] ]} in
  exists r h' l',
    IconUtils.sortByLearnedPreferences 0 1 h = Some (r, h')
    /\ h' !! r = Some l'
    /\ Spec.stably_sorted (Spec.rank ["lucide"]) ["mdi:a"; "lucide:b"; "mdi:c"] l'
    /\ (["lucide"] = [] -> r = 0 /\ h' = h).
Proof.
  intros h.
  exact (sortByLearnedPreferences_orders_by_rank h 0 1 _ _ eq_refl eq_refl).
Defined.

Lemma sortByPreferredCollections_orders_by_rank_witness :
  let h : IconUtils.heap := <[1 := ["tabler"]]> {[ 0 := ["mdi:a"; "lucide:b"; "tabler:c"] ]} in
  exists r h' l',
    IconUtils.sortByPreferredCollections 0 IconUtils.Any (Some 1) h = Some (r, h')
    /\ h' !! r = Some l'
    /\ Spec.stably_sorted
         (Spec.rank (Js.dedupe (["tabler"] ++ Spec.stylePreferred IconUtils.Any)))
         ["mdi:a"; "lucide:b"; "tabler:c"] l'.
Proof.
  intros h.
  exact (sortByPreferredCollections_orders_by_rank h 0 _ IconUtils.Any (Some 1) ["tabler"]
           eq_refl eq_refl).
Defined.

Lemma sortByPreferredCollections_puts_learned_first_witness :
  let h : IconUtils.heap := <[1 := ["tabler"]]> {[ 0 := ["mdi:a"; "lucide:b"; "tabler:c"] ]} in
  exists r h' l',
    IconUtils.sortByPreferredCollections 0 IconUtils.Any (Some 1) h = Some (r, h')
    /\ h' !! r = Some l'
    /\ forall i j a b,
        l' !! i = Some a -> l' !! j = Some b ->
        IconUtils.getIconPrefix a ∈ ["tabler"] ->
        IconUtils.getIconPrefix b ∉ ["tabler"] ->
        i < j.
Proof.
  intros h.
  exact (sortByPreferredCollections_puts_learned_first h 0 _ IconUtils.Any 1 ["tabler"]
           eq_refl eq_refl).
Defined.

Lemma iconify_request_is_well_formed_witness :
  Spec.well_formed
    {| IconsFile.r_iconId := "lucide:arrow-right"; IconsFile.r_svg := Spec.homeSvg;
       IconsFile.r_framework := Memory.vue; IconsFile.r_customName := None |} = true.
Proof.
  apply (iconify_request_is_well_formed "lucide:arrow-right" Spec.homeSvg Memory.vue);
    vm_compute; reflexivity.
Defined.


Lemma addAll_writes_header_and_blocks_witness :
  Spec.synced [Spec.request "lucide:home"; Spec.request "mdi:star"] !! Spec.iconsPath
  = Some (IconsFile.File
            (JsString.trimEnd (IconsFile.getFileHeader Memory.react)
               +:+ Spec.body [Spec.request "lucide:home"; Spec.request "mdi:star"]
               +:+ NL)).
Proof.
  refine (proj1 (addAll_writes_header_and_blocks Spec.iconsPath
                   (Spec.request "lucide:home")
                   [Spec.request "mdi:star"; Spec.request "lucide:home"]
                   Spec.project
                   (Spec.synced [Spec.request "lucide:home"; Spec.request "mdi:star"])
                   [ {| IconsFile.componentName := "HomeIcon";
                        IconsFile.alreadyExists := false;
                        IconsFile.existingName := None |};
                     {| IconsFile.componentName := "StarIcon";
                        IconsFile.alreadyExists := false;
                        IconsFile.existingName := None |};
                     {| IconsFile.componentName := "HomeIcon";
                        IconsFile.alreadyExists := true;
                        IconsFile.existingName := Some "HomeIcon" |} ]
                   _ _ _)).
  - reflexivity.
  - repeat constructor.
  - vm_compute. reflexivity.
Defined.

Lemma parseExistingIcons_reads_the_blocks_witness :
  exists icons,
    IconsFile.parseExistingIcons Spec.iconsPath
      (Spec.synced [Spec.request "lucide:home"; Spec.request "mdi:star"])
    = (Js.Ok icons, Spec.synced [Spec.request "lucide:home"; Spec.request "mdi:star"])
    /\ forall id name,
        icons !! id = Some name
        <-> (id, name) ∈ [("lucide:home", "HomeIcon"); ("mdi:star", "StarIcon")].
Proof.
  apply (parseExistingIcons_reads_the_blocks Spec.iconsPath Memory.react
           [Spec.request "lucide:home"; Spec.request "mdi:star"]).
  - reflexivity.
  - repeat constructor.
  - vm_compute. repeat constructor; [|apply not_elem_of_nil].
    intros Hin. apply elem_of_cons in Hin as [Heq|Hin]; [discriminate|].
    by apply elem_of_nil in Hin.
Defined.

Lemma applyFillToBody_fills_unpainted_shape_tags_witness :
  IconUtils.applyFillToBody
    (Spec.quoted "<g><path stroke='red' d='X'/><path d='X'/></g>") "currentColor"
  = Spec.quoted "<g><path stroke='red' d='X'/><path fill='currentColor' d='X'/></g>".
Proof.
  apply (applyFillToBody_fills_unpainted_shape_tags
           [Spec.Tag "g"; Spec.Tag (Spec.quoted "path stroke='red' d='X'/");
            Spec.Tag (Spec.quoted "path d='X'/"); Spec.Tag "/g"] "currentColor").
  - repeat constructor.
  - reflexivity.
Defined.

Lemma applyFillToBody_idempotent_witness :
  IconUtils.applyFillToBody
    (IconUtils.applyFillToBody (Spec.quoted "<circle r='4'/>") "#f00") "#f00"
  = IconUtils.applyFillToBody (Spec.quoted "<circle r='4'/>") "#f00".
Proof.
  apply (applyFillToBody_idempotent [Spec.Tag (Spec.quoted "circle r='4'/")] "#f00").
  - repeat constructor.
  - reflexivity.
Defined.

(** ** The XML declaration *)

Section XmlDeclaration.
Import JsString Regex Scanner Js IconUtils IconsFile TagReader Spec.

Lemma replace_from_before r : forall s skip before before',
  replace_from r "" skip before s = replace_from r "" skip before' s.
Proof.
  induction s as [|a s IH]; intros skip before before'.
  - destruct skip; [|done]. rewrite !replace_from_0.
    by destruct (match_here r "") as [[c rest]|].
  - destruct skip as [|skip]; [|cbn [replace_from]; apply IH].
    rewrite (replace_from_0 _ _ before (String a s)),
      (replace_from_0 _ _ before' (String a s)).
    destruct (match_here r (String a s)) as [[c rest]|].
    + cbn [substitution].
      destruct (String.length (String a s) - String.length rest);
        [do 2 f_equal|f_equal]; apply IH.
    + f_equal. apply IH.
Qed.

Lemma greedy_up_to_close c rest : forall attributes,
  forall_chars no_gt_char attributes = true ->
  try_greedy (fun a => negb (Ascii.eqb ">" a))
    (fun s' c' => rmatch (Lit "?>") s' c' (fun s'' c'' => Some (c'', s'')))
    c (attributes +:+ "?>" +:+ rest)
  = Some (c, rest).
Proof.
  induction attributes as [|a attributes IH]; intros Hattributes.
  - reflexivity.
  - simpl in Hattributes. apply andb_true_iff in Hattributes as [Ha Hattributes].
    change (String a attributes +:+ "?>" +:+ rest)
      with (String a (attributes +:+ "?>" +:+ rest)).
    cbn [try_greedy]. unfold no_gt_char in Ha. by rewrite Ha, IH.
Qed.

Lemma match_here_xmlDeclaration attributes rest :
  forall_chars no_gt_char attributes = true ->
  match_here xmlDeclaration ("<?xml" +:+ attributes +:+ "?>" +:+ rest)
  = Some ([], rest).
Proof.
  intros Hattributes. unfold match_here, xmlDeclaration.
  rewrite rmatch_seq, rmatch_lit.
  change (strip_prefix "<?xml" ("<?xml" +:+ attributes +:+ "?>" +:+ rest))
    with (Some (attributes +:+ "?>" +:+ rest)).
  cbv iota. rewrite rmatch_seq. unfold not_gt, NotCls. rewrite rmatch_star_cls.
  by apply greedy_up_to_close.
Qed.

(** X25.  An XML declaration in front of the markup is dropped: the
    generated code is the code for the markup behind it, for every
    flavor. *)
Theorem generateIconComponent_drops_xml_declaration
  componentName attributes svg iconId framework :
  forall_chars no_gt_char attributes = true ->
  generateIconComponent componentName ("<?xml" +:+ attributes +:+ "?>" +:+ svg)
    iconId framework
  = generateIconComponent componentName svg iconId framework.
Proof.
  intros Hattributes.
  assert (cleanSvg ("<?xml" +:+ attributes +:+ "?>" +:+ svg) = cleanSvg svg) as Hclean.
  { unfold cleanSvg, replace_all. f_equal.
    pose proof (match_here_xmlDeclaration attributes svg Hattributes) as Hhit.
    replace ("<?xml" +:+ attributes +:+ "?>" +:+ svg)
      with (("<?xml" +:+ attributes +:+ "?>") +:+ svg) in Hhit |- *
      by (by rewrite !append_assoc).
    rewrite (replace_from_hit _ "" ("<?xml" +:+ attributes +:+ "?>") svg [] "");
      [|done|exact Hhit].
    cbn [substitution]. apply replace_from_before. }
  unfold generateIconComponent. by rewrite Hclean.
Qed.

Lemma generateIconComponent_drops_xml_declaration_witness :
  generateIconComponent "HomeIcon"
    ("<?xml" +:+ quoted " version='1.0' encoding='UTF-8'" +:+ "?>" +:+ homeSvg)
    "lucide:home" Memory.react
  = generateIconComponent "HomeIcon" homeSvg "lucide:home" Memory.react.
Proof.
  apply (generateIconComponent_drops_xml_declaration "HomeIcon"
           (quoted " version='1.0' encoding='UTF-8'") homeSvg "lucide:home"
           Memory.react).
  reflexivity.
Defined.

End XmlDeclaration.

Section TrackedCollections.
Import Js Memory Spec.
Variable entries : gmap string CollectionUsage -> list (string * CollectionUsage).
Hypothesis entries_enumerate : forall m, entries m ≡ₚ map_to_list m.


End TrackedCollections.


(** ** A leftover identifier comment *)

Section StaleComment.
Import JsString Regex Scanner Js IconsFile Spec.
Context `{NodePath}.

Ltac by_ascii :=
  let a := fresh "a" in
  intros a; destruct a as [[] [] [] [] [] [] [] []]; vm_compute; congruence.

Lemma prefix_char_not_lf : forall a,
  prefix_char a = true -> negb (Ascii.eqb LF a) = true.
Proof. by_ascii. Qed.
Lemma name_char_not_lf : forall a,
  name_char a = true -> negb (Ascii.eqb LF a) = true.
Proof. by_ascii. Qed.
Lemma prefix_char_not_slash : forall a, prefix_char a = true -> not_slash a = true.
Proof. by_ascii. Qed.
Lemma name_char_not_slash : forall a, name_char a = true -> not_slash a = true.
Proof. by_ascii. Qed.

Lemma matches_groups_before r : forall s skip before before',
  f_groups <$> matches_from r skip before s
  = f_groups <$> matches_from r skip before' s.
Proof.
  induction s as [|a s IH]; intros skip before before'.
  - destruct skip; [|done]. rewrite !matches_from_0.
    by destruct (match_here r "") as [[c rest]|].
  - destruct skip as [|skip]; [|cbn [matches_from]; apply IH].
    rewrite (matches_from_0 _ before (String a s)),
      (matches_from_0 _ before' (String a s)).
    destruct (match_here r (String a s)) as [[c rest]|].
    + rewrite !fmap_cons. f_equal. apply IH.
    + apply IH.
Qed.

(** The declaration behind the comment lines of a block. *)
Lemma after_comments_declaration name extra t :
  is_identifier name = true ->
  extra = EmptyString \/ extra = usageComment name ->
  after_comments AtStart
    (skip is_space (extra +:+ "export const " +:+ name +:+ String " " t))
  = Some ("export const " +:+ name +:+ String " " t).
Proof.
  intros [Hname Hword]%is_identifier_shape [-> | ->].
  - reflexivity.
  - unfold usageComment.
    change (skip is_space (("// Use with: {@html " +:+ ?x) +:+ ?y))
      with ("// Use with: {@html " +:+ x +:+ y).
    repeat rewrite append_assoc.
    change (after_comments AtStart ("// Use with: {@html " +:+ ?x))
      with (after_comments InComment (" Use with: {@html " +:+ x)).
    rewrite after_comments_in.
    set (decl := "export const " +:+ name +:+ String " " t).
    set (line := " Use with: {@html " +:+ name +:+ "} or {@html "
                   +:+ name +:+ "WithClass(" +:+ DQ +:+ "my-class"
                   +:+ DQ +:+ ")}").
    assert (forall_chars (fun a => negb (Ascii.eqb LF a)) line = true) as Hline.
    { unfold line. rewrite !forall_chars_app.
      rewrite (forall_chars_impl _ _ _ word_not_lf Hword). done. }
    assert (" Use with: {@html " +:+ name +:+ "} or {@html "
              +:+ name +:+ "WithClass(" +:+ DQ +:+ "my-class"
              +:+ DQ +:+ ")}" +:+ NL +:+ decl
            = line +:+ NL +:+ decl) as ->.
    { unfold line. by rewrite !append_assoc. }
    rewrite skip_run; [|done|done].
    reflexivity.
Qed.

Lemma export_at_declaration name t :
  is_identifier name = true ->
  export_at ("export const " +:+ name +:+ String " " t) = Some (name, String " " t).
Proof.
  intros [Hname Hword]%is_identifier_shape.
  destruct (nonempty_first _ Hname) as (n0 & name' & ->).
  assert (is_space n0 = false) as Hn0.
  { simpl in Hword. apply andb_true_iff in Hword as [Hn _].
    by apply word_not_space. }
  unfold export_at.
  change (strip_prefix "export" ("export const " +:+ ?x)) with (Some (" const " +:+ x)).
  cbn [mbind option_bind].
  change (skip1 is_space (" const " +:+ ?x)) with (Some ("const " +:+ x)).
  cbn [mbind option_bind].
  change (strip_prefix "const" ("const " +:+ ?x)) with (Some (" " +:+ x)).
  cbn [mbind option_bind].
  assert (skip1 is_space (" " +:+ String n0 name' +:+ String " " t)
          = Some (String n0 name' +:+ String " " t)) as ->.
  { simpl. by rewrite Hn0. }
  cbn [mbind option_bind].
  rewrite skip1_run; [|done..].
  cbn [mbind option_bind]. by rewrite consumed_app.
Qed.

(** The pattern reads from an identifier comment up to the identifier
    in it, and on to whatever stands behind its line. *)
Lemma icon_at_identifier id tail5 :
  is_icon_id id = true ->
  stops name_char tail5 ->
  icon_at ("// " +:+ id +:+ tail5)
  = if has_lf tail5 then
      s6 ← after_comments AtStart (skip is_space tail5);
      '(name, rest) ← export_at s6;
      Some ([(2, name); (1, id)], rest)
    else None.
Proof.
  intros (P & N & -> & HP & HPc & HN & HNc)%is_icon_id_shape Htail.
  destruct (nonempty_first _ HP) as (p0 & P' & ->).
  assert (is_space p0 = false) as Hp0.
  { simpl in HPc. apply andb_true_iff in HPc as [Hp _].
    by apply prefix_char_not_space. }
  set (id := String p0 P' +:+ ":" +:+ N).
  unfold icon_at.
  change (strip_prefix "//" ("// " +:+ id +:+ tail5)) with (Some (" " +:+ id +:+ tail5)).
  cbn [mbind option_bind].
  assert (skip is_space (" " +:+ id +:+ tail5) = id +:+ tail5) as ->.
  { change (skip is_space (" " +:+ id +:+ tail5)) with (skip is_space (id +:+ tail5)).
    apply skip_stop. unfold id. simpl. done. }
  assert (skip1 prefix_char (id +:+ tail5) = Some (":" +:+ N +:+ tail5)) as ->.
  { unfold id. rewrite !append_assoc. apply skip1_run; done. }
  cbn [mbind option_bind].
  change (strip_prefix ":" (":" +:+ N +:+ tail5)) with (Some (N +:+ tail5)).
  cbn [mbind option_bind].
  assert (skip1 name_char (N +:+ tail5) = Some tail5) as ->.
  { apply skip1_run; done. }
  cbn [mbind option_bind].
  by rewrite consumed_app.
Qed.

(** A leftover comment in front of a block takes the declaration of
    the block. *)
Lemma icon_at_adopts stale id name extra t :
  is_icon_id stale = true -> is_icon_id id = true -> is_identifier name = true ->
  extra = EmptyString \/ extra = usageComment name ->
  icon_at ("// " +:+ stale +:+ NL +:+ NL +:+
           "// " +:+ id +:+ NL +:+ extra +:+ "export const " +:+ name +:+ String " " t)
  = Some ([(2, name); (1, stale)], String " " t).
Proof.
  intros Hstale Hid Hname Hextra.
  rewrite icon_at_identifier; [|done|done].
  set (decl := "export const " +:+ name +:+ String " " t).
  change (has_lf (NL +:+ ?x)) with true. cbv iota.
  change (skip is_space (NL +:+ NL +:+ "// " +:+ ?x)) with ("// " +:+ x).
  change (after_comments AtStart ("// " +:+ ?x))
    with (after_comments InComment (" " +:+ x)).
  rewrite after_comments_in.
  apply is_icon_id_shape in Hid as (P & N & -> & _ & HPc & _ & HNc).
  assert (forall_chars (fun a => negb (Ascii.eqb LF a)) (" " +:+ P +:+ ":" +:+ N) = true)
    as Hline.
  { rewrite !forall_chars_app.
    rewrite (forall_chars_impl _ _ _ prefix_char_not_lf HPc),
      (forall_chars_impl _ _ _ name_char_not_lf HNc). done. }
  assert (" " +:+ (P +:+ ":" +:+ N) +:+ NL +:+ extra +:+ decl
          = (" " +:+ P +:+ ":" +:+ N) +:+ NL +:+ extra +:+ decl) as ->.
  { by rewrite !append_assoc. }
  rewrite skip_run; [|done|done].
  change (NL +:+ extra +:+ decl) with (String LF (extra +:+ decl)). cbv iota.
  rewrite after_comments_after. unfold decl.
  rewrite after_comments_declaration by done.
  cbn [mbind option_bind]. rewrite export_at_declaration by done.
  reflexivity.
Qed.

Lemma icon_at_leftover stale :
  is_icon_id stale = true -> icon_at ("// " +:+ stale +:+ NL) = None.
Proof.
  intros Hstale. by rewrite icon_at_identifier.
Qed.

Lemma scan_body_then rs d :
  Forall (fun r => well_formed r = true) rs ->
  forall before,
    f_groups <$> matches_from iconPattern 0 before (body rs +:+ d)
    = (groups_of <$> rs) ++ (f_groups <$> matches_from iconPattern 0 "" d).
Proof.
  induction 1 as [|r rs Hr Hrs IH]; intros before.
  - change (body [] +:+ d) with d. apply matches_groups_before.
  - destruct (block_shape r Hr) as (tail & Hblock & [[t ->] Hquiet _ _]).
    assert (body (r :: rs) +:+ d
            = (NL +:+ NL) +:+ lead r +:+ String " " t +:+ (body rs +:+ d)) as ->.
    { change (body (r :: rs)) with (NL +:+ NL +:+ block r +:+ body rs).
      rewrite Hblock, !append_assoc. reflexivity. }
    rewrite matches_from_quiet by (by apply quiet_no_slash).
    assert (match_here iconPattern (lead r +:+ String " " t +:+ body rs +:+ d)
            = Some (groups_of r, String " " t +:+ body rs +:+ d)) as Hhit.
    { rewrite match_here_iconPattern.
      change (String " " t +:+ body rs +:+ d) with (String " " (t +:+ body rs +:+ d)).
      rewrite lead_block_form.
      unfold well_formed in Hr.
      apply andb_true_iff in Hr as [[Hid Hname]%andb_true_iff _].
      apply icon_at_block; [done..|].
      destruct (r_framework r); auto. }
    rewrite (matches_from_hit _ _ _ _ _ (lead_nonempty r) Hhit).
    rewrite !fmap_cons. cbn [f_groups]. rewrite <- app_comm_cons. f_equal.
    rewrite matches_from_quiet by apply Hquiet.
    apply IH.
Qed.

Lemma quiet_leftover stale :
  is_icon_id stale = true -> quiet iconPattern ("// " +:+ stale +:+ NL) "".
Proof.
  intros Hstale.
  change ("// " +:+ stale +:+ NL) with (String "/" (String "/" (" " +:+ stale +:+ NL))).
  split; [|split].
  - rewrite match_here_iconPattern, append_empty_r. by apply icon_at_leftover.
  - rewrite match_here_iconPattern. reflexivity.
  - apply quiet_no_slash.
    apply is_icon_id_shape in Hstale as (P & N & -> & _ & HPc & _ & HNc).
    rewrite !forall_chars_app,
      (forall_chars_impl _ _ _ prefix_char_not_slash HPc),
      (forall_chars_impl _ _ _ name_char_not_slash HNc). done.
Qed.

Lemma matches_from_end r before :
  match_here r "" = None -> matches_from r 0 before "" = [].
Proof. intros Hnone. by rewrite matches_from_0, Hnone. Qed.

(** The matches in a managed file with a leftover comment at its end. *)
Lemma groups_with_leftover framework rs stale :
  Forall (fun r => well_formed r = true) rs ->
  is_icon_id stale = true ->
  f_groups <$> exec_all iconPattern (render framework rs +:+ "// " +:+ stale +:+ NL)
  = groups_of <$> rs.
Proof.
  intros Hrs Hstale. unfold exec_all, render.
  rewrite !append_assoc.
  rewrite matches_from_quiet by apply quiet_header.
  rewrite scan_body_then by done.
  rewrite (matches_from_quiet iconPattern NL) by (by apply quiet_no_slash).
  rewrite <- (append_empty_r ("// " +:+ stale +:+ NL)).
  rewrite matches_from_quiet by (by apply quiet_leftover).
  rewrite matches_from_end by (by rewrite match_here_iconPattern).
  by rewrite app_nil_r.
Qed.

(** The matches once a block is appended behind the leftover comment. *)
Lemma groups_with_adopted framework rs stale r :
  Forall (fun r => well_formed r = true) rs ->
  is_icon_id stale = true ->
  well_formed r = true ->
  f_groups <$> exec_all iconPattern
    (trimEnd (getFileHeader framework) +:+ body rs +:+ NL +:+ "// " +:+ stale
       +:+ NL +:+ NL +:+ block r +:+ NL)
  = (groups_of <$> rs) ++ [[(2, nameOf r); (1, stale)]].
Proof.
  intros Hrs Hstale Hr. unfold exec_all.
  rewrite matches_from_quiet by apply quiet_header.
  rewrite scan_body_then by done. f_equal.
  rewrite (matches_from_quiet iconPattern NL) by (by apply quiet_no_slash).
  destruct (block_shape r Hr) as (tail & -> & [[t ->] Hquiet _ _]).
  assert ("// " +:+ stale +:+ NL +:+ NL +:+ (lead r +:+ String " " t) +:+ NL
          = ("// " +:+ stale +:+ NL +:+ NL +:+ lead r) +:+ String " " t +:+ NL) as ->.
  { by rewrite !append_assoc. }
  assert (match_here iconPattern
            (("// " +:+ stale +:+ NL +:+ NL +:+ lead r) +:+ String " " t +:+ NL)
          = Some ([(2, nameOf r); (1, stale)], String " " t +:+ NL)) as Hhit.
  { rewrite match_here_iconPattern, !append_assoc.
    change (String " " t +:+ NL) with (String " " (t +:+ NL)).
    rewrite lead_block_form.
    unfold well_formed in Hr.
    apply andb_true_iff in Hr as [[Hid Hname]%andb_true_iff _].
    apply icon_at_adopts; [done..|].
    destruct (r_framework r); auto. }
  rewrite (matches_from_hit iconPattern
             ("// " +:+ stale +:+ NL +:+ NL +:+ lead r) (String " " t +:+ NL)
             [(2, nameOf r); (1, stale)]); [|done|exact Hhit].
  rewrite fmap_cons. cbn [f_groups]. f_equal.
  rewrite matches_from_quiet by apply Hquiet.
  rewrite (matches_from_quiet iconPattern NL _ "") by (by apply quiet_no_slash).
  by rewrite matches_from_end by (by rewrite match_here_iconPattern).
Qed.

Lemma scan_groups rs icons :
  Forall (fun r => well_formed r = true) rs ->
  foldl (fun icons g =>
           match capture 1 g, capture 2 g with
           | Some id, Some name =>
               if truthy (capture 1 g) && truthy (capture 2 g)
               then <[id := name]> icons else icons
           | _, _ => icons
           end) icons (groups_of <$> rs)
  = index rs icons.
Proof.
  intros Hrs. unfold index. revert icons.
  induction Hrs as [|r rs Hr Hrs IH]; intros icons; [done|].
  rewrite fmap_cons. cbn [foldl]. rewrite IH. f_equal.
  destruct (well_formed_truthy r Hr) as [H1 H2].
  unfold groups_of. cbn [capture Nat.eqb]. by rewrite H1, H2.
Qed.

Lemma no_bang_icon_id id :
  is_icon_id id = true -> forall_chars not_bang id = true.
Proof.
  intros (P & N & -> & _ & HPc & _ & HNc)%is_icon_id_shape.
  rewrite !forall_chars_app,
    (forall_chars_impl _ _ _ prefix_char_not_bang HPc),
    (forall_chars_impl _ _ _ name_char_not_bang HNc). done.
Qed.

Lemma parseContent_with_leftover framework rs stale :
  Forall (fun r => well_formed r = true) rs ->
  is_icon_id stale = true ->
  parseContent (render framework rs +:+ "// " +:+ stale +:+ NL) = index rs ∅.
Proof.
  intros Hrs Hstale. unfold parseContent.
  rewrite scanVueComments_none.
  - rewrite scanIconComments_groups, groups_with_leftover by done.
    by apply scan_groups.
  - rewrite !forall_chars_app, (no_bang_render _ _ Hrs), (no_bang_icon_id _ Hstale).
    done.
Qed.

Lemma no_space_trimEnd s :
  forall_chars (fun a => negb (is_space a)) s = true -> trimEnd s = s.
Proof.
  induction s as [|a s IH]; [done|]. simpl forall_chars.
  intros [Ha Hs]%andb_true_iff. cbn [trimEnd]. rewrite IH by done.
  apply negb_true_iff in Ha. rewrite Ha. by destruct s.
Qed.

Lemma no_space_icon_id id :
  is_icon_id id = true -> forall_chars (fun a => negb (is_space a)) id = true.
Proof.
  intros (P & N & -> & _ & HPc & _ & HNc)%is_icon_id_shape.
  rewrite !forall_chars_app. apply andb_true_iff. split; [|apply andb_true_iff; split].
  - eapply forall_chars_impl; [|exact HPc]. intros a Ha.
    by rewrite (prefix_char_not_space a Ha).
  - done.
  - eapply forall_chars_impl; [|exact HNc]. intros a Ha.
    destruct (is_space a) eqn:Hsp; [|done].
    by rewrite (space_not_name_char a Hsp) in Ha.
Qed.

Lemma trimEnd_with_leftover framework rs stale :
  is_icon_id stale = true ->
  trimEnd (render framework rs +:+ "// " +:+ stale +:+ NL)
  = trimEnd (getFileHeader framework) +:+ body rs +:+ NL +:+ "// " +:+ stale.
Proof.
  intros Hstale. unfold render.
  assert (kept stale) as Hkept.
  { split; [by apply no_space_trimEnd, no_space_icon_id|].
    apply is_icon_id_shape in Hstale as (P & N & -> & HP & _). by destruct P. }
  replace ((trimEnd (getFileHeader framework) +:+ body rs +:+ NL)
             +:+ "// " +:+ stale +:+ NL)
    with ((trimEnd (getFileHeader framework) +:+ body rs +:+ NL +:+ "// " +:+ stale)
            +:+ NL) by (by rewrite !append_assoc).
  apply trimEnd_kept. by do 4 apply kept_app.
Qed.

(** X27.  An identifier comment left at the end of the file without its
    declaration takes the next block that is added: after the call for
    another identifier, [parseExistingIcons] maps the leftover
    identifier to the new component name, and does not map the new
    identifier at all. *)
Theorem leftover_comment_adopts_next_block
  filePath framework rs stale r (w w' : fs) res :
  w !! filePath = Some (File (render framework rs +:+ "// " +:+ stale +:+ NL)) ->
  Forall (fun r => well_formed r = true) rs ->
  is_icon_id stale = true ->
  well_formed r = true ->
  r_iconId r ∉ (r_iconId <$> rs) ->
  r_iconId r <> stale ->
  addIconToFile filePath (r_iconId r) (r_svg r) (r_framework r) (r_customName r) w
  = (Ok res, w') ->
  alreadyExists res = false
  /\ exists icons,
      parseExistingIcons filePath w' = (Ok icons, w')
      /\ icons !! stale = Some (componentName res)
      /\ icons !! r_iconId r = None.
Proof.
  intros Hfile Hrs Hstale Hr Hfresh Hne Hrun.
  assert (iconsAt filePath w !! r_iconId r = None) as Hnone.
  { unfold iconsAt. rewrite Hfile, parseContent_with_leftover by done.
    by rewrite index_lookup_other. }
  destruct (addIconToFile_fresh _ _ _ _ _ _ _ _ Hnone Hrun) as [-> Hnew].
  fold (nameOf r) in Hnew. fold (block r) in Hnew.
  rewrite Hfile, trimEnd_with_leftover in Hnew by done.
  split; [done|]. exists (iconsAt filePath w').
  split; [apply parseExistingIcons_spec|].
  unfold iconsAt. rewrite Hnew. unfold parseContent.
  rewrite scanVueComments_none.
  - rewrite scanIconComments_groups.
    replace ((trimEnd (getFileHeader framework) +:+ body rs +:+ NL +:+ "// " +:+ stale)
               +:+ NL +:+ NL +:+ block r +:+ NL)
      with (trimEnd (getFileHeader framework) +:+ body rs +:+ NL +:+ "// " +:+ stale
              +:+ NL +:+ NL +:+ block r +:+ NL) by (by rewrite !append_assoc).
    rewrite groups_with_adopted by done.
    rewrite foldl_app, scan_groups by done. cbn [foldl capture Nat.eqb].
    destruct (well_formed_truthy r Hr) as [_ Hname].
    assert (truthy (Some stale) = true) as ->.
    { apply is_icon_id_shape in Hstale as (P & N & -> & HP & _). by destruct P. }
    rewrite Hname. cbn [andb componentName].
    split; [by rewrite lookup_insert_eq|].
    rewrite lookup_insert_ne by done. by rewrite index_lookup_other.
  - destruct (block_shape r Hr) as (tail & -> & [_ _ Htail _]).
    pose proof (no_bang_body rs Hrs) as Hbody.
    rewrite !forall_chars_app, Hbody, (no_bang_icon_id _ Hstale),
      (no_bang_lead r Hr), Htail.
    by destruct framework.
Qed.

End StaleComment.

Lemma leftover_comment_adopts_next_block_witness :
  let w : IconsFile.fs :=
    <[Spec.iconsPath :=
        IconsFile.File (Spec.render Memory.react [Spec.request "lucide:home"]
                          +:+ "// " +:+ "mdi:star" +:+ NL)]> Spec.project in
  exists w' icons,
    IconsFile.addIconToFile Spec.iconsPath "mdi:bell" Spec.homeSvg Memory.react None w
    = (Js.Ok {| IconsFile.componentName := "BellIcon"; IconsFile.alreadyExists := false;
                IconsFile.existingName := None |}, w')
    /\ IconsFile.parseExistingIcons Spec.iconsPath w' = (Js.Ok icons, w')
    /\ icons !! "mdi:star" = Some "BellIcon"
    /\ icons !! "mdi:bell" = None.
Proof.
  intros w. eexists.
  assert (Hrun : IconsFile.addIconToFile Spec.iconsPath "mdi:bell" Spec.homeSvg
                   Memory.react None w = (Js.Ok _, _))
    by (vm_compute; reflexivity).
  destruct (leftover_comment_adopts_next_block Spec.iconsPath Memory.react
              [Spec.request "lucide:home"] "mdi:star" (Spec.request "mdi:bell")
              w _ _ eq_refl ltac:(repeat constructor) eq_refl eq_refl
              ltac:(vm_compute; intros Hin; apply elem_of_cons in Hin as [Heq|Hin];
                    [discriminate|by apply elem_of_nil in Hin])
              ltac:(discriminate) Hrun)
    as (_ & icons & Hparse & Hstale & Hnew).
  exists icons. split; [exact Hrun|]. split; [exact Hparse|]. split; [exact Hstale|exact Hnew].
Defined.
